(** * CSG terms and chains of OpenSCAD ([src/csgterm.cc])

    A shallow embedding of [CSGTerm] (construction with bounding-box
    pruning, the Goldfeather normalisation, the textual dump) and of
    [CSGChain] (flattening, the aggregate bounding box and the textual
    dump).

    Conventions of the embedding.
    - [shared_ptr<CSGTerm>] is an optional address into a store of nodes;
      [None] is the null pointer.  [new CSGTerm] appends a node to the
      store.  [normalize] assigns to [term->left] and [term->right] in
      place, so the store is threaded through every operation and two
      parents really share a child.
    - Dereferencing a null pointer is undefined behaviour in the source;
      the embedding reports it as [Fault].
    - [normalize] has no syntactic termination argument; it is run with a
      step budget and reports [OutOfFuel] when the budget is exhausted.
      That a large enough budget always suffices is proved below.
    - Coordinates are [double]s in the source.  The code only compares
      them and applies affine maps; they are modelled by exact integers
      (every integer of moderate size is a [double], and the largest
      finite [double] is itself an integer).  The integers are exact only
      as long as every coordinate stays within [- DBL_MAX] and [DBL_MAX]:
      beyond that range the source overflows to an infinity, and the
      product of a transform with a point that has an infinite coordinate
      is not a number, which [extend] ignores and no integer stands for.
      The operator constructors use the identity matrix, under which
      finite coordinates are reproduced exactly.  Theorems whose truth
      depends on this ask for finite boxes ([finite_box], [prims_finite],
      [boxes_finite]) and, for the matrix of a primitive, for a product
      without overflow ([no_overflow]); every box [createCSGTerm] and
      [normalize] compute from finite boxes is finite again
      ([normalize_finite]). *)

From Stdlib Require Import ZArith String Lia.
From stdpp Require Import base option list strings.

(** ** Results of operations that may dereference null or run out of steps *)

Inductive res (A : Type) : Type :=
| Ok (a : A)
| Fault
| OutOfFuel.
Arguments Ok {A} a.
Arguments Fault {A}.
Arguments OutOfFuel {A}.

#[global] Instance res_ret : MRet res := fun A a => Ok a.
#[global] Instance res_bind : MBind res := fun A B f r =>
  match r with
  | Ok a => f a
  | Fault => Fault
  | OutOfFuel => OutOfFuel
  end.

(** ** Linear algebra used by the source ([linalg.h], Eigen) *)

Module Linalg.

Local Open Scope Z_scope.

Record Vector3d : Type := mkVec { vx : Z; vy : Z; vz : Z }.

Definition cwise_min (a b : Vector3d) : Vector3d :=
  mkVec (Z.min (vx a) (vx b)) (Z.min (vy a) (vy b)) (Z.min (vz a) (vz b)).

Definition cwise_max (a b : Vector3d) : Vector3d :=
  mkVec (Z.max (vx a) (vx b)) (Z.max (vy a) (vy b)) (Z.max (vz a) (vz b)).

(** [Transform3d]: an affine map, the upper three rows of the 4x4 matrix
    (linear part and translation column); the fourth row is (0,0,0,1). *)
Record Transform3d : Type := mkTransform {
  m00 : Z; m01 : Z; m02 : Z; m03 : Z;
  m10 : Z; m11 : Z; m12 : Z; m13 : Z;
  m20 : Z; m21 : Z; m22 : Z; m23 : Z
}.

Definition Identity : Transform3d :=
  mkTransform 1 0 0 0
              0 1 0 0
              0 0 1 0.

(** [m * v] for a transform and a point, in exact arithmetic: the value
    the source computes when the entries, the coordinates and the sum stay
    finite (see [no_overflow] below). *)
Definition apply (t : Transform3d) (v : Vector3d) : Vector3d :=
  mkVec (m00 t * vx v + m01 t * vy v + m02 t * vz v + m03 t)
        (m10 t * vx v + m11 t * vy v + m12 t * vz v + m13 t)
        (m20 t * vx v + m21 t * vy v + m22 t * vz v + m23 t).

(** [std::numeric_limits<double>::max()], an integer. *)
Definition DBL_MAX : Z := 2 ^ 1024 - 2 ^ 971.

(** Modelled from the spec: [BoundingBox] is Eigen's [AlignedBox<double,3>]
    (declared in [linalg.h], not part of the sources at hand): a pair of
    corners with the box operations the spec lists, extend-by-point,
    component-wise min/max and the empty test.  A default-constructed box
    is the null box, whose minimum is the largest and whose maximum is the
    smallest finite number. *)
Record BoundingBox : Type := mkBox { bmin : Vector3d; bmax : Vector3d }.

Definition nullBox : BoundingBox :=
  mkBox (mkVec DBL_MAX DBL_MAX DBL_MAX)
        (mkVec (- DBL_MAX) (- DBL_MAX) (- DBL_MAX)).

(** [isNull]: some coordinate of the minimum exceeds that of the maximum. *)
Definition isNull (b : BoundingBox) : bool :=
  (vx (bmax b) <? vx (bmin b)) || (vy (bmax b) <? vy (bmin b))
  || (vz (bmax b) <? vz (bmin b)).

Definition extend (b : BoundingBox) (v : Vector3d) : BoundingBox :=
  mkBox (cwise_min (bmin b) v) (cwise_max (bmax b) v).

(** [contains]: the point lies between the two corners. *)
Definition contains (b : BoundingBox) (v : Vector3d) : bool :=
  (vx (bmin b) <=? vx v) && (vx v <=? vx (bmax b))
  && (vy (bmin b) <=? vy v) && (vy v <=? vy (bmax b))
  && (vz (bmin b) <=? vz v) && (vz v <=? vz (bmax b)).

(** The box both [TYPE_INTERSECTION] and [TYPE_DIFFERENCE] test in
    [createCSGTerm]: maximum of the minima, minimum of the maxima. *)
Definition overlap (l r : BoundingBox) : BoundingBox :=
  mkBox (cwise_max (bmin l) (bmin r)) (cwise_min (bmax l) (bmax r)).

End Linalg.
Export Linalg.

(** Modelled from the spec: [PolySet] ([polyset.h]) is the opaque solid; the
    only thing the terms ask of it is its axis-aligned bounding box in its
    own coordinates, [getBoundingBox()]. *)
Record PolySet : Type := mkPolySet { ps_id : nat; ps_bbox : BoundingBox }.

(** [double color[4]]: carried along, never inspected. *)
Definition Color : Type := (Z * Z * Z * Z)%type.
Definition noColor : Color := (0, 0, 0, 0)%Z.

(** ** Terms *)

Inductive type_e : Type :=
| TYPE_PRIMITIVE
| TYPE_UNION
| TYPE_INTERSECTION
| TYPE_DIFFERENCE.

#[global] Instance type_e_eq_dec : EqDecision type_e.
Proof. solve_decision. Defined.

(** [shared_ptr<CSGTerm>] *)
Abbreviation ptr := (option nat) (only parsing).

Record CSGTerm : Type := mkCSGTerm {
  type : type_e;
  polyset : option PolySet;
  label : string;
  left : ptr;
  right : ptr;
  bbox : BoundingBox;
  m : Transform3d;
  color : Color
}.

Abbreviation heap := (list CSGTerm) (only parsing).

Definition deref (h : heap) (p : ptr) : res CSGTerm :=
  match p with
  | None => Fault
  | Some a => match h !! a with Some n => Ok n | None => Fault end
  end.

(** [new CSGTerm(...)]: the node gets the next free address. *)
Definition alloc (h : heap) (n : CSGTerm) : heap * ptr :=
  (h ++ [n], Some (length h)).

(** The operator branch of [CSGTerm::initBoundingBox]: the box of a node
    of type [ty] with matrix [mx] from the boxes of its two children. *)
Definition initBoundingBox_op (ty : type_e) (mx : Transform3d)
    (leftbox rightbox : BoundingBox) : BoundingBox :=
  match ty with
  | TYPE_UNION =>
      extend (extend nullBox
                (apply mx (cwise_min (bmin leftbox) (bmin rightbox))))
             (apply mx (cwise_max (bmax leftbox) (bmax rightbox)))
  | TYPE_INTERSECTION =>
      extend (extend nullBox
                (apply mx (cwise_max (bmin leftbox) (bmin rightbox))))
             (apply mx (cwise_min (bmax leftbox) (bmax rightbox)))
  | TYPE_DIFFERENCE =>
      extend (extend nullBox (apply mx (bmin leftbox)))
             (apply mx (bmax leftbox))
  | TYPE_PRIMITIVE => nullBox
  end.

(** The primitive branch of [CSGTerm::initBoundingBox]: the two corners
    [polybox.min()] and [polybox.max()] are transformed and the box is
    extended by each. *)
Definition initBoundingBox_prim (mx : Transform3d) (polybox : BoundingBox)
    : BoundingBox :=
  extend (extend nullBox (apply mx (bmin polybox))) (apply mx (bmax polybox)).

(** [CSGTerm::initBoundingBox()], run by every constructor on the fields
    it has just set: it reads [this->polyset] for a primitive and both
    children otherwise. *)
Definition initBoundingBox (h : heap) (ty : type_e) (ps : option PolySet)
    (mx : Transform3d) (l r : ptr) : res BoundingBox :=
  match ty with
  | TYPE_PRIMITIVE =>
      match ps with
      | None => Fault
      | Some s => Ok (initBoundingBox_prim mx (ps_bbox s))
      end
  | _ =>
      ln ← deref h l;
      rn ← deref h r;
      Ok (initBoundingBox_op ty mx (bbox ln) (bbox rn))
  end.

(** The primitive constructor
    [CSGTerm(polyset, matrix, color, label)]. *)
Definition newPrimitive (h : heap) (ps : option PolySet) (mx : Transform3d)
    (c : Color) (lbl : string) : res (heap * ptr) :=
  b ← initBoundingBox h TYPE_PRIMITIVE ps mx None None;
  Ok (alloc h (mkCSGTerm TYPE_PRIMITIVE ps lbl None None b mx c)).

(** The operator constructor [CSGTerm(type, left, right)]; the polyset is
    left null, the matrix is the identity and the colour is not set. *)
Definition newOperator (h : heap) (ty : type_e) (l r : ptr)
    : res (heap * ptr) :=
  b ← initBoundingBox h ty None Identity l r;
  Ok (alloc h (mkCSGTerm ty None EmptyString l r b Identity noColor)).

(** [CSGTerm::createCSGTerm(type, left, right)] *)
Definition createCSGTerm (h : heap) (ty : type_e) (l r : ptr)
    : res (heap * ptr) :=
  let prune :=
    ln ← deref h l;
    rn ← deref h r;
    let newbox := overlap (bbox ln) (bbox rn) in
    match ty with
    | TYPE_INTERSECTION =>
        if isNull newbox then Ok (h, None) else newOperator h ty l r
    | TYPE_DIFFERENCE =>
        if isNull newbox then Ok (h, l) else newOperator h ty l r
    | _ => newOperator h ty l r
    end in
  match ty with
  | TYPE_PRIMITIVE => prune
  | _ =>
      match r with
      | None =>
          match ty with
          | TYPE_UNION | TYPE_DIFFERENCE => Ok (h, l)
          | _ => Ok (h, r)
          end
      | Some _ =>
          match l with
          | None =>
              match ty with
              | TYPE_UNION => Ok (h, r)
              | _ => Ok (h, l)
              end
          | Some _ => prune
          end
      end
  end.

(** ** Normalisation *)

Definition setLeft (h : heap) (a : nat) (l : ptr) : heap :=
  match h !! a with
  | Some n =>
      <[a := mkCSGTerm (type n) (polyset n) (label n) l (right n)
                       (bbox n) (m n) (color n)]> h
  | None => h
  end.

Definition setRight (h : heap) (a : nat) (r : ptr) : heap :=
  match h !! a with
  | Some n =>
      <[a := mkCSGTerm (type n) (polyset n) (label n) (left n) r
                       (bbox n) (m n) (color n)]> h
  | None => h
  end.

(** [createCSGTerm(t, createCSGTerm(t1, a, b), c)] *)
Definition create_left (h : heap) (t t1 : type_e) (a b c : ptr)
    : res (heap * ptr * bool) :=
  '(h1, u) ← createCSGTerm h t1 a b;
  '(h2, w) ← createCSGTerm h1 t u c;
  Ok (h2, w, true).

(** [createCSGTerm(t, createCSGTerm(t1, a, b), createCSGTerm(t2, c, d))];
    the two inner terms are built left to right. *)
Definition create_both (h : heap) (t t1 t2 : type_e) (a b c d : ptr)
    : res (heap * ptr * bool) :=
  '(h1, u) ← createCSGTerm h t1 a b;
  '(h2, v) ← createCSGTerm h1 t2 c d;
  '(h3, w) ← createCSGTerm h2 t u v;
  Ok (h3, w, true).

(** [CSGTerm::normalize_tail(term)]: the new value of [term] and the
    returned flag. *)
Definition normalize_tail (h : heap) (term : ptr)
    : res (heap * ptr * bool) :=
  t ← deref h term;
  match type t with
  | TYPE_UNION | TYPE_PRIMITIVE => Ok (h, term, false)
  | _ =>
      (* Part A: the 'x . (y . z)' expressions *)
      let x := left t in
      rt ← deref h (right t);
      let y := left rt in
      let z := right rt in
      match type t, type rt with
      | TYPE_DIFFERENCE, TYPE_UNION =>
          create_left h TYPE_DIFFERENCE TYPE_DIFFERENCE x y z
      | TYPE_INTERSECTION, TYPE_UNION =>
          create_both h TYPE_UNION TYPE_INTERSECTION TYPE_INTERSECTION
                      x y x z
      | TYPE_DIFFERENCE, TYPE_INTERSECTION =>
          create_both h TYPE_UNION TYPE_DIFFERENCE TYPE_DIFFERENCE x y x z
      | TYPE_INTERSECTION, TYPE_INTERSECTION =>
          create_left h TYPE_INTERSECTION TYPE_INTERSECTION x y z
      | TYPE_DIFFERENCE, TYPE_DIFFERENCE =>
          create_both h TYPE_UNION TYPE_DIFFERENCE TYPE_INTERSECTION
                      x y x z
      | TYPE_INTERSECTION, TYPE_DIFFERENCE =>
          create_left h TYPE_DIFFERENCE TYPE_INTERSECTION x y z
      | _, _ =>
          (* Part B: the '(x . y) . z' expressions *)
          lt ← deref h (left t);
          let x := left lt in
          let y := right lt in
          let z := right t in
          match type lt, type t with
          | TYPE_DIFFERENCE, TYPE_INTERSECTION =>
              create_left h TYPE_DIFFERENCE TYPE_INTERSECTION x z y
          | TYPE_UNION, TYPE_DIFFERENCE =>
              create_both h TYPE_UNION TYPE_DIFFERENCE TYPE_DIFFERENCE
                          x z y z
          | TYPE_UNION, TYPE_INTERSECTION =>
              create_both h TYPE_UNION TYPE_INTERSECTION TYPE_INTERSECTION
                          x z y z
          | _, _ => Ok (h, term, false)
          end
      end
  end.

(** [while (term && normalize_tail(term)) { }] *)
Fixpoint tail_loop (fuel : nat) (h : heap) (term : ptr) : res (heap * ptr) :=
  match fuel with
  | O => OutOfFuel
  | S f =>
      match term with
      | None => Ok (h, term)
      | Some _ =>
          '(h1, term1, again) ← normalize_tail h term;
          if again : bool then tail_loop f h1 term1 else Ok (h1, term1)
      end
  end.

(** The condition of the [do ... while] loop; it reads [term->right->type]
    and, only when that is a primitive, [term->left->type]. *)
Definition loop_again (h : heap) (a : nat) : res bool :=
  t ← deref h (Some a);
  if decide (type t = TYPE_UNION) then Ok false
  else
    rt ← deref h (right t);
    if decide (type rt = TYPE_PRIMITIVE) then
      lt ← deref h (left t);
      Ok (bool_decide (type lt = TYPE_UNION))
    else Ok true.

(** The end of [normalize], after [term->right = normalize(term->right)]:
    a term with a null child collapses to the other child or to null. *)
Definition collapse (h : heap) (a : nat) : res (heap * ptr) :=
  t ← deref h (Some a);
  match right t with
  | None =>
      match type t with
      | TYPE_UNION | TYPE_DIFFERENCE => Ok (h, left t)
      | _ => Ok (h, right t)
      end
  | Some _ =>
      match left t with
      | None =>
          match type t with
          | TYPE_UNION => Ok (h, right t)
          | _ => Ok (h, left t)
          end
      | Some _ => Ok (h, Some a)
      end
  end.

(** [CSGTerm::normalize(term)] and its [do ... while] loop. *)
Fixpoint normalize (fuel : nat) (h : heap) (term : ptr)
    {struct fuel} : res (heap * ptr) :=
  match fuel with
  | O => OutOfFuel
  | S f =>
      t ← deref h term;
      if decide (type t = TYPE_PRIMITIVE) then Ok (h, term)
      else normalize_do f h term
  end
with normalize_do (fuel : nat) (h : heap) (term : ptr)
    {struct fuel} : res (heap * ptr) :=
  match fuel with
  | O => OutOfFuel
  | S f =>
      '(h1, term1) ← tail_loop f h term;
      match term1 with
      | None => Ok (h1, term1)
      | Some a =>
          t ← deref h1 term1;
          if decide (type t = TYPE_PRIMITIVE) then Ok (h1, term1)
          else
            '(h2, l) ← normalize f h1 (left t);
            let h3 := setLeft h2 a l in
            again ← loop_again h3 a;
            if again : bool then normalize_do f h3 term1
            else
              t3 ← deref h3 term1;
              '(h4, r) ← normalize f h3 (right t3);
              collapse (setRight h4 a r) a
      end
  end.

(** [CSGTerm::dump()] *)
Fixpoint dump (fuel : nat) (h : heap) (term : ptr) : res string :=
  match fuel with
  | O => OutOfFuel
  | S f =>
      t ← deref h term;
      match type t with
      | TYPE_UNION =>
          l ← dump f h (left t); r ← dump f h (right t);
          Ok ("(" +:+ l +:+ " + " +:+ r +:+ ")")
      | TYPE_INTERSECTION =>
          l ← dump f h (left t); r ← dump f h (right t);
          Ok ("(" +:+ l +:+ " * " +:+ r +:+ ")")
      | TYPE_DIFFERENCE =>
          l ← dump f h (left t); r ← dump f h (right t);
          Ok ("(" +:+ l +:+ " - " +:+ r +:+ ")")
      | TYPE_PRIMITIVE => Ok (label t)
      end
  end.

(** ** Chains *)

Record CSGChain : Type := mkCSGChain {
  polysets : list (option PolySet);
  matrices : list Transform3d;
  colors : list Color;
  types : list type_e;
  labels : list string
}.

(** [CSGChain::CSGChain()] *)
Definition emptyChain : CSGChain := mkCSGChain [] [] [] [] [].

(** [CSGChain::add]: one [push_back] per vector. *)
Definition add (c : CSGChain) (ps : option PolySet) (mx : Transform3d)
    (col : Color) (ty : type_e) (lbl : string) : CSGChain :=
  mkCSGChain (polysets c ++ [ps]) (matrices c ++ [mx]) (colors c ++ [col])
             (types c ++ [ty]) (labels c ++ [lbl]).

(** [CSGChain::import(term, type)] *)
Fixpoint import (fuel : nat) (h : heap) (c : CSGChain) (term : ptr)
    (ty : type_e) : res CSGChain :=
  match fuel with
  | O => OutOfFuel
  | S f =>
      t ← deref h term;
      if decide (type t = TYPE_PRIMITIVE) then
        Ok (add c (polyset t) (m t) (color t) ty (label t))
      else
        c1 ← import f h c (left t) ty;
        import f h c1 (right t) (type t)
  end.

(** Indexing a vector; reading past the end is undefined in the source. *)
Definition at_index {A : Type} (l : list A) (i : nat) : res A :=
  match l !! i with Some x => Ok x | None => Fault end.

(** The body of the loop of [CSGChain::getBoundingBox] at index [i]. *)
Definition getBoundingBox_body (c : CSGChain) (acc : BoundingBox) (i : nat)
    : res BoundingBox :=
  ty ← at_index (types c) i;
  if decide (ty = TYPE_DIFFERENCE) then Ok acc
  else
    ops ← at_index (polysets c) i;
    match ops with
    | None => Fault
    | Some ps =>
        let psbox := ps_bbox ps in
        if isNull psbox then Ok acc
        else
          t ← at_index (matrices c) i;
          Ok (extend (extend acc (apply t (bmin psbox)))
                     (apply t (bmax psbox)))
    end.

(** [CSGChain::getBoundingBox()]: [i] runs from 0 to [polysets.size()]. *)
Definition getBoundingBox (c : CSGChain) : res BoundingBox :=
  foldl (fun acc i => b ← acc; getBoundingBox_body c b i)
        (Ok nullBox) (seq 0 (length (polysets c))).

(** ** Trees: what a pointer unfolds to *)

(** The tree a pointer denotes in a store: absent for the null pointer, a
    leaf for a primitive node, an operator node with the unfoldings of its
    two children otherwise.  Each tree node keeps the store node it came
    from. *)
Inductive tree : Type :=
| TAbsent
| TPrim (n : CSGTerm)
| TOp (n : CSGTerm) (l r : tree).

Inductive repr (h : heap) : ptr -> tree -> Prop :=
| repr_absent : repr h None TAbsent
| repr_prim a n :
    h !! a = Some n -> type n = TYPE_PRIMITIVE -> repr h (Some a) (TPrim n)
| repr_op a n l r :
    h !! a = Some n -> type n <> TYPE_PRIMITIVE ->
    repr h (left n) l -> repr h (right n) r ->
    repr h (Some a) (TOp n l r).

(** The executable counterpart of [repr]. *)
Fixpoint unfold (fuel : nat) (h : heap) (p : ptr) : option tree :=
  match fuel with
  | O => None
  | S f =>
      match p with
      | None => Some TAbsent
      | Some a =>
          n ← h !! a;
          if decide (type n = TYPE_PRIMITIVE) then Some (TPrim n)
          else l ← unfold f h (left n); r ← unfold f h (right n);
               Some (TOp n l r)
      end
  end.

Definition tree_type (t : tree) : option type_e :=
  match t with
  | TAbsent => None
  | TPrim n | TOp n _ _ => Some (type n)
  end.

(** *** Point membership *)

(** Membership of a point in the solid of a primitive is given from
    outside; the terms never look inside a [PolySet]. *)
Definition solid : Type := PolySet -> Transform3d -> Vector3d -> bool.

Definition combine (ty : type_e) (a b : bool) : bool :=
  match ty with
  | TYPE_UNION => a || b
  | TYPE_INTERSECTION => a && b
  | TYPE_DIFFERENCE => a && negb b
  | TYPE_PRIMITIVE => false
  end.

Definition prim_member (inside : solid) (n : CSGTerm) (p : Vector3d) : bool :=
  match polyset n with
  | Some ps => inside ps (m n) p
  | None => false
  end.

(** Set union, intersection and difference over primitive membership; the
    absent term is the empty set. *)
Fixpoint member (inside : solid) (t : tree) (p : Vector3d) : bool :=
  match t with
  | TAbsent => false
  | TPrim n => prim_member inside n p
  | TOp n l r => combine (type n) (member inside l p) (member inside r p)
  end.

(** *** Shapes of trees *)

Definition prim_or_absent (t : tree) : Prop :=
  match t with
  | TAbsent | TPrim _ => True
  | TOp _ _ _ => False
  end.

Definition is_prim (t : tree) : Prop :=
  match t with
  | TPrim _ => True
  | _ => False
  end.

(** The exit condition of the [do ... while] loop at every node that is
    reachable from the root without passing through a union. *)
Fixpoint shape (t : tree) : Prop :=
  match t with
  | TAbsent | TPrim _ => True
  | TOp n l r =>
      type n = TYPE_UNION \/
      (prim_or_absent r /\ tree_type l <> Some TYPE_UNION /\
       shape l /\ shape r)
  end.

(** No rule of [normalize_tail] applies anywhere, below unions as well, and
    no child is absent. *)
Fixpoint settled (t : tree) : Prop :=
  match t with
  | TAbsent => False
  | TPrim _ => True
  | TOp n l r =>
      settled l /\ settled r /\
      (type n = TYPE_UNION \/
       (is_prim r /\ tree_type l <> Some TYPE_UNION /\
        ~ (type n = TYPE_INTERSECTION /\
           tree_type l = Some TYPE_DIFFERENCE)))
  end.

(** Every child is present. *)
Fixpoint full (t : tree) : Prop :=
  match t with
  | TAbsent => False
  | TPrim _ => True
  | TOp _ l r => full l /\ full r
  end.

Fixpoint depth (t : tree) : nat :=
  match t with
  | TAbsent | TPrim _ => 0
  | TOp _ l r => S (Nat.max (depth l) (depth r))
  end.

Fixpoint leaves (t : tree) : nat :=
  match t with
  | TAbsent => 0
  | TPrim _ => 1
  | TOp _ l r => leaves l + leaves r
  end.

(** The dump of a tree, following the words of the spec: fully
    parenthesised infix, a primitive is its label. *)
Fixpoint dump_tree (t : tree) : string :=
  match t with
  | TAbsent => EmptyString
  | TPrim n => label n
  | TOp n l r =>
      let op := match type n with
                | TYPE_UNION => " + "
                | TYPE_INTERSECTION => " * "
                | TYPE_DIFFERENCE => " - "
                | TYPE_PRIMITIVE => EmptyString
                end in
      "(" +:+ dump_tree l +:+ op +:+ dump_tree r +:+ ")"
  end.

(** *** Records of a chain *)

Definition chain_record : Type :=
  (option PolySet * Transform3d * Color * type_e * string)%type.

Definition records (c : CSGChain) : list chain_record :=
  zip (zip (zip (zip (polysets c) (matrices c)) (colors c)) (types c))
      (labels c).

(** The five vectors of a chain have one length. *)
Definition chain_wf (c : CSGChain) : Prop :=
  length (matrices c) = length (polysets c) /\
  length (colors c) = length (polysets c) /\
  length (types c) = length (polysets c) /\
  length (labels c) = length (polysets c).

(** Flattening following the words of the spec: a primitive is tagged with
    the caller's kind; the left subtree keeps the caller's kind, the right
    subtree gets the node's own. *)
Fixpoint flatten (t : tree) (kind : type_e) : list chain_record :=
  match t with
  | TAbsent => []
  | TPrim n => [(polyset n, m n, color n, kind, label n)]
  | TOp n l r => flatten l kind ++ flatten r (type n)
  end.

Definition record_type (r : chain_record) : type_e := r.1.2.

(** A record takes part in the bounding box unless it is tagged as a
    difference. *)
Definition contributes (r : chain_record) : Prop :=
  record_type r <> TYPE_DIFFERENCE.

#[global] Instance contributes_dec r : Decision (contributes r).
Proof. unfold contributes. apply _. Defined.



(** ** Stores built by the constructors *)

#[global] Instance Vector3d_eq_dec : EqDecision Vector3d.
Proof. solve_decision. Defined.
#[global] Instance BoundingBox_eq_dec : EqDecision BoundingBox.
Proof. solve_decision. Defined.

(** What [createCSGTerm] leaves behind for an operator node: both children
    were built before it, and the cached box is the one
    [initBoundingBox] computes from theirs. *)
Definition built_node (h : heap) (a : nat) (n : CSGTerm) : bool :=
  match type n with
  | TYPE_PRIMITIVE => true
  | ty =>
      match left n, right n with
      | Some l, Some r =>
          match h !! l, h !! r with
          | Some ln, Some rn =>
              bool_decide (l < a) && bool_decide (r < a)
              && bool_decide (bbox n =
                              initBoundingBox_op ty Identity (bbox ln)
                                                 (bbox rn))
          | _, _ => false
          end
      | _, _ => false
      end
  end.

Definition built (h : heap) : Prop :=
  forall a n, h !! a = Some n -> built_node h a n = true.

(** The cached box of every primitive encloses its solid. *)
Definition prims_sound (inside : solid) (h : heap) : Prop :=
  forall a n p, h !! a = Some n -> type n = TYPE_PRIMITIVE ->
    prim_member inside n p = true -> contains (bbox n) p = true.

(** ** The invariant of normalisation *)

(** A rank for terms under which every rule of [normalize_tail] strictly
    decreases: unions add, intersections and differences multiply the left
    rank by a power of the right one. *)
Definition rank_op (ty : type_e) (x y : nat) : nat :=
  match ty with
  | TYPE_UNION => x + y + 1
  | TYPE_INTERSECTION => x * 2 ^ y
  | TYPE_DIFFERENCE => x * 2 ^ y + 1
  | TYPE_PRIMITIVE => 2
  end.

Definition rank_ptr (R : nat -> nat) (q : ptr) : nat :=
  match q with Some a => R a | None => 2 end.

Definition den_ptr (D : nat -> bool) (q : ptr) : bool :=
  match q with Some a => D a | None => false end.

Definition ptr_ok (h : heap) (q : ptr) : Prop :=
  match q with Some a => a < length h | None => True end.

Definition agree {A : Type} (k : nat) (f g : nat -> A) : Prop :=
  forall a, a < k -> f a = g a.

(** Nodes stay where they are and keep their type. *)
Definition same_types (h h' : heap) : Prop :=
  forall b n, h !! b = Some n ->
    exists n', h' !! b = Some n' /\ type n' = type n.

Section Invariant.

Variable inside : solid.
Variable p : Vector3d.

(** [R] ranks the nodes and [D] records whether [p] lies in the solid a
    node stood for when it was built.  An assignment to [term->left] or
    [term->right] replaces a child by one of the same membership and of no
    larger rank, so both stay valid although the cached box is not
    recomputed. *)
Definition node_ok (h : heap) (R : nat -> nat) (D : nat -> bool)
    (a : nat) (n : CSGTerm) : Prop :=
  2 <= R a /\
  (D a = true -> contains (bbox n) p = true) /\
  match type n with
  | TYPE_PRIMITIVE => D a = prim_member inside n p
  | ty =>
      ptr_ok h (left n) /\ ptr_ok h (right n) /\
      D a = combine ty (den_ptr D (left n)) (den_ptr D (right n)) /\
      rank_op ty (rank_ptr R (left n)) (rank_ptr R (right n)) <= R a
  end.

Definition Inv (h : heap) (R : nat -> nat) (D : nat -> bool) : Prop :=
  forall a n, h !! a = Some n -> node_ok h R D a n.

(** How a store and its ghost maps may change while a term of rank at most
    [k] is worked on: old addresses keep their rank, membership and type,
    and a node of rank above [k] is not assigned to. *)
Definition evolve (k : nat) (h : heap) (R : nat -> nat) (D : nat -> bool)
    (h' : heap) (R' : nat -> nat) (D' : nat -> bool) : Prop :=
  agree (length h) R R' /\ agree (length h) D D' /\ same_types h h' /\
  (forall b n, h !! b = Some n -> k < R b -> h' !! b = Some n).

(** What an operation started in [h] guarantees of its final store [h']
    and of the pointer [q] it returns: membership [d], rank at most [k]. *)
Definition post (h : heap) (R : nat -> nat) (D : nat -> bool)
    (d : bool) (k : nat) (h' : heap) (q : ptr) : Prop :=
  exists R' D',
    Inv h' R' D' /\ evolve k h R D h' R' D' /\
    ptr_ok h' q /\ den_ptr D' q = d /\ rank_ptr R' q <= k.

End Invariant.

(** Ranks and memberships of a store built by the constructors, read off
    the unfolding of each node. *)
Fixpoint tree_rank (t : tree) : nat :=
  match t with
  | TAbsent | TPrim _ => 2
  | TOp n l r => rank_op (type n) (tree_rank l) (tree_rank r)
  end.

Definition rank_of (h : heap) (a : nat) : nat :=
  match unfold (S a) h (Some a) with
  | Some t => tree_rank t
  | None => 2
  end.

Definition den_of (inside : solid) (p : Vector3d) (h : heap) (a : nat)
    : bool :=
  match unfold (S a) h (Some a) with
  | Some t => member inside t p
  | None => false
  end.

(** Every coordinate of the box is a finite [double]. *)
Definition finite_vec (v : Vector3d) : Prop :=
  (- DBL_MAX <= vx v <= DBL_MAX /\ - DBL_MAX <= vy v <= DBL_MAX /\
   - DBL_MAX <= vz v <= DBL_MAX)%Z.

Definition finite_box (b : BoundingBox) : Prop :=
  finite_vec (bmin b) /\ finite_vec (bmax b).

(** No rule of [normalize_tail] applies at the node [n] of [h]. *)
Definition no_rule (h : heap) (n : CSGTerm) : Prop :=
  type n = TYPE_UNION \/ type n = TYPE_PRIMITIVE \/
  exists rn ln,
    deref h (right n) = Ok rn /\ type rn = TYPE_PRIMITIVE /\
    deref h (left n) = Ok ln /\ type ln <> TYPE_UNION /\
    ~ (type n = TYPE_INTERSECTION /\ type ln = TYPE_DIFFERENCE).

(** ** Finished nodes *)

(** [F] marks the nodes [normalize] has returned.  A finished intersection
    or difference has a primitive on the right and a finished node other
    than a union on the left; nothing is asked of a finished union. *)
Definition Fp (F : nat -> bool) (q : ptr) : Prop :=
  match q with Some c => F c = true | None => True end.

Definition not_union (h : heap) (q : ptr) : Prop :=
  match q with
  | Some c => forall n, h !! c = Some n -> type n <> TYPE_UNION
  | None => True
  end.

Definition fin_ok (h : heap) (F : nat -> bool) (n : CSGTerm) : Prop :=
  match type n with
  | TYPE_PRIMITIVE | TYPE_UNION => True
  | _ =>
      exists l r ln rn,
        left n = Some l /\ right n = Some r /\
        h !! l = Some ln /\ h !! r = Some rn /\
        type rn = TYPE_PRIMITIVE /\ type ln <> TYPE_UNION /\ F l = true
  end.

Definition FInv (h : heap) (F : nat -> bool) : Prop :=
  forall c, F c = true -> exists n, h !! c = Some n /\ fin_ok h F n.

Definition fadd (F : nat -> bool) (a : nat) : nat -> bool :=
  fun c => if decide (c = a) then true else F c.

(** What an operation on the term [a] of rank [k] guarantees about the
    finished nodes: the old ones stay finished, a newly finished node is
    new or of rank at most [k]; the result is finished when [fin] holds,
    and it is finished and not a union when [a] was. *)
Definition fpost (fin : Prop) (h : heap) (R : nat -> nat) (F : nat -> bool)
    (k : nat) (a : ptr) (h' : heap) (q : ptr) : Prop :=
  exists F',
    FInv h' F' /\
    (forall c, F c = true -> F' c = true) /\
    (forall c, F' c = true -> F c = true \/ length h <= c \/ R c <= k) /\
    (fin -> Fp F' q) /\
    (Fp F a -> not_union h a -> Fp F' q /\ not_union h' q).

(** ** Concrete stores *)

Module Examples.

Definition unitBox (lo hi : Z) : BoundingBox :=
  mkBox (mkVec lo lo lo) (mkVec hi hi hi).

(** A cube-shaped solid with corners [lo] and [hi] on the diagonal. *)
Definition cube (i : nat) (lo hi : Z) : option PolySet :=
  Some (mkPolySet i (unitBox lo hi)).

(** A solid that fills the box its primitive caches. *)
Definition box_solid : solid :=
  fun ps mx v => contains (initBoundingBox_prim mx (ps_bbox ps)) v.

Definition store_of (r : res (list CSGTerm * option nat)) : list CSGTerm :=
  match r with Ok (h, _) => h | _ => [] end.

Definition root_of (r : res (list CSGTerm * option nat)) : option nat :=
  match r with Ok (_, q) => q | _ => None end.

Definition tree_of (h : list CSGTerm) (q : option nat) : tree :=
  match unfold (S (length h)) h q with Some t => t | None => TAbsent end.

(** [(a * (b - c)) * p], four unit cubes in the same place. *)
Definition build_abcp : res (list CSGTerm * option nat) :=
  '(h, a) ← newPrimitive [] (cube 0 0 1) Identity noColor "a";
  '(h, b) ← newPrimitive h (cube 1 0 1) Identity noColor "b";
  '(h, c) ← newPrimitive h (cube 2 0 1) Identity noColor "c";
  '(h, p) ← newPrimitive h (cube 3 0 1) Identity noColor "p";
  '(h, d) ← createCSGTerm h TYPE_DIFFERENCE b c;
  '(h, i) ← createCSGTerm h TYPE_INTERSECTION a d;
  createCSGTerm h TYPE_INTERSECTION i p.

Definition abcp_store : list CSGTerm := Eval vm_compute in store_of build_abcp.
Definition abcp_root : option nat := Eval vm_compute in root_of build_abcp.
Definition abcp_tree : tree := Eval vm_compute in tree_of abcp_store abcp_root.

(** The result of normalising it once, and twice. *)
Definition abcp_once : res (list CSGTerm * option nat) :=
  Eval vm_compute in normalize 20 abcp_store abcp_root.
Definition abcp_twice : res (list CSGTerm * option nat) :=
  Eval vm_compute in
    normalize 20 (store_of abcp_once) (root_of abcp_once).

(** [(x - y) * p], three unit cubes in the same place. *)
Definition build_xyp : res (list CSGTerm * option nat) :=
  '(h, x) ← newPrimitive [] (cube 0 0 1) Identity noColor "x";
  '(h, y) ← newPrimitive h (cube 1 0 1) Identity noColor "y";
  '(h, p) ← newPrimitive h (cube 2 0 1) Identity noColor "p";
  '(h, d) ← createCSGTerm h TYPE_DIFFERENCE x y;
  createCSGTerm h TYPE_INTERSECTION d p.

Definition xyp_store : list CSGTerm := Eval vm_compute in store_of build_xyp.

(** Two cubes apart from each other. *)
Definition build_apart : res (list CSGTerm * option nat) :=
  '(h, a) ← newPrimitive [] (cube 0 0 1) Identity noColor "a";
  newPrimitive h (cube 1 2 3) Identity noColor "b".

Definition apart_store : list CSGTerm :=
  Eval vm_compute in store_of build_apart.

(** [(x * (y + z)) - p]: [x] meets the box of [y + z], but neither [y] nor
    [z]. *)
Definition build_xyzp : res (list CSGTerm * option nat) :=
  '(h, x) ← newPrimitive [] (cube 0 2 3) Identity noColor "x";
  '(h, y) ← newPrimitive h (cube 1 0 1) Identity noColor "y";
  '(h, z) ← newPrimitive h (cube 2 4 5) Identity noColor "z";
  '(h, p) ← newPrimitive h (cube 3 2 3) Identity noColor "p";
  '(h, u) ← createCSGTerm h TYPE_UNION y z;
  '(h, i) ← createCSGTerm h TYPE_INTERSECTION x u;
  createCSGTerm h TYPE_DIFFERENCE i p.

Definition xyzp_store : list CSGTerm := Eval vm_compute in store_of build_xyzp.
Definition xyzp_root : option nat := Eval vm_compute in root_of build_xyzp.
Definition xyzp_tree : tree := Eval vm_compute in tree_of xyzp_store xyzp_root.

(** [A + (B - C)], the tree of the flattening scenario. *)
Definition build_scenario : res (list CSGTerm * option nat) :=
  '(h, a) ← newPrimitive [] (cube 0 0 1) Identity noColor "A";
  '(h, b) ← newPrimitive h (cube 1 0 1) Identity noColor "B";
  '(h, c) ← newPrimitive h (cube 2 0 1) Identity noColor "C";
  '(h, d) ← createCSGTerm h TYPE_DIFFERENCE b c;
  createCSGTerm h TYPE_UNION a d.

Definition scenario_store : list CSGTerm :=
  Eval vm_compute in store_of build_scenario.
Definition scenario_root : option nat :=
  Eval vm_compute in root_of build_scenario.
Definition scenario_tree : tree :=
  Eval vm_compute in tree_of scenario_store scenario_root.

(** The chain of the bounding-box scenario: [A] and [B] are the unit cube,
    [C] is the cube from 2 to 3 and is subtracted. *)
Definition scenario_chain : CSGChain :=
  add (add (add emptyChain (cube 0 0 1) Identity noColor TYPE_UNION "A")
           (cube 1 0 1) Identity noColor TYPE_UNION "B")
      (cube 2 2 3) Identity noColor TYPE_DIFFERENCE "C".

(** An eighth of a turn about the z axis, scaled so that it stays
    integral: [(x, y, z)] goes to [(x - y, x + y, z)]. *)
Definition turn45 : Transform3d :=
  mkTransform 1 (-1) 0 0
              1 1 0 0
              0 0 1 0.

(** A chain of one record: the unit cube under [turn45], added as a
    union. *)
Definition turned_chain : CSGChain :=
  add emptyChain (cube 0 0 1) turn45 noColor TYPE_UNION "a".

(** [(a * (b - c)) * p]: [a], [b] and [p] are the cube from 0 to 4, and
    [c], the cube from 2 to 3, is a notch cut out of [b]. *)
Definition build_notch : res (list CSGTerm * option nat) :=
  '(h, a) ← newPrimitive [] (cube 0 0 4) Identity noColor "a";
  '(h, b) ← newPrimitive h (cube 1 0 4) Identity noColor "b";
  '(h, c) ← newPrimitive h (cube 2 2 3) Identity noColor "c";
  '(h, p) ← newPrimitive h (cube 3 0 4) Identity noColor "p";
  '(h, d) ← createCSGTerm h TYPE_DIFFERENCE b c;
  '(h, i) ← createCSGTerm h TYPE_INTERSECTION a d;
  createCSGTerm h TYPE_INTERSECTION i p.

Definition notch_store : list CSGTerm :=
  Eval vm_compute in store_of build_notch.
Definition notch_root : option nat := Eval vm_compute in root_of build_notch.
Definition notch_tree : tree :=
  Eval vm_compute in tree_of notch_store notch_root.

(** The result of normalising it, and the tree of the result. *)
Definition notch_once : res (list CSGTerm * option nat) :=
  Eval vm_compute in normalize 20 notch_store notch_root.
Definition notch_result : tree :=
  Eval vm_compute in tree_of (store_of notch_once) (root_of notch_once).

End Examples.

(** ** Further definitions: the dump of a chain, frames, boxes *)

(** ** The textual dump of a chain *)

(** The line feed the dump writes. *)
Definition newline : string := String (Ascii.ascii_of_nat 10) EmptyString.

(** The body of the loop of [CSGChain::dump] at index [i]: the sign of
    the record's type (a union record other than the first starts a new
    line), then its label. *)
Definition CSGChain_dump_body (c : CSGChain) (acc : string) (i : nat)
    : res string :=
  ty ← at_index (types c) i;
  let acc1 :=
    match ty with
    | TYPE_UNION =>
        (if decide (i <> 0) then acc +:+ newline else acc) +:+ "+"
    | TYPE_DIFFERENCE => acc +:+ " -"
    | TYPE_INTERSECTION => acc +:+ " *"
    | TYPE_PRIMITIVE => acc
    end in
  lbl ← at_index (labels c) i;
  Ok (acc1 +:+ lbl).

(** [CSGChain::dump()]: [i] runs from 0 to [types.size()]. *)
Definition CSGChain_dump (c : CSGChain) : res string :=
  s ← foldl (fun acc i => b ← acc; CSGChain_dump_body c b i)
            (Ok EmptyString) (seq 0 (length (types c)));
  Ok (s +:+ newline).

(** What [CSGChain::dump] writes for one record at position [i]. *)
Definition record_text (i : nat) (r : chain_record) : string :=
  match record_type r with
  | TYPE_UNION => (if decide (i <> 0) then newline else EmptyString) +:+ "+"
  | TYPE_DIFFERENCE => " -"
  | TYPE_INTERSECTION => " *"
  | TYPE_PRIMITIVE => EmptyString
  end +:+ r.2.

(** ** Stores without dangling pointers *)

(** Every child pointer is null or an address of the store. *)
Definition closed (h : heap) : Prop :=
  forall a n, h !! a = Some n -> ptr_ok h (left n) /\ ptr_ok h (right n).

(** What [normalize] leaves of a store: every node stays at its address
    with its type, polyset, label, box, matrix and colour (only [left] and
    [right] may have been assigned), a primitive is not touched at all,
    and no primitive is added. *)
Definition keeps_node (n n' : CSGTerm) : Prop :=
  type n' = type n /\ polyset n' = polyset n /\ label n' = label n /\
  bbox n' = bbox n /\ m n' = m n /\ color n' = color n /\
  (type n = TYPE_PRIMITIVE -> n' = n).

Definition keeps (h h' : heap) : Prop :=
  (forall b n, h !! b = Some n ->
     exists n', h' !! b = Some n' /\ keeps_node n n') /\
  (forall b n', h' !! b = Some n' -> type n' = TYPE_PRIMITIVE ->
     h !! b = Some n').

(** Every box of the store contains the point [c], and every operator
    node has both children. *)
Definition meets (c : Vector3d) (h : heap) : Prop :=
  forall a n, h !! a = Some n ->
    contains (bbox n) c = true /\
    (type n <> TYPE_PRIMITIVE ->
     exists l r, left n = Some l /\ right n = Some r /\
                 l < length h /\ r < length h).

(** A transform without rotation or shear: scaling along the axes (of
    either sign) and translation. *)
Definition axis_aligned (t : Transform3d) : Prop :=
  (m01 t = 0 /\ m02 t = 0 /\ m10 t = 0 /\ m12 t = 0 /\
   m20 t = 0 /\ m21 t = 0)%Z.

(** The box of all finite points. *)
Definition wholeBox : BoundingBox :=
  mkBox (mkVec (- DBL_MAX) (- DBL_MAX) (- DBL_MAX))
        (mkVec DBL_MAX DBL_MAX DBL_MAX).




(** ** The rewrite rules on expressions *)

(** The operators and primitives of a tree, without the store nodes of
    the operators. *)
Inductive expr : Type :=
| EAbsent
| EPrim (n : CSGTerm)
| EOp (ty : type_e) (l r : expr).

Fixpoint skeleton (t : tree) : expr :=
  match t with
  | TAbsent => EAbsent
  | TPrim n => EPrim n
  | TOp n l r => EOp (type n) (skeleton l) (skeleton r)
  end.

(** The nine rules as the comments of [normalize_tail] state them, in the
    order in which the code tries them: the rules on [x . (y . z)]
    first, the rules on [(x . y) . z] when none of those applies. *)
Definition rewrite_rule (e : expr) : option expr :=
  match e with
  | EOp ty x r =>
      match ty, r with
      (* 1.  x - (y + z) -> (x - y) - z *)
      | TYPE_DIFFERENCE, EOp TYPE_UNION y z =>
          Some (EOp TYPE_DIFFERENCE (EOp TYPE_DIFFERENCE x y) z)
      (* 2.  x * (y + z) -> (x * y) + (x * z) *)
      | TYPE_INTERSECTION, EOp TYPE_UNION y z =>
          Some (EOp TYPE_UNION (EOp TYPE_INTERSECTION x y)
                               (EOp TYPE_INTERSECTION x z))
      (* 3.  x - (y * z) -> (x - y) + (x - z) *)
      | TYPE_DIFFERENCE, EOp TYPE_INTERSECTION y z =>
          Some (EOp TYPE_UNION (EOp TYPE_DIFFERENCE x y)
                               (EOp TYPE_DIFFERENCE x z))
      (* 4.  x * (y * z) -> (x * y) * z *)
      | TYPE_INTERSECTION, EOp TYPE_INTERSECTION y z =>
          Some (EOp TYPE_INTERSECTION (EOp TYPE_INTERSECTION x y) z)
      (* 5.  x - (y - z) -> (x - y) + (x * z) *)
      | TYPE_DIFFERENCE, EOp TYPE_DIFFERENCE y z =>
          Some (EOp TYPE_UNION (EOp TYPE_DIFFERENCE x y)
                               (EOp TYPE_INTERSECTION x z))
      (* 6.  x * (y - z) -> (x * y) - z *)
      | TYPE_INTERSECTION, EOp TYPE_DIFFERENCE y z =>
          Some (EOp TYPE_DIFFERENCE (EOp TYPE_INTERSECTION x y) z)
      | _, z =>
          match ty, x with
          (* 7. (x - y) * z  -> (x * z) - y *)
          | TYPE_INTERSECTION, EOp TYPE_DIFFERENCE x' y' =>
              Some (EOp TYPE_DIFFERENCE (EOp TYPE_INTERSECTION x' z) y')
          (* 8. (x + y) - z  -> (x - z) + (y - z) *)
          | TYPE_DIFFERENCE, EOp TYPE_UNION x' y' =>
              Some (EOp TYPE_UNION (EOp TYPE_DIFFERENCE x' z)
                                   (EOp TYPE_DIFFERENCE y' z))
          (* 9. (x + y) * z  -> (x * z) + (y * z) *)
          | TYPE_INTERSECTION, EOp TYPE_UNION x' y' =>
              Some (EOp TYPE_UNION (EOp TYPE_INTERSECTION x' z)
                                   (EOp TYPE_INTERSECTION y' z))
          | _, _ => None
          end
      end
  | _ => None
  end.

(** ** Reachable nodes *)

(** The nodes a pointer leads to through [left] and [right]. *)
Inductive reach (h : heap) : ptr -> nat -> Prop :=
| reach_here a : reach h (Some a) a
| reach_left a n b :
    h !! a = Some n -> reach h (left n) b -> reach h (Some a) b
| reach_right a n b :
    h !! a = Some n -> reach h (right n) b -> reach h (Some a) b.

(** A set of addresses that holds every pointer written while a term is
    normalised: it is closed under [left] and [right], and every address
    allocated later belongs to it. *)
Definition in_set (S : nat -> Prop) (q : ptr) : Prop :=
  match q with Some a => S a | None => True end.

Definition closed_in (S : nat -> Prop) (h : heap) : Prop :=
  (forall a n, S a -> h !! a = Some n ->
     in_set S (left n) /\ in_set S (right n)) /\
  (forall b, length h <= b -> S b).

(** The nodes outside the set are the same in both stores. *)
Definition outside (S : nat -> Prop) (h h' : heap) : Prop :=
  forall b, ~ S b -> h' !! b = h !! b.

(** ** The range in which the integer coordinates are exact *)

(** The cached box of every primitive is finite. *)
Definition prims_finite (h : heap) : Prop :=
  forall a n, h !! a = Some n -> type n = TYPE_PRIMITIVE ->
    finite_box (bbox n).

(** The cached box of every node is finite. *)
Definition boxes_finite (h : heap) : Prop :=
  forall a n, h !! a = Some n -> finite_box (bbox n).

(** Every entry of the transform is a finite [double]. *)
Definition finite_transform (t : Transform3d) : Prop :=
  (Z.abs (m00 t) <= DBL_MAX /\ Z.abs (m01 t) <= DBL_MAX /\
   Z.abs (m02 t) <= DBL_MAX /\ Z.abs (m03 t) <= DBL_MAX /\
   Z.abs (m10 t) <= DBL_MAX /\ Z.abs (m11 t) <= DBL_MAX /\
   Z.abs (m12 t) <= DBL_MAX /\ Z.abs (m13 t) <= DBL_MAX /\
   Z.abs (m20 t) <= DBL_MAX /\ Z.abs (m21 t) <= DBL_MAX /\
   Z.abs (m22 t) <= DBL_MAX /\ Z.abs (m23 t) <= DBL_MAX)%Z.

(** [t * v] is computed without overflow: [t] and [v] are finite, and in
    every row the magnitudes of the three products and of the translation
    add up to a finite [double].  Then no product is infinite and no two
    partial sums are infinite with opposite signs, in whatever order the
    sum is taken: no coordinate of [t * v] is not a number, and [extend]
    takes every coordinate into account. *)
Definition no_overflow (t : Transform3d) (v : Vector3d) : Prop :=
  finite_transform t /\ finite_vec v /\
  (Z.abs (m00 t * vx v) + Z.abs (m01 t * vy v) + Z.abs (m02 t * vz v)
   + Z.abs (m03 t) <= DBL_MAX /\
   Z.abs (m10 t * vx v) + Z.abs (m11 t * vy v) + Z.abs (m12 t * vz v)
   + Z.abs (m13 t) <= DBL_MAX /\
   Z.abs (m20 t * vx v) + Z.abs (m21 t * vy v) + Z.abs (m22 t * vz v)
   + Z.abs (m23 t) <= DBL_MAX)%Z.

(** ** The box of a chain in the words of the spec *)

(** The eight corners of a box. *)
Definition corners (b : BoundingBox) : list Vector3d :=
  x ← [vx (bmin b); vx (bmax b)];
  y ← [vy (bmin b); vy (bmax b)];
  z ← [vz (bmin b); vz (bmax b)];
  [mkVec x y z].

(** Following the words of the spec: the transformed box of a solid, the
    axis-aligned box of the image of its box, which is the box of the
    images of the eight corners. *)
Definition spec_transformed_box (t : Transform3d) (b : BoundingBox)
    : BoundingBox :=
  foldl extend nullBox (apply t <$> corners b).

(** Following the words of the spec: the running box is extended to cover
    the transformed box of the record's solid. *)
Definition spec_extend_record (acc : BoundingBox) (r : chain_record)
    : BoundingBox :=
  match r.1.1.1.1 with
  | Some ps =>
      if isNull (ps_bbox ps) then acc
      else
        let tb := spec_transformed_box r.1.1.1.2 (ps_bbox ps) in
        extend (extend acc (bmin tb)) (bmax tb)
  | None => acc
  end.

(** Following the words of the spec: the box of a chain aggregates the
    transformed boxes of the records that are not tagged as a
    difference. *)
Definition spec_chain_box (c : CSGChain) : BoundingBox :=
  foldl spec_extend_record nullBox (filter contributes (records c)).

(** * Proofs *)

(** ** Arithmetic of ranks *)

Lemma pow2_ge4 y : 2 <= y -> 4 <= 2 ^ y.
Proof. intros H. change 4 with (2 ^ 2). apply Nat.pow_le_mono_r; lia. Qed.

Lemma pow2_gt y : y < 2 ^ y.
Proof. apply Nat.pow_gt_lin_r. lia. Qed.

Lemma pow2_mono a b : a <= b -> 2 ^ a <= 2 ^ b.
Proof. intros. apply Nat.pow_le_mono_r; lia. Qed.

Lemma pow_prod_ge a b : 2 <= a -> 2 <= b -> 2 ^ a * 2 ^ b <= 2 ^ (a * 2 ^ b).
Proof.
  intros Ha Hb. rewrite <- Nat.pow_add_r. apply pow2_mono.
  pose proof (pow2_gt b). nia.
Qed.

Lemma rank_op_mono ty x x' y y' :
  x <= x' -> y <= y' -> rank_op ty x y <= rank_op ty x' y'.
Proof.
  intros Hx Hy. pose proof (pow2_mono y y' Hy).
  destruct ty; simpl; nia.
Qed.

Lemma rank_op_gt ty x y :
  ty <> TYPE_PRIMITIVE -> 2 <= x -> 2 <= y ->
  x < rank_op ty x y /\ y < rank_op ty x y.
Proof.
  intros Hty Hx Hy. pose proof (pow2_ge4 y Hy). pose proof (pow2_gt y).
  destruct ty; simpl; [done | nia ..].
Qed.

Lemma rank_op_ge2 ty x y : 2 <= x -> 2 <= y -> 2 <= rank_op ty x y.
Proof.
  intros Hx Hy. destruct (decide (ty = TYPE_PRIMITIVE)) as [->|Hty].
  - simpl. lia.
  - pose proof (rank_op_gt ty x y Hty Hx Hy). lia.
Qed.

Section Rules.

Variables x y z : nat.
Hypotheses (Hx : 2 <= x) (Hy : 2 <= y) (Hz : 2 <= z).

Let U := rank_op TYPE_UNION.
Let I := rank_op TYPE_INTERSECTION.
Let D := rank_op TYPE_DIFFERENCE.

Ltac pows :=
  pose proof (pow2_ge4 y Hy); pose proof (pow2_ge4 z Hz);
  pose proof (pow2_gt y); pose proof (pow2_gt z);
  assert (8 <= x * 2 ^ y) by nia; assert (8 <= x * 2 ^ z) by nia;
  assert (16 <= 2 ^ y * 2 ^ z) by nia;
  assert (8 * 2 ^ z <= x * 2 ^ y * 2 ^ z) by nia;
  assert (8 * 2 ^ y <= x * 2 ^ y * 2 ^ z) by nia.

Lemma rule1_rank : D (D x y) z < D x (U y z).
Proof.
  unfold D, U; simpl. pows.
  replace (y + z + 1) with (S (y + z)) by lia.
  rewrite Nat.pow_succ_r', Nat.pow_add_r. nia.
Qed.

Lemma rule2_rank : U (I x y) (I x z) < I x (U y z).
Proof.
  unfold I, U; simpl. pows.
  replace (y + z + 1) with (S (y + z)) by lia.
  rewrite Nat.pow_succ_r', Nat.pow_add_r. nia.
Qed.

Lemma rule3_rank : U (D x y) (D x z) < D x (I y z).
Proof.
  unfold D, I, U; simpl. pows.
  pose proof (pow_prod_ge y z Hy Hz). nia.
Qed.

Lemma rule4_rank : I (I x y) z < I x (I y z).
Proof.
  unfold I; simpl. pows.
  assert (2 ^ (S (y + z)) <= 2 ^ (y * 2 ^ z)) by (apply pow2_mono; nia).
  rewrite Nat.pow_succ_r', Nat.pow_add_r in *. nia.
Qed.

Lemma rule5_rank : U (D x y) (I x z) < D x (D y z).
Proof.
  unfold D, I, U; simpl. pows.
  pose proof (pow_prod_ge y z Hy Hz).
  replace (y * 2 ^ z + 1) with (S (y * 2 ^ z)) by lia.
  rewrite Nat.pow_succ_r'. nia.
Qed.

Lemma rule6_rank : D (I x y) z < I x (D y z).
Proof.
  unfold D, I; simpl. pows.
  pose proof (pow_prod_ge y z Hy Hz).
  replace (y * 2 ^ z + 1) with (S (y * 2 ^ z)) by lia.
  rewrite Nat.pow_succ_r'. nia.
Qed.

Lemma rule7_rank : D (I x z) y < I (D x y) z.
Proof. unfold D, I; simpl. pows. nia. Qed.

Lemma rule8_rank : U (D x z) (D y z) < D (U x y) z.
Proof. unfold D, U; simpl. pows. nia. Qed.

Lemma rule9_rank : U (I x z) (I y z) < I (U x y) z.
Proof. unfold I, U; simpl. pows. nia. Qed.

End Rules.

Arguments rank_op : simpl never.

(** ** Boxes *)

Lemma contains_spec b v :
  contains b v = true <->
  (vx (bmin b) <= vx v <= vx (bmax b) /\
   vy (bmin b) <= vy v <= vy (bmax b) /\
   vz (bmin b) <= vz v <= vz (bmax b))%Z.
Proof.
  unfold contains. rewrite !andb_true_iff, !Z.leb_le. tauto.
Qed.

Lemma isNull_spec b :
  isNull b = true <->
  (vx (bmax b) < vx (bmin b) \/ vy (bmax b) < vy (bmin b) \/
   vz (bmax b) < vz (bmin b))%Z.
Proof.
  unfold isNull. rewrite !orb_true_iff, !Z.ltb_lt. tauto.
Qed.

Lemma apply_Identity v : apply Identity v = v.
Proof. destruct v; unfold apply; simpl. f_equal; lia. Qed.

(** A null overlap box: no point lies in both boxes. *)
Lemma overlap_null_disjoint lb rb v :
  isNull (overlap lb rb) = true ->
  contains lb v = true -> contains rb v = true -> False.
Proof.
  rewrite isNull_spec, !contains_spec. unfold overlap; simpl.
  intros [H|[H|H]] (? & ? & ?) (? & ? & ?); lia.
Qed.

(** Two [extend]s of the null box enclose the box spanned by the two
    points. *)
Lemma contains_extend2 v1 v2 v :
  contains (mkBox (cwise_min v1 v2) (cwise_max v1 v2)) v = true ->
  contains (extend (extend nullBox v1) v2) v = true.
Proof.
  unfold nullBox. generalize DBL_MAX. intros M.
  rewrite !contains_spec. simpl. intros (? & ? & ?). split_and!; lia.
Qed.

(** The box an operator node caches encloses what the boxes of its
    children allow. *)
Lemma initBoundingBox_op_sound ty lb rb (dl dr : bool) v :
  (dl = true -> contains lb v = true) ->
  (dr = true -> contains rb v = true) ->
  combine ty dl dr = true ->
  contains (initBoundingBox_op ty Identity lb rb) v = true.
Proof.
  intros Hl Hr Hc.
  destruct ty; simpl in Hc; [done | | |];
    unfold initBoundingBox_op; rewrite !apply_Identity;
    apply contains_extend2.
  - apply orb_true_iff in Hc.
    destruct Hc as [Hd|Hd];
      [specialize (Hl Hd); revert Hl | specialize (Hr Hd); revert Hr];
      rewrite !contains_spec; simpl; intros (? & ? & ?); split_and!; lia.
  - apply andb_true_iff in Hc as [H1 H2].
    specialize (Hl H1). specialize (Hr H2). revert Hl Hr.
    rewrite !contains_spec; simpl.
    intros (? & ? & ?) (? & ? & ?); split_and!; lia.
  - apply andb_true_iff in Hc as [H1 H2].
    specialize (Hl H1). revert Hl.
    rewrite !contains_spec; simpl.
    intros (? & ? & ?); split_and!; lia.
Qed.

(** ** Stores *)

Lemma deref_Some h a n : h !! a = Some n -> deref h (Some a) = Ok n.
Proof. intros H. unfold deref. by rewrite H. Qed.

Lemma deref_Ok h q n :
  deref h q = Ok n -> exists a, q = Some a /\ h !! a = Some n.
Proof.
  destruct q as [a|]; simpl; [|done].
  destruct (h !! a) eqn:E; [|done]. intros [= ->]. eauto.
Qed.

Lemma deref_no_OutOfFuel h q : deref h q = OutOfFuel -> False.
Proof. destruct q as [a|]; simpl; [|done]. by destruct (h !! a). Qed.

Arguments deref : simpl never.

Lemma ptr_ok_lookup h a : ptr_ok h (Some a) -> exists n, h !! a = Some n.
Proof. simpl. intros H. by apply lookup_lt_is_Some_2 in H as [n ?]; eauto. Qed.

Lemma ptr_ok_mono h h' q : length h <= length h' -> ptr_ok h q -> ptr_ok h' q.
Proof. destruct q; simpl; lia. Qed.

Lemma same_types_refl h : same_types h h.
Proof. intros b n H. eauto. Qed.

Lemma same_types_trans h1 h2 h3 :
  same_types h1 h2 -> same_types h2 h3 -> same_types h1 h3.
Proof.
  intros H12 H23 b n Hb.
  destruct (H12 _ _ Hb) as (n2 & Hb2 & E2).
  destruct (H23 _ _ Hb2) as (n3 & Hb3 & E3).
  exists n3. split; [done | congruence].
Qed.

Lemma same_types_length h h' : same_types h h' -> length h <= length h'.
Proof.
  intros H. destruct (decide (length h <= length h')) as [|Hn]; [done|].
  assert (Hlt : length h' < length h) by lia.
  assert (Hl : length h - 1 < length h) by lia.
  apply lookup_lt_is_Some_2 in Hl as [n Hn'].
  destruct (H _ _ Hn') as (n' & Hn'' & _).
  apply lookup_lt_Some in Hn''. lia.
Qed.

Lemma same_types_app h n : same_types h (h ++ [n]).
Proof.
  intros b nb Hb. exists nb. split; [|done].
  rewrite lookup_app_l; [done | by eapply lookup_lt_Some].
Qed.

Lemma agree_refl {A} k (f : nat -> A) : agree k f f.
Proof. by intros a _. Qed.

Lemma agree_trans {A} k k' (f g i : nat -> A) :
  k <= k' -> agree k f g -> agree k' g i -> agree k f i.
Proof. intros Hk H1 H2 a Ha. rewrite H1 by done. apply H2. lia. Qed.

Lemma rank_ptr_agree h R R' q :
  ptr_ok h q -> agree (length h) R R' -> rank_ptr R' q = rank_ptr R q.
Proof. destruct q as [a|]; simpl; [|done]. intros Ha H. by rewrite H. Qed.

Lemma den_ptr_agree h D D' q :
  ptr_ok h q -> agree (length h) D D' -> den_ptr D' q = den_ptr D q.
Proof. destruct q as [a|]; simpl; [|done]. intros Ha H. by rewrite H. Qed.

Section InvariantFacts.

Variable inside : solid.
Variable p : Vector3d.

Local Abbreviation Inv := (Inv inside p).
Local Abbreviation node_ok := (node_ok inside p).
Local Abbreviation post := (post inside p).

Lemma rank_ptr_ge2 h R D q : Inv h R D -> ptr_ok h q -> 2 <= rank_ptr R q.
Proof.
  intros HI Hq. destruct q as [a|]; simpl; [|done].
  destruct (ptr_ok_lookup _ _ Hq) as [n Hn]. by destruct (HI _ _ Hn).
Qed.

Lemma den_ptr_sound h R D a n :
  Inv h R D -> h !! a = Some n -> D a = true -> contains (bbox n) p = true.
Proof. intros HI Hn. by destruct (HI _ _ Hn) as (_ & ? & _). Qed.

(** A node of the store that is not touched stays valid when the store
    grows and the ghost maps are extended. *)
Lemma node_ok_ext h R D h' R' D' b n :
  node_ok h R D b n -> b < length h -> length h <= length h' ->
  agree (length h) R R' -> agree (length h) D D' ->
  node_ok h' R' D' b n.
Proof.
  intros (H2 & Hs & Hn) Hb Hlen HR HD.
  unfold node_ok. rewrite <- (HR b), <- (HD b) by done.
  split; [done|]. split; [done|].
  destruct (type n); [done | ..];
    destruct Hn as (Hl & Hr & Hd & Hk);
    rewrite !(rank_ptr_agree h R R'), !(den_ptr_agree h D D') by done;
    split_and!; eauto using ptr_ok_mono.
Qed.

Lemma evolve_refl k h R D : evolve k h R D h R D.
Proof.
  split_and!; auto using agree_refl, same_types_refl.
Qed.

Lemma evolve_weaken k k' h R D h' R' D' :
  evolve k h R D h' R' D' -> k <= k' -> evolve k' h R D h' R' D'.
Proof.
  intros (HR & HD & HT & HF) Hk. split_and!; try done.
  intros b n Hb Hlt. apply HF; [done | lia].
Qed.

Lemma evolve_trans k h R D h1 R1 D1 h2 R2 D2 :
  evolve k h R D h1 R1 D1 -> evolve k h1 R1 D1 h2 R2 D2 ->
  evolve k h R D h2 R2 D2.
Proof.
  intros (HR & HD & HT & HF) (HR2 & HD2 & HT2 & HF2).
  pose proof (same_types_length _ _ HT).
  split_and!.
  - by eapply agree_trans.
  - by eapply agree_trans.
  - by eapply same_types_trans.
  - intros b n Hb Hlt. apply HF2; [by apply HF|].
    rewrite <- HR; [done | by eapply lookup_lt_Some].
Qed.

Lemma evolve_length k h R D h' R' D' :
  evolve k h R D h' R' D' -> length h <= length h'.
Proof. intros (_ & _ & HT & _). by apply same_types_length. Qed.

(** A store that only grows. *)
Lemma evolve_app k h R D n R' D' :
  agree (length h) R R' -> agree (length h) D D' ->
  evolve k h R D (h ++ [n]) R' D'.
Proof.
  intros HR HD. split_and!; try done.
  - apply same_types_app.
  - intros b nb Hb _. rewrite lookup_app_l; [done|].
    by eapply lookup_lt_Some.
Qed.

Lemma post_refl h R D q :
  Inv h R D -> ptr_ok h q -> post h R D (den_ptr D q) (rank_ptr R q) h q.
Proof.
  intros HI Hq. exists R, D. split_and!; auto using evolve_refl.
Qed.

Lemma post_weaken h R D d k k' h' q :
  post h R D d k h' q -> k <= k' -> post h R D d k' h' q.
Proof.
  intros (R' & D' & ? & ? & ? & ? & ?) Hk.
  exists R', D'. split_and!; eauto using evolve_weaken. lia.
Qed.

Lemma post_trans h R D h1 R1 D1 d k h2 q :
  evolve k h R D h1 R1 D1 ->
  post h1 R1 D1 d k h2 q -> post h R D d k h2 q.
Proof.
  intros HE (R2 & D2 & HI & HE2 & Hq & Hd & Hk).
  exists R2, D2. split_and!; eauto using evolve_trans.
Qed.

(** Allocating an operator node over two valid children. *)
Lemma Inv_alloc_op h R D ty l r ln rn :
  Inv h R D -> ty <> TYPE_PRIMITIVE ->
  h !! l = Some ln -> h !! r = Some rn ->
  let n := mkCSGTerm ty None EmptyString (Some l) (Some r)
             (initBoundingBox_op ty Identity (bbox ln) (bbox rn))
             Identity noColor in
  post h R D (combine ty (D l) (D r)) (rank_op ty (R l) (R r))
       (h ++ [n]) (Some (length h)).
Proof.
  intros HI Hty Hl Hr n.
  set (a := length h).
  exists (fun b => if decide (b = a) then rank_op ty (R l) (R r) else R b),
         (fun b => if decide (b = a) then combine ty (D l) (D r) else D b).
  assert (Hla : l < a) by (by eapply lookup_lt_Some).
  assert (Hra : r < a) by (by eapply lookup_lt_Some).
  assert (HaR : agree a R
    (fun b => if decide (b = a) then rank_op ty (R l) (R r) else R b)).
  { intros b Hb. case_decide; [lia | done]. }
  assert (HaD : agree a D
    (fun b => if decide (b = a) then combine ty (D l) (D r) else D b)).
  { intros b Hb. case_decide; [lia | done]. }
  split_and!; [|by apply evolve_app|..].
  - intros b nb Hb.
    destruct (decide (b < a)) as [Hlt|Hge].
    + rewrite lookup_app_l in Hb by done.
      eapply node_ok_ext; eauto. rewrite length_app. simpl. lia.
    + assert (b = a) as ->.
      { apply lookup_lt_Some in Hb. rewrite length_app in Hb.
        simpl in Hb. unfold a in *. lia. }
      unfold a in Hb. rewrite list_lookup_middle in Hb by done.
      injection Hb as <-. unfold node_ok.
      rewrite !decide_True by done.
      pose proof (HI _ _ Hl) as (HlR & HlS & _).
      pose proof (HI _ _ Hr) as (HrR & HrS & _).
      split; [by apply rank_op_ge2|].
      split; [intros Hc; eapply initBoundingBox_op_sound; eauto|].
      assert (Hok : ptr_ok (h ++ [n]) (Some l) /\ ptr_ok (h ++ [n]) (Some r)).
      { simpl. rewrite length_app. simpl. fold a. lia. }
      destruct ty; [done | ..]; simpl;
        rewrite !decide_False by lia; split_and!; try apply Hok; done.
  - simpl. rewrite length_app. simpl. lia.
  - simpl. by rewrite decide_True.
  - simpl. by rewrite decide_True.
Qed.

Lemma createCSGTerm_spec h R D ty l r :
  Inv h R D -> ty <> TYPE_PRIMITIVE -> ptr_ok h l -> ptr_ok h r ->
  exists h' q,
    createCSGTerm h ty l r = Ok (h', q) /\
    post h R D (combine ty (den_ptr D l) (den_ptr D r))
         (rank_op ty (rank_ptr R l) (rank_ptr R r)) h' q.
Proof.
  intros HI Hty Hl Hr.
  pose proof (rank_ptr_ge2 _ _ _ _ HI Hl) as HRl.
  pose proof (rank_ptr_ge2 _ _ _ _ HI Hr) as HRr.
  pose proof (rank_op_gt ty _ _ Hty HRl HRr) as [Hgl Hgr].
  assert (Hret : forall q, ptr_ok h q ->
            den_ptr D q = combine ty (den_ptr D l) (den_ptr D r) ->
            rank_ptr R q <= rank_op ty (rank_ptr R l) (rank_ptr R r) ->
            post h R D (combine ty (den_ptr D l) (den_ptr D r))
              (rank_op ty (rank_ptr R l) (rank_ptr R r)) h q).
  { intros q Hq <- Hk. eapply post_weaken; [by apply post_refl | done]. }
  destruct r as [r|].
  2:{ destruct ty; [done | ..]; simpl; eexists _, _; (split; [done|]);
      apply Hret; simpl in *; try done; try lia;
      by rewrite ?orb_false_r, ?andb_false_r, ?andb_true_r. }
  destruct l as [l|].
  2:{ destruct ty; [done | ..]; simpl; eexists _, _; (split; [done|]);
      apply Hret; simpl in *; try done; lia. }
  destruct (ptr_ok_lookup _ _ Hl) as [ln Hln].
  destruct (ptr_ok_lookup _ _ Hr) as [rn Hrn].
  assert (Hdis : isNull (overlap (bbox ln) (bbox rn)) = true ->
            D l = true -> D r = true -> False).
  { intros Hnull Hdl Hdr. eapply overlap_null_disjoint; [done | |].
    - eapply den_ptr_sound; eauto.
    - eapply den_ptr_sound; eauto. }
  assert (Hnew : exists h' q, newOperator h ty (Some l) (Some r) = Ok (h', q) /\
            post h R D (combine ty (D l) (D r))
              (rank_op ty (R l) (R r)) h' q).
  { eexists _, _. split.
    - unfold newOperator, initBoundingBox.
      rewrite (deref_Some _ _ _ Hln), (deref_Some _ _ _ Hrn).
      by destruct ty.
    - by apply Inv_alloc_op. }
  unfold createCSGTerm.
  rewrite (deref_Some _ _ _ Hln), (deref_Some _ _ _ Hrn). simpl.
  destruct ty; [done | done | |].
  - destruct (isNull _) eqn:Hnull; [|done].
    eexists _, _. split; [done|]. apply Hret; simpl in *; [done | | lia].
    destruct (D l) eqn:?, (D r) eqn:?; try done. by destruct Hdis.
  - destruct (isNull _) eqn:Hnull; [|done].
    eexists _, _. split; [done|]. apply Hret; simpl in *; [done | | lia].
    destruct (D l) eqn:?, (D r) eqn:?; try done. by destruct Hdis.
Qed.

End InvariantFacts.

Section TailFacts.

Variable inside : solid.
Variable p : Vector3d.

Local Abbreviation Inv := (Inv inside p).
Local Abbreviation node_ok := (node_ok inside p).
Local Abbreviation post := (post inside p).

Lemma create_left_spec h R D t t1 a b c :
  Inv h R D -> t <> TYPE_PRIMITIVE -> t1 <> TYPE_PRIMITIVE ->
  ptr_ok h a -> ptr_ok h b -> ptr_ok h c ->
  exists h' q,
    create_left h t t1 a b c = Ok (h', q, true) /\
    post h R D
      (combine t (combine t1 (den_ptr D a) (den_ptr D b)) (den_ptr D c))
      (rank_op t (rank_op t1 (rank_ptr R a) (rank_ptr R b)) (rank_ptr R c))
      h' q.
Proof.
  intros HI Ht Ht1 Ha Hb Hc.
  pose proof (rank_ptr_ge2 _ _ _ _ _ _ HI Ha) as HRa.
  pose proof (rank_ptr_ge2 _ _ _ _ _ _ HI Hb) as HRb.
  pose proof (rank_ptr_ge2 _ _ _ _ _ _ HI Hc) as HRc.
  destruct (createCSGTerm_spec inside p h R D t1 a b HI Ht1 Ha Hb)
    as (h1 & u & E1 & R1 & D1 & HI1 & HE1 & Hu & Hdu & Hku).
  pose proof (evolve_length _ _ _ _ _ _ _ HE1) as Hlen.
  pose proof HE1 as (HR1 & HD1 & _).
  assert (Hc1 : ptr_ok h1 c) by eauto using ptr_ok_mono.
  destruct (createCSGTerm_spec inside p h1 R1 D1 t u c HI1 Ht Hu Hc1)
    as (h2 & w & E2 & HP).
  exists h2, w. split.
  - unfold create_left. rewrite E1. simpl. rewrite E2. done.
  - rewrite Hdu, (den_ptr_agree h D D1 c) in HP by done.
    rewrite (rank_ptr_agree h R R1 c) in HP by done.
    pose proof (rank_op_ge2 t1 _ _ HRa HRb) as H1.
    pose proof (rank_op_gt t _ _ Ht H1 HRc) as [Hg _].
    eapply post_trans; [eapply evolve_weaken; [exact HE1 | lia]|].
    eapply post_weaken; [exact HP|]. by apply rank_op_mono.
Qed.

Lemma create_both_spec h R D t t1 t2 a b c d :
  Inv h R D -> t <> TYPE_PRIMITIVE -> t1 <> TYPE_PRIMITIVE ->
  t2 <> TYPE_PRIMITIVE ->
  ptr_ok h a -> ptr_ok h b -> ptr_ok h c -> ptr_ok h d ->
  exists h' q,
    create_both h t t1 t2 a b c d = Ok (h', q, true) /\
    post h R D
      (combine t (combine t1 (den_ptr D a) (den_ptr D b))
                 (combine t2 (den_ptr D c) (den_ptr D d)))
      (rank_op t (rank_op t1 (rank_ptr R a) (rank_ptr R b))
                 (rank_op t2 (rank_ptr R c) (rank_ptr R d)))
      h' q.
Proof.
  intros HI Ht Ht1 Ht2 Ha Hb Hc Hd.
  pose proof (rank_ptr_ge2 _ _ _ _ _ _ HI Ha) as HRa.
  pose proof (rank_ptr_ge2 _ _ _ _ _ _ HI Hb) as HRb.
  pose proof (rank_ptr_ge2 _ _ _ _ _ _ HI Hc) as HRc.
  pose proof (rank_ptr_ge2 _ _ _ _ _ _ HI Hd) as HRd.
  destruct (createCSGTerm_spec inside p h R D t1 a b HI Ht1 Ha Hb)
    as (h1 & u & E1 & R1 & D1 & HI1 & HE1 & Hu & Hdu & Hku).
  pose proof (evolve_length _ _ _ _ _ _ _ HE1) as Hlen1.
  pose proof HE1 as (HR1 & HD1 & _).
  assert (Hc1 : ptr_ok h1 c) by eauto using ptr_ok_mono.
  assert (Hd1 : ptr_ok h1 d) by eauto using ptr_ok_mono.
  destruct (createCSGTerm_spec inside p h1 R1 D1 t2 c d HI1 Ht2 Hc1 Hd1)
    as (h2 & v & E2 & R2 & D2 & HI2 & HE2 & Hv & Hdv & Hkv).
  pose proof (evolve_length _ _ _ _ _ _ _ HE2) as Hlen2.
  pose proof HE2 as (HR2 & HD2 & _).
  assert (Hu2 : ptr_ok h2 u) by eauto using ptr_ok_mono.
  destruct (createCSGTerm_spec inside p h2 R2 D2 t u v HI2 Ht Hu2 Hv)
    as (h3 & w & E3 & HP).
  exists h3, w. split.
  - unfold create_both. rewrite E1. simpl. rewrite E2. simpl.
    rewrite E3. done.
  - rewrite (den_ptr_agree h1 D1 D2 u), Hdu, Hdv in HP by done.
    rewrite (den_ptr_agree h D D1 c), (den_ptr_agree h D D1 d) in HP by done.
    rewrite (rank_ptr_agree h1 R1 R2 u) in HP by done.
    rewrite (rank_ptr_agree h R R1 c), (rank_ptr_agree h R R1 d)
      in Hkv, HE2 by done.
    pose proof (rank_op_ge2 t1 _ _ HRa HRb) as H1.
    pose proof (rank_op_ge2 t2 _ _ HRc HRd) as H2.
    pose proof (rank_op_gt t _ _ Ht H1 H2) as [Hg1 Hg2].
    eapply post_trans; [eapply evolve_weaken; [exact HE1 | lia]|].
    eapply post_trans; [eapply evolve_weaken; [exact HE2 | lia]|].
    eapply post_weaken; [exact HP|]. by apply rank_op_mono.
Qed.

(** One call of [normalize_tail] on a valid store: it dereferences null,
    or no rule applies and nothing changes, or a rule applies and the new
    term has the same membership and a strictly smaller rank. *)
Lemma normalize_tail_spec h R D a n :
  Inv h R D -> h !! a = Some n ->
  normalize_tail h (Some a) = Fault \/
  (normalize_tail h (Some a) = Ok (h, Some a, false) /\ no_rule h n) \/
  (exists h' q k,
     normalize_tail h (Some a) = Ok (h', q, true) /\
     post h R D (D a) k h' q /\ k < R a).
Proof.
  intros HI Hn. unfold normalize_tail.
  rewrite (deref_Some _ _ _ Hn). simpl.
  pose proof (HI _ _ Hn) as (HRa & _ & Hok).
  destruct (type n) eqn:Hty.
  { right; left. split; [done|]. right; left; done. }
  { right; left. split; [done|]. left; done. }
  all: destruct Hok as (Hx & Hr & HDa & HKa).
  all: destruct (deref h (right n)) as [rt| |] eqn:Ert; simpl;
    [|by left|by destruct (deref_no_OutOfFuel _ _ Ert)].
  all: destruct (deref_Ok _ _ _ Ert) as (r & Er & Hrt).
  all: pose proof (HI _ _ Hrt) as (HRr & _ & Hokr).
  all: rewrite Er in HDa, HKa; cbn [rank_ptr den_ptr] in HDa, HKa.
  all: pose proof (rank_ptr_ge2 _ _ _ _ _ _ HI Hx) as HRx.
  all: destruct (type rt) eqn:Htr.
  all: try (destruct Hokr as (Hy & Hz & HDr & HKr);
            pose proof (rank_ptr_ge2 _ _ _ _ _ _ HI Hy) as HRy;
            pose proof (rank_ptr_ge2 _ _ _ _ _ _ HI Hz) as HRz;
            right; right).
  (* Part A *)
  2: destruct (create_both_spec h R D TYPE_UNION TYPE_INTERSECTION
        TYPE_INTERSECTION (left n) (left rt) (left n) (right rt))
        as (h' & q & E & HP); try done.
  3: destruct (create_left_spec h R D TYPE_INTERSECTION TYPE_INTERSECTION
        (left n) (left rt) (right rt)) as (h' & q & E & HP); try done.
  4: destruct (create_left_spec h R D TYPE_DIFFERENCE TYPE_INTERSECTION
        (left n) (left rt) (right rt)) as (h' & q & E & HP); try done.
  6: destruct (create_left_spec h R D TYPE_DIFFERENCE TYPE_DIFFERENCE
        (left n) (left rt) (right rt)) as (h' & q & E & HP); try done.
  7: destruct (create_both_spec h R D TYPE_UNION TYPE_DIFFERENCE
        TYPE_DIFFERENCE (left n) (left rt) (left n) (right rt))
        as (h' & q & E & HP); try done.
  8: destruct (create_both_spec h R D TYPE_UNION TYPE_DIFFERENCE
        TYPE_INTERSECTION (left n) (left rt) (left n) (right rt))
        as (h' & q & E & HP); try done.
  2-4, 6-8:
    (eexists h', q, _; split; [exact E|]; split;
     [ rewrite HDa, HDr; simpl;
       match goal with HP : post _ _ _ ?d _ _ _ |- post _ _ _ ?d' _ _ _ =>
         replace d' with d; [exact HP|] end;
       simpl; destruct (den_ptr D (left n)), (den_ptr D (left rt)),
         (den_ptr D (right rt)); done
     | eapply Nat.lt_le_trans; [|exact HKa];
       eapply Nat.lt_le_trans;
         [|apply rank_op_mono; [reflexivity | exact HKr]];
       first [ by apply rule1_rank | by apply rule2_rank
             | by apply rule3_rank | by apply rule4_rank
             | by apply rule5_rank | by apply rule6_rank ] ]).
  (* Part B *)
  all: destruct (deref h (left n)) as [lt| |] eqn:Elt; simpl;
    [|by left|by destruct (deref_no_OutOfFuel _ _ Elt)].
  all: destruct (deref_Ok _ _ _ Elt) as (l & El & Hlt).
  all: pose proof (HI _ _ Hlt) as (HRl & _ & Hokl).
  all: rewrite El in HDa, HKa; cbn [rank_ptr den_ptr] in HDa, HKa.
  all: assert (HRrr : 2 <= rank_ptr R (right n)) by (by rewrite Er).
  all: destruct (type lt) eqn:Htl.
  all: try (right; left; split; [done|]; right; right; exists rt, lt;
            rewrite Hty, Htl; split_and!; try done; by intros [? ?]).
  all: destruct Hokl as (Hy & Hz & HDl & HKl).
  all: pose proof (rank_ptr_ge2 _ _ _ _ _ _ HI Hy) as HRy.
  all: pose proof (rank_ptr_ge2 _ _ _ _ _ _ HI Hz) as HRz.
  all: right; right.
  1: destruct (create_both_spec h R D TYPE_UNION TYPE_INTERSECTION
        TYPE_INTERSECTION (left lt) (right n) (right lt) (right n))
        as (h' & q & E & HP); try done.
  2: destruct (create_left_spec h R D TYPE_DIFFERENCE TYPE_INTERSECTION
        (left lt) (right n) (right lt)) as (h' & q & E & HP); try done.
  3: destruct (create_both_spec h R D TYPE_UNION TYPE_DIFFERENCE
        TYPE_DIFFERENCE (left lt) (right n) (right lt) (right n))
        as (h' & q & E & HP); try done.
  all: eexists h', q, _; split; [exact E|]; split;
     [ rewrite HDa, HDl; simpl;
       match goal with HP : post _ _ _ ?d _ _ _ |- post _ _ _ ?d' _ _ _ =>
         replace d' with d; [exact HP|] end;
       rewrite Er; simpl; destruct (den_ptr D (left lt)),
         (den_ptr D (right lt)), (D r); done
     | eapply Nat.lt_le_trans; [|exact HKa];
       eapply Nat.lt_le_trans;
         [|apply rank_op_mono; [exact HKl | reflexivity]];
       rewrite ?Er in *; cbn [rank_ptr den_ptr] in *;
       first [ by apply rule7_rank | by apply rule8_rank
             | by apply rule9_rank ] ].
Qed.

End TailFacts.

(** ** Assignments to [term->left] and [term->right] *)

Lemma bind_Ok {A B} (c : res A) (f : A -> res B) r :
  c ≫= f = Ok r -> exists x, c = Ok x /\ f x = Ok r.
Proof. destruct c; simpl; [eauto | done..]. Qed.

Lemma CSGTerm_eta n :
  mkCSGTerm (type n) (polyset n) (label n) (left n) (right n) (bbox n)
            (m n) (color n) = n.
Proof. by destruct n. Qed.

Lemma length_setLeft h a l : length (setLeft h a l) = length h.
Proof. unfold setLeft. destruct (h !! a); [by rewrite length_insert|done]. Qed.

Lemma length_setRight h a r : length (setRight h a r) = length h.
Proof. unfold setRight. destruct (h !! a); [by rewrite length_insert|done]. Qed.

Lemma setLeft_lookup h a l n :
  h !! a = Some n ->
  setLeft h a l !! a =
    Some (mkCSGTerm (type n) (polyset n) (label n) l (right n) (bbox n)
            (m n) (color n)).
Proof.
  intros H. unfold setLeft. rewrite H.
  apply list_lookup_insert_eq. by eapply lookup_lt_Some.
Qed.

Lemma setRight_lookup h a r n :
  h !! a = Some n ->
  setRight h a r !! a =
    Some (mkCSGTerm (type n) (polyset n) (label n) (left n) r (bbox n)
            (m n) (color n)).
Proof.
  intros H. unfold setRight. rewrite H.
  apply list_lookup_insert_eq. by eapply lookup_lt_Some.
Qed.

Lemma setLeft_lookup_ne h a l b : a <> b -> setLeft h a l !! b = h !! b.
Proof.
  intros H. unfold setLeft. destruct (h !! a); [|done].
  by apply list_lookup_insert_ne.
Qed.

Lemma setRight_lookup_ne h a r b : a <> b -> setRight h a r !! b = h !! b.
Proof.
  intros H. unfold setRight. destruct (h !! a); [|done].
  by apply list_lookup_insert_ne.
Qed.

(** Assigning the value a field already has changes nothing. *)
Lemma setLeft_id h a n : h !! a = Some n -> setLeft h a (left n) = h.
Proof.
  intros H. unfold setLeft. rewrite H, CSGTerm_eta. by apply list_insert_id.
Qed.

Lemma setRight_id h a n : h !! a = Some n -> setRight h a (right n) = h.
Proof.
  intros H. unfold setRight. rewrite H, CSGTerm_eta. by apply list_insert_id.
Qed.

Lemma same_types_setLeft h a l : same_types h (setLeft h a l).
Proof.
  intros b n Hb. destruct (decide (a = b)) as [<-|Hne].
  - rewrite (setLeft_lookup _ _ _ _ Hb). eauto.
  - rewrite setLeft_lookup_ne by done. eauto.
Qed.

Lemma same_types_setRight h a r : same_types h (setRight h a r).
Proof.
  intros b n Hb. destruct (decide (a = b)) as [<-|Hne].
  - rewrite (setRight_lookup _ _ _ _ Hb). eauto.
  - rewrite setRight_lookup_ne by done. eauto.
Qed.

Section NormalizeFacts.

Variable inside : solid.
Variable p : Vector3d.

Local Abbreviation Inv := (Inv inside p).
Local Abbreviation node_ok := (node_ok inside p).
Local Abbreviation post := (post inside p).

Lemma evolve_setLeft k h R D a l :
  R a <= k -> evolve k h R D (setLeft h a l) R D.
Proof.
  intros Hk. split_and!; auto using agree_refl, same_types_setLeft.
  intros b n Hb Hlt. rewrite setLeft_lookup_ne; [done|]. intros ->. lia.
Qed.

Lemma evolve_setRight k h R D a r :
  R a <= k -> evolve k h R D (setRight h a r) R D.
Proof.
  intros Hk. split_and!; auto using agree_refl, same_types_setRight.
  intros b n Hb Hlt. rewrite setRight_lookup_ne; [done|]. intros ->. lia.
Qed.

Lemma node_ok_same_length h h' R D b n :
  length h = length h' -> node_ok h R D b n -> node_ok h' R D b n.
Proof.
  intros Hlen (H2 & Hs & Hn). split; [done|]. split; [done|].
  assert (Hp : forall q, ptr_ok h q -> ptr_ok h' q)
    by (intros q; apply ptr_ok_mono; lia).
  destruct (type n); [done | ..];
    destruct Hn as (? & ? & ? & ?); split_and!; auto.
Qed.

(** The new child has the membership of the old one and no larger rank:
    the invariant survives the assignment. *)
Lemma Inv_setLeft h R D a n l :
  Inv h R D -> h !! a = Some n -> ptr_ok h l ->
  den_ptr D l = den_ptr D (left n) ->
  rank_ptr R l <= rank_ptr R (left n) ->
  Inv (setLeft h a l) R D.
Proof.
  intros HI Hn Hl Hd Hk b nb Hb.
  destruct (decide (a = b)) as [<-|Hne].
  - rewrite (setLeft_lookup _ _ _ _ Hn) in Hb. injection Hb as <-.
    destruct (HI _ _ Hn) as (H2 & Hs & Hok).
    split; [done|]. split; [done|]. simpl.
    assert (Hp : forall q, ptr_ok h q -> ptr_ok (setLeft h a l) q)
      by (intros q; apply ptr_ok_mono; rewrite length_setLeft; lia).
    destruct (type n); [done | ..];
      destruct Hok as (? & ? & HD & HK); rewrite Hd;
      split_and!; auto;
      (etransitivity; [|exact HK]); by apply rank_op_mono.
  - rewrite setLeft_lookup_ne in Hb by done.
    eapply node_ok_same_length; [|by apply HI].
    by rewrite length_setLeft.
Qed.

Lemma Inv_setRight h R D a n r :
  Inv h R D -> h !! a = Some n -> ptr_ok h r ->
  den_ptr D r = den_ptr D (right n) ->
  rank_ptr R r <= rank_ptr R (right n) ->
  Inv (setRight h a r) R D.
Proof.
  intros HI Hn Hr Hd Hk b nb Hb.
  destruct (decide (a = b)) as [<-|Hne].
  - rewrite (setRight_lookup _ _ _ _ Hn) in Hb. injection Hb as <-.
    destruct (HI _ _ Hn) as (H2 & Hs & Hok).
    split; [done|]. split; [done|]. simpl.
    assert (Hp : forall q, ptr_ok h q -> ptr_ok (setRight h a r) q)
      by (intros q; apply ptr_ok_mono; rewrite length_setRight; lia).
    destruct (type n); [done | ..];
      destruct Hok as (? & ? & HD & HK); rewrite Hd;
      split_and!; auto;
      (etransitivity; [|exact HK]); by apply rank_op_mono.
  - rewrite setRight_lookup_ne in Hb by done.
    eapply node_ok_same_length; [|by apply HI].
    by rewrite length_setRight.
Qed.

(** The children of an operator node rank strictly below it. *)
Lemma Inv_child_rank h R D a n :
  Inv h R D -> h !! a = Some n -> type n <> TYPE_PRIMITIVE ->
  ptr_ok h (left n) /\ ptr_ok h (right n) /\
  rank_ptr R (left n) < R a /\ rank_ptr R (right n) < R a /\
  D a = combine (type n) (den_ptr D (left n)) (den_ptr D (right n)).
Proof.
  intros HI Hn Hty. destruct (HI _ _ Hn) as (H2 & Hs & Hok).
  assert (Hall : ptr_ok h (left n) /\ ptr_ok h (right n) /\
            D a = combine (type n) (den_ptr D (left n))
                    (den_ptr D (right n)) /\
            rank_op (type n) (rank_ptr R (left n)) (rank_ptr R (right n))
              <= R a)
    by (destruct (type n); done).
  destruct Hall as (Hl & Hr & HD & HK).
  pose proof (rank_ptr_ge2 _ _ _ _ _ _ HI Hl) as H2l.
  pose proof (rank_ptr_ge2 _ _ _ _ _ _ HI Hr) as H2r.
  pose proof (rank_op_gt (type n) _ _ Hty H2l H2r) as [? ?].
  split_and!; try done; lia.
Qed.

(** The inner loop: membership is kept, the rank does not grow, and no
    rule applies to the term it stops at. *)
Lemma tail_loop_spec fuel : forall h R D a h' q,
  Inv h R D -> a < length h ->
  tail_loop fuel h (Some a) = Ok (h', q) ->
  post h R D (D a) (R a) h' q /\
  match q with
  | None => True
  | Some a' => exists n', h' !! a' = Some n' /\ no_rule h' n'
  end.
Proof.
  induction fuel as [|f IH]; intros h R D a h' q HI Ha; [done|].
  destruct (ptr_ok_lookup h a Ha) as [n Hn]. simpl.
  destruct (normalize_tail_spec inside p h R D a n HI Hn)
    as [E|[[E Hno]|(h1 & q1 & k & E & HP & Hk)]]; rewrite E; simpl.
  - done.
  - intros [= <- <-]. split; [by apply (post_refl _ _ h R D (Some a))|].
    eauto.
  - intros Hloop.
    destruct q1 as [a1|].
    + destruct HP as (R1 & D1 & HI1 & HE1 & Ha1 & Hd1 & Hk1).
      simpl in Ha1, Hd1, Hk1.
      destruct (IH h1 R1 D1 a1 h' q HI1 Ha1 Hloop) as [HP' Hq].
      split; [|done]. rewrite Hd1 in HP'.
      eapply post_trans; [eapply evolve_weaken; [exact HE1 | lia]|].
      eapply post_weaken; [exact HP' | lia].
    + destruct f; [done|]. simpl in Hloop. injection Hloop as <- <-.
      split; [|done]. eapply post_weaken; [exact HP | lia].
Qed.

Lemma normalize_None fuel h r : normalize fuel h None = Ok r -> False.
Proof. by destruct fuel. Qed.

Lemma collapse_spec h R D a n :
  Inv h R D -> h !! a = Some n -> type n <> TYPE_PRIMITIVE ->
  exists q, collapse h a = Ok (h, q) /\
    ptr_ok h q /\ den_ptr D q = D a /\ rank_ptr R q <= R a.
Proof.
  intros HI Hn Hty.
  destruct (Inv_child_rank _ _ _ _ _ HI Hn Hty) as (Hl & Hr & Hkl & Hkr & HD).
  unfold collapse. rewrite (deref_Some _ _ _ Hn). simpl.
  rewrite HD.
  destruct (right n) as [r|] eqn:Er, (left n) as [l|] eqn:El;
    destruct (type n) eqn:Et; try done;
    eexists; (split; [done|]); simpl in *;
    rewrite ?orb_false_r, ?andb_true_r, ?andb_false_r;
    split_and!; try done; try lia.
  all: try (by eapply lookup_lt_Some).
  all: rewrite <- ?HD; try lia.
Qed.

(** [normalize] on a valid store: the returned term has the membership of
    the argument and no larger rank, and the final store is valid. *)
Lemma normalize_spec fuel :
  (forall h R D a h' q,
     Inv h R D -> a < length h ->
     normalize fuel h (Some a) = Ok (h', q) ->
     post h R D (D a) (R a) h' q) /\
  (forall h R D a h' q,
     Inv h R D -> a < length h ->
     normalize_do fuel h (Some a) = Ok (h', q) ->
     post h R D (D a) (R a) h' q).
Proof.
  induction fuel as [|f [IHn IHd]]; [done|]. split.
  - intros h R D a h' q HI Ha. simpl.
    destruct (ptr_ok_lookup h a Ha) as [n Hn].
    rewrite (deref_Some _ _ _ Hn). simpl.
    case_decide.
    + intros [= <- <-]. by apply (post_refl _ _ h R D (Some a)).
    + by apply IHd.
  - intros h R D a0 h' q HI Ha0 Hrun. simpl in Hrun.
    apply bind_Ok in Hrun as ([h1 term1] & Etl & Hrun).
    destruct (tail_loop_spec f h R D a0 h1 term1 HI Ha0 Etl) as [HP1 _].
    destruct term1 as [a|]; [|by injection Hrun as <- <-].
    pose proof HP1 as (R1 & D1 & HI1 & HE1 & Ha & Hd1 & Hk1).
    simpl in Ha, Hd1, Hk1.
    destruct (ptr_ok_lookup h1 a Ha) as [t Ht].
    rewrite (deref_Some _ _ _ Ht) in Hrun. simpl in Hrun.
    case_decide as Hty; [by injection Hrun as <- <-|].
    destruct (Inv_child_rank _ _ _ _ _ HI1 Ht Hty)
      as (Hl & Hr & Hkl & Hkr & HD1).
    apply bind_Ok in Hrun as ([h2 l] & Enl & Hrun).
    destruct (left t) as [x|] eqn:Ex; [|by destruct (normalize_None _ _ _ Enl)].
    simpl in Hl, Hkl.
    pose proof (IHn h1 R1 D1 x h2 l HI1 Hl Enl)
      as (R2 & D2 & HI2 & HE2 & Hl2 & Hdl & Hkl2).
    pose proof HE2 as (HR2 & HD2 & HT2 & HF2).
    pose proof (evolve_length _ _ _ _ _ _ _ HE2) as Hlen2.
    assert (Ht2 : h2 !! a = Some t) by (by apply HF2).
    assert (HI3 : Inv (setLeft h2 a l) R2 D2).
    { eapply Inv_setLeft; eauto; rewrite Ex; simpl;
        rewrite <- ?(HR2 x), <- ?(HD2 x) by done; done. }
    assert (HRa : R2 a = R1 a) by (symmetry; by apply HR2).
    assert (HDa : D2 a = D1 a) by (symmetry; by apply HD2).
    assert (HE3 : evolve (R a0) h R D (setLeft h2 a l) R2 D2).
    { eapply evolve_trans; [exact HE1|].
      eapply evolve_trans; [eapply evolve_weaken; [exact HE2 | lia]|].
      apply evolve_setLeft. lia. }
    set (h3 := setLeft h2 a l) in *.
    assert (Hlen3 : length h3 = length h2) by apply length_setLeft.
    assert (Ha3 : a < length h3) by lia.
    apply bind_Ok in Hrun as (again & Eag & Hrun).
    destruct again.
    { pose proof (IHd h3 R2 D2 a h' q HI3 Ha3 Hrun) as HP.
      rewrite HDa, Hd1 in HP.
      eapply post_trans; [exact HE3|].
      eapply post_weaken; [exact HP | lia]. }
    pose proof (setLeft_lookup _ _ l _ Ht2) as Ht3. fold h3 in Ht3.
    rewrite (deref_Some _ _ _ Ht3) in Hrun. simpl in Hrun.
    apply bind_Ok in Hrun as ([h4 r] & Enr & Hrun).
    destruct (right t) as [y|] eqn:Ey;
      [|by destruct (normalize_None _ _ _ Enr)].
    simpl in Hr, Hkr.
    assert (Hy3 : y < length h3) by lia.
    pose proof (IHn h3 R2 D2 y h4 r HI3 Hy3 Enr)
      as (R4 & D4 & HI4 & HE4 & Hr4 & Hdr & Hkr4).
    pose proof HE4 as (HR4 & HD4 & HT4 & HF4).
    pose proof (evolve_length _ _ _ _ _ _ _ HE4) as Hlen4.
    assert (HRy : R2 y = R1 y) by (symmetry; apply HR2; lia).
    assert (Ht4 : h4 !! a = Some
              (mkCSGTerm (type t) (polyset t) (label t) l (Some y) (bbox t)
                 (m t) (color t))) by (apply HF4; [done | lia]).
    assert (HI5 : Inv (setRight h4 a r) R4 D4).
    { eapply Inv_setRight; eauto; simpl;
        rewrite <- ?(HR4 y), <- ?(HD4 y) by done; done. }
    assert (HE5 : evolve (R a0) h R D (setRight h4 a r) R4 D4).
    { eapply evolve_trans; [exact HE3|].
      eapply evolve_trans; [eapply evolve_weaken; [exact HE4 | lia]|].
      apply evolve_setRight. rewrite <- (HR4 a) by done. lia. }
    pose proof (setRight_lookup _ _ r _ Ht4) as Ht5. simpl in Ht5.
    destruct (collapse_spec _ _ _ _ _ HI5 Ht5 Hty) as (q' & Ec & Hq & Hdq & Hkq).
    rewrite Ec in Hrun. injection Hrun as <- <-.
    exists R4, D4. split_and!; try done.
    + rewrite Hdq, <- (HD4 a), HDa by done. done.
    + rewrite <- (HR4 a) in Hkq by done. lia.
Qed.

End NormalizeFacts.

(** ** Unfolding a store into trees *)

Lemma unfold_repr fuel : forall h q T,
  unfold fuel h q = Some T -> repr h q T.
Proof.
  induction fuel as [|f IH]; intros h q T; [done|]. simpl.
  destruct q as [a|]; [|intros [= <-]; constructor].
  destruct (h !! a) as [n|] eqn:Hn; [|done]. simpl.
  case_decide as Hty.
  - intros [= <-]. by constructor.
  - destruct (unfold f h (left n)) as [l|] eqn:El; [|done]. simpl.
    destruct (unfold f h (right n)) as [r|] eqn:Er; [|done]. simpl.
    intros [= <-]. constructor; auto.
Qed.

Lemma unfold_mono fuel : forall fuel' h q T,
  unfold fuel h q = Some T -> fuel <= fuel' -> unfold fuel' h q = Some T.
Proof.
  induction fuel as [|f IH]; intros fuel' h q T; [done|].
  intros H Hle. destruct fuel' as [|f']; [lia|]. simpl in *.
  destruct q as [a|]; [|done].
  destruct (h !! a) as [n|] eqn:Hn; [|done]. simpl in *.
  case_decide as Hty; [done|].
  destruct (unfold f h (left n)) as [l|] eqn:El; [|done]. simpl in H.
  destruct (unfold f h (right n)) as [r|] eqn:Er; [|done]. simpl in H.
  rewrite (IH f' h _ l El), (IH f' h _ r Er) by lia. done.
Qed.

Lemma repr_functional h q T :
  repr h q T -> forall T', repr h q T' -> T = T'.
Proof.
  induction 1 as [|a n Hn Hty|a n l r Hn Hty Hl IHl Hr IHr];
    intros T' H'; inversion H'; subst; try done.
  - congruence.
  - congruence.
  - congruence.
  - assert (n0 = n) as -> by congruence.
    f_equal; auto.
Qed.

Lemma repr_unfold h q T :
  repr h q T -> unfold (S (depth T)) h q = Some T.
Proof.
  induction 1 as [|a n Hn Hty|a n l r Hn Hty Hl IHl Hr IHr].
  - done.
  - simpl. rewrite Hn. simpl. by rewrite decide_True.
  - cbn [depth]. remember (S (Nat.max (depth l) (depth r))) as k.
    simpl. rewrite Hn. simpl. rewrite decide_False by done.
    rewrite (unfold_mono _ k _ _ _ IHl), (unfold_mono _ k _ _ _ IHr) by lia.
    done.
Qed.

(** ** Stores built by the constructors are valid *)

Lemma built_op h a n :
  built h -> h !! a = Some n -> type n <> TYPE_PRIMITIVE ->
  exists l r ln rn,
    left n = Some l /\ right n = Some r /\
    h !! l = Some ln /\ h !! r = Some rn /\ l < a /\ r < a /\
    bbox n = initBoundingBox_op (type n) Identity (bbox ln) (bbox rn).
Proof.
  intros Hb Hn Hty. specialize (Hb _ _ Hn). unfold built_node in Hb.
  destruct (left n) as [l|], (right n) as [r|];
    try (by destruct (type n)).
  destruct (h !! l) as [ln|] eqn:Hl, (h !! r) as [rn|] eqn:Hr;
    try (by destruct (type n)).
  assert (Hall : bool_decide (l < a) && bool_decide (r < a)
            && bool_decide (bbox n =
                 initBoundingBox_op (type n) Identity (bbox ln) (bbox rn))
            = true) by (by destruct (type n)).
  apply andb_true_iff in Hall as [Hall H3].
  apply andb_true_iff in Hall as [H1 H2].
  apply bool_decide_eq_true in H1, H2, H3.
  exists l, r, ln, rn. done.
Qed.

Lemma built_unfold h : built h ->
  forall a, a < length h -> exists T, unfold (S a) h (Some a) = Some T.
Proof.
  intros Hb a. induction (lt_wf a) as [a _ IH]. intros Ha.
  destruct (ptr_ok_lookup h a Ha) as [n Hn].
  simpl. rewrite Hn. simpl. case_decide as Hty; [eauto|].
  destruct (built_op _ _ _ Hb Hn Hty)
    as (l & r & ln & rn & El & Er & Hl & Hr & Hla & Hra & _).
  destruct (IH l Hla) as [Tl HTl]; [by eapply lookup_lt_Some|].
  destruct (IH r Hra) as [Tr HTr]; [by eapply lookup_lt_Some|].
  rewrite El, Er.
  rewrite (unfold_mono _ a _ _ _ HTl), (unfold_mono _ a _ _ _ HTr) by lia.
  simpl. eauto.
Qed.

Lemma tree_rank_ge2 T : 2 <= tree_rank T.
Proof.
  induction T as [|n|n l IHl r IHr]; simpl; [done..|].
  by apply rank_op_ge2.
Qed.

Section BuiltFacts.

Variable inside : solid.
Variable p : Vector3d.

Local Abbreviation Inv := (Inv inside p).
Local Abbreviation node_ok := (node_ok inside p).

Lemma built_node_ok h :
  built h -> prims_sound inside h ->
  forall a n, h !! a = Some n ->
    node_ok h (rank_of h) (den_of inside p h) a n.
Proof.
  intros Hb Hs a. induction (lt_wf a) as [a _ IH]. intros n Hn.
  assert (Ha : a < length h) by (by eapply lookup_lt_Some).
  destruct (built_unfold h Hb a Ha) as [T HT].
  unfold node_ok, rank_of, den_of. rewrite HT.
  split; [apply tree_rank_ge2|].
  simpl in HT. rewrite Hn in HT. simpl in HT.
  case_decide as Hty.
  - injection HT as <-. rewrite Hty. simpl. split; [|done].
    intros Hm. by eapply Hs.
  - destruct (built_op _ _ _ Hb Hn Hty)
      as (l & r & ln & rn & El & Er & Hl & Hr & Hla & Hra & Hbox).
    rewrite El, Er in HT |- *.
    assert (Hll : l < length h) by lia.
    assert (Hrl : r < length h) by lia.
    destruct (built_unfold h Hb l Hll) as [Tl HTl].
    destruct (built_unfold h Hb r Hrl) as [Tr HTr].
    rewrite (unfold_mono _ a _ _ _ HTl), (unfold_mono _ a _ _ _ HTr) in HT
      by lia.
    simpl in HT. injection HT as <-.
    pose proof (IH l Hla ln Hl) as (_ & Hsl & _).
    pose proof (IH r Hra rn Hr) as (_ & Hsr & _).
    unfold rank_of, den_of in Hsl, Hsr. rewrite HTl in Hsl. rewrite HTr in Hsr.
    cbn [tree_rank member rank_ptr den_ptr]. rewrite HTl, HTr.
    split.
    + intros Hc. rewrite Hbox.
      eapply initBoundingBox_op_sound; [exact Hsl | exact Hsr | exact Hc].
    + by destruct (type n).
Qed.

Lemma built_Inv h :
  built h -> prims_sound inside h ->
  Inv h (rank_of h) (den_of inside p h).
Proof. intros Hb Hs a n Hn. by apply built_node_ok. Qed.

Lemma den_of_repr h a T :
  built h -> repr h (Some a) T -> den_of inside p h a = member inside T p.
Proof.
  intros Hb Hr.
  assert (Ha : a < length h)
    by (inversion Hr; subst; by eapply lookup_lt_Some).
  destruct (built_unfold h Hb a Ha) as [T' HT].
  unfold den_of. rewrite HT.
  by rewrite (repr_functional _ _ _ Hr _ (unfold_repr _ _ _ _ HT)).
Qed.

(** In a valid store every pointer unfolds to a tree, whose membership
    is the recorded one. *)
Lemma Inv_repr h R D :
  Inv h R D ->
  forall q, ptr_ok h q ->
    exists T, repr h q T /\ member inside T p = den_ptr D q.
Proof.
  intros HI q.
  remember (rank_ptr R q) as k eqn:Ek. revert q Ek.
  induction (lt_wf k) as [k _ IH]. intros q -> Hq.
  destruct q as [a|]; [|exists TAbsent; split; [constructor | done]].
  destruct (ptr_ok_lookup h a Hq) as [n Hn].
  destruct (decide (type n = TYPE_PRIMITIVE)) as [Hty|Hty].
  - exists (TPrim n). split; [by constructor|].
    destruct (HI _ _ Hn) as (_ & _ & Hok). rewrite Hty in Hok. done.
  - destruct (Inv_child_rank _ _ _ _ _ _ _ HI Hn Hty)
      as (Hl & Hr & Hkl & Hkr & HD).
    destruct (IH _ Hkl (left n) eq_refl Hl) as (Tl & HTl & Hml).
    destruct (IH _ Hkr (right n) eq_refl Hr) as (Tr & HTr & Hmr).
    exists (TOp n Tl Tr). split; [by constructor|].
    simpl. by rewrite Hml, Hmr, HD.
Qed.

End BuiltFacts.


(** ** Stores only grow under [createCSGTerm] *)

Lemma createCSGTerm_cases h ty l r h' q :
  createCSGTerm h ty l r = Ok (h', q) ->
  (h' = h /\ (q = None \/ q = l \/ (q = r /\ l = None))) \/
  (exists a b ln rn,
     l = Some a /\ r = Some b /\ h !! a = Some ln /\ h !! b = Some rn /\
     ty <> TYPE_PRIMITIVE /\
     h' = h ++ [mkCSGTerm ty None EmptyString l r
                  (initBoundingBox_op ty Identity (bbox ln) (bbox rn))
                  Identity noColor] /\
     q = Some (length h)).
Proof.
  assert (Hnew : newOperator h ty l r = Ok (h', q) ->
    exists a b ln rn,
     l = Some a /\ r = Some b /\ h !! a = Some ln /\ h !! b = Some rn /\
     ty <> TYPE_PRIMITIVE /\
     h' = h ++ [mkCSGTerm ty None EmptyString l r
                  (initBoundingBox_op ty Identity (bbox ln) (bbox rn))
                  Identity noColor] /\
     q = Some (length h)).
  { unfold newOperator, initBoundingBox. intros H.
    assert (Hty : ty <> TYPE_PRIMITIVE) by (by intros ->).
    assert (H' : (ln ← deref h l; rn ← deref h r;
                  Ok (alloc h (mkCSGTerm ty None EmptyString l r
                     (initBoundingBox_op ty Identity (bbox ln) (bbox rn))
                     Identity noColor))) = Ok (h', q)).
    { destruct ty; [done | ..];
        (destruct (deref h l); [|done..]);
        (destruct (deref h r); [|done..]); exact H. }
    apply bind_Ok in H' as (ln & El & H').
    apply bind_Ok in H' as (rn & Er & H').
    apply deref_Ok in El as (a & -> & Ha).
    apply deref_Ok in Er as (b & -> & Hb).
    injection H' as <- <-. exists a, b, ln, rn. done. }
  unfold createCSGTerm.
  destruct ty; simpl.
  - intros H. apply bind_Ok in H as (ln & El & H).
    apply bind_Ok in H as (rn & Er & H). done.
  - destruct r as [b|]; [|intros [= <- <-]; left; auto].
    destruct l as [a|]; [|intros [= <- <-]; left; auto].
    intros H. apply bind_Ok in H as (ln & El & H).
    apply bind_Ok in H as (rn & Er & H). right. by apply Hnew.
  - destruct r as [b|]; [|intros [= <- <-]; left; auto].
    destruct l as [a|]; [|intros [= <- <-]; left; auto].
    intros H. apply bind_Ok in H as (ln & El & H).
    apply bind_Ok in H as (rn & Er & H).
    destruct (isNull _); [injection H as <- <-; left; auto|].
    right. by apply Hnew.
  - destruct r as [b|]; [|intros [= <- <-]; left; auto].
    destruct l as [a|]; [|intros [= <- <-]; left; auto].
    intros H. apply bind_Ok in H as (ln & El & H).
    apply bind_Ok in H as (rn & Er & H).
    destruct (isNull _); [injection H as <- <-; left; auto|].
    right. by apply Hnew.
Qed.

Lemma createCSGTerm_grows h ty l r h' q :
  createCSGTerm h ty l r = Ok (h', q) -> exists ns, h' = h ++ ns.
Proof.
  intros H. destruct (createCSGTerm_cases _ _ _ _ _ _ H)
    as [[-> _]|(a & b & ln & rn & _ & _ & _ & _ & _ & -> & _)].
  - exists []. by rewrite app_nil_r.
  - eauto.
Qed.

Lemma create_left_grows h t t1 a b c h' q f :
  create_left h t t1 a b c = Ok (h', q, f) -> exists ns, h' = h ++ ns.
Proof.
  unfold create_left. intros H.
  apply bind_Ok in H as ([h1 u] & E1 & H).
  apply bind_Ok in H as ([h2 w] & E2 & H). injection H as <- <- <-.
  apply createCSGTerm_grows in E1 as [n1 ->].
  apply createCSGTerm_grows in E2 as [n2 ->].
  exists (n1 ++ n2). by rewrite app_assoc.
Qed.

Lemma create_both_grows h t t1 t2 a b c d h' q f :
  create_both h t t1 t2 a b c d = Ok (h', q, f) -> exists ns, h' = h ++ ns.
Proof.
  unfold create_both. intros H.
  apply bind_Ok in H as ([h1 u] & E1 & H).
  apply bind_Ok in H as ([h2 v] & E2 & H).
  apply bind_Ok in H as ([h3 w] & E3 & H). injection H as <- <- <-.
  apply createCSGTerm_grows in E1 as [n1 ->].
  apply createCSGTerm_grows in E2 as [n2 ->].
  apply createCSGTerm_grows in E3 as [n3 ->].
  exists (n1 ++ n2 ++ n3). by rewrite !app_assoc.
Qed.

Lemma normalize_tail_grows h q h' q' f :
  normalize_tail h q = Ok (h', q', f) -> exists ns, h' = h ++ ns.
Proof.
  assert (Hid : exists ns : list CSGTerm, h = h ++ ns)
    by (exists []; by rewrite app_nil_r).
  unfold normalize_tail. intros H.
  apply bind_Ok in H as (t & Et & H).
  destruct (type t); try (by injection H as <- <- <-).
  all: apply bind_Ok in H as (rt & Ert & H).
  all: destruct (type rt);
    try (by eapply create_left_grows); try (by eapply create_both_grows).
  all: apply bind_Ok in H as (lt & Elt & H).
  all: destruct (type lt); try (by injection H as <- <- <-);
    try (by eapply create_left_grows); try (by eapply create_both_grows).
Qed.

Lemma same_types_app_list h ns : same_types h (h ++ ns).
Proof.
  intros b nb Hb. exists nb. split; [|done].
  rewrite lookup_app_l; [done | by eapply lookup_lt_Some].
Qed.

(** ** Finished nodes stay finished *)

Lemma fin_ok_mono h F n h' F' :
  fin_ok h F n -> same_types h h' ->
  (forall c, F c = true -> F' c = true) -> fin_ok h' F' n.
Proof.
  unfold fin_ok. intros H HT HF.
  destruct (type n); try done;
    destruct H as (l & r & ln & rn & El & Er & Hl & Hr & Hp & Hu & Hf);
    destruct (HT _ _ Hl) as (ln' & Hl' & Etl);
    destruct (HT _ _ Hr) as (rn' & Hr' & Etr);
    exists l, r, ln', rn'; split_and!; auto; congruence.
Qed.

Lemma FInv_app h F ns : FInv h F -> FInv (h ++ ns) F.
Proof.
  intros HF c Hc. destruct (HF c Hc) as (n & Hn & Hok).
  exists n. split.
  - rewrite lookup_app_l; [done | by eapply lookup_lt_Some].
  - eapply fin_ok_mono; eauto using same_types_app_list.
Qed.

Lemma FInv_fadd h F a n :
  FInv h F -> h !! a = Some n -> fin_ok h (fadd F a) n ->
  FInv h (fadd F a).
Proof.
  intros HF Hn Hok c Hc. unfold fadd in Hc. case_decide as Hca.
  - subst. eauto.
  - destruct (HF c Hc) as (nc & Hnc & Hokc). exists nc. split; [done|].
    eapply fin_ok_mono; eauto using same_types_refl.
    intros d Hd. unfold fadd. by case_decide.
Qed.

(** An assignment to a node keeps the finished nodes finished, provided
    the node itself is still finished afterwards when it was before. *)
Lemma FInv_change h F h' a :
  FInv h F -> same_types h h' ->
  (forall c, c <> a -> h' !! c = h !! c) ->
  (F a = true -> exists n', h' !! a = Some n' /\ fin_ok h' F n') ->
  FInv h' F.
Proof.
  intros HF HT Hsame Ha c Hc. destruct (decide (c = a)) as [->|Hne].
  - by apply Ha.
  - destruct (HF c Hc) as (n & Hn & Hok). exists n.
    rewrite Hsame by done. split; [done|].
    eapply fin_ok_mono; eauto.
Qed.

Lemma repr_prim_inv h y T rn :
  repr h (Some y) T -> h !! y = Some rn -> type rn = TYPE_PRIMITIVE ->
  T = TPrim rn.
Proof. intros Hr Hy Hp. inversion Hr; subst; congruence. Qed.

Lemma repr_type h x T ln :
  repr h (Some x) T -> h !! x = Some ln -> tree_type T = Some (type ln).
Proof. intros Hr Hx. inversion Hr; subst; simpl; congruence. Qed.

(** A finished term unfolds to a tree of the normal shape. *)
Lemma FInv_shape h F : FInv h F ->
  forall q T, repr h q T -> Fp F q -> shape T.
Proof.
  intros HF q T Hr. induction Hr as [|a n Hn Hty|a n l r Hn Hty Hl IHl Hr IHr];
    intros Hq; simpl; [done..|].
  simpl in Hq. destruct (HF a Hq) as (n' & Hn' & Hok).
  assert (n' = n) as -> by congruence.
  assert (Hcase : type n = TYPE_UNION \/
    exists x y ln rn,
        left n = Some x /\ right n = Some y /\
        h !! x = Some ln /\ h !! y = Some rn /\
        type rn = TYPE_PRIMITIVE /\ type ln <> TYPE_UNION /\ F x = true).
  { unfold fin_ok in Hok. destruct (type n); [done | by left | by right..]. }
  destruct Hcase as [?|(x & y & ln & rn & El & Er & Hx & Hy & Hp & Hu & Hf)];
    [by left | right].
  rewrite El in Hl, IHl. rewrite Er in Hr.
  rewrite (repr_prim_inv _ _ _ _ Hr Hy Hp).
  rewrite (repr_type _ _ _ _ Hl Hx).
  split_and!; try done.
  - congruence.
  - by apply IHl.
Qed.

Lemma Fp_fadd F a : Fp (fadd F a) (Some a).
Proof. simpl. unfold fadd. by rewrite decide_True. Qed.

Lemma fadd_incl F a c : F c = true -> fadd F a c = true.
Proof. intros H. unfold fadd. by case_decide. Qed.

(** An intersection or difference of a finished term that is not a union
    with a primitive is finished, whatever [createCSGTerm] returns. *)
Lemma createCSGTerm_F h F ty x y xn yn h' q :
  FInv h F -> ty = TYPE_INTERSECTION \/ ty = TYPE_DIFFERENCE ->
  h !! x = Some xn -> h !! y = Some yn ->
  F x = true -> type xn <> TYPE_UNION -> type yn = TYPE_PRIMITIVE ->
  createCSGTerm h ty (Some x) (Some y) = Ok (h', q) ->
  exists F',
    FInv h' F' /\ (forall c, F c = true -> F' c = true) /\
    (forall c, F' c = true -> F c = true \/ length h <= c) /\
    Fp F' q /\ not_union h' q.
Proof.
  intros HF Hty Hx Hy Hfx Hxu Hyp Hc.
  destruct (createCSGTerm_cases _ _ _ _ _ _ Hc)
    as [[-> Hq]|(a & b & ln & rn & [= <-] & [= <-] & Ha & Hb & _ & -> & ->)].
  - exists F. split_and!; auto.
    + destruct Hq as [->|[->|[_ ?]]]; done.
    + destruct Hq as [->|[->|[_ ?]]]; try done. simpl. congruence.
  - assert (ln = xn) as -> by congruence.
    assert (rn = yn) as -> by congruence.
    set (nn := mkCSGTerm ty _ _ _ _ _ _ _).
    exists (fadd F (length h)). split_and!.
    + apply FInv_fadd with nn.
      * by apply FInv_app.
      * by apply list_lookup_middle.
      * assert (Hok : exists l r ln rn,
          Some x = Some l /\ Some y = Some r /\
          (h ++ [nn]) !! l = Some ln /\ (h ++ [nn]) !! r = Some rn /\
          type rn = TYPE_PRIMITIVE /\ type ln <> TYPE_UNION /\
          fadd F (length h) l = true).
        { exists x, y, xn, yn. split_and!; try done.
          - rewrite lookup_app_l; [done | by eapply lookup_lt_Some].
          - rewrite lookup_app_l; [done | by eapply lookup_lt_Some].
          - by apply fadd_incl. }
        unfold fin_ok. simpl. by destruct Hty as [-> | ->].
    + intros c. apply fadd_incl.
    + intros c. unfold fadd. case_decide; [right; lia | by left].
    + apply Fp_fadd.
    + simpl. intros n. rewrite list_lookup_middle by done.
      intros [= <-]. simpl. by destruct Hty as [-> | ->].
Qed.

Lemma normalize_tail_F h F a n h' q b :
  FInv h F -> h !! a = Some n ->
  normalize_tail h (Some a) = Ok (h', q, b) ->
  exists F',
    FInv h' F' /\ (forall c, F c = true -> F' c = true) /\
    (forall c, F' c = true -> F c = true \/ length h <= c) /\
    (F a = true -> type n <> TYPE_UNION -> Fp F' q /\ not_union h' q).
Proof.
  intros HF Hn Hrun.
  assert (Hsame : h' = h -> q = Some a ->
    exists F',
      FInv h' F' /\ (forall c, F c = true -> F' c = true) /\
      (forall c, F' c = true -> F c = true \/ length h <= c) /\
      (F a = true -> type n <> TYPE_UNION -> Fp F' q /\ not_union h' q)).
  { intros -> ->. exists F. split_and!; auto.
    intros Hfa Hu. split; [done|]. simpl. congruence. }
  destruct (decide (F a = true /\ type n <> TYPE_UNION /\
                    type n <> TYPE_PRIMITIVE)) as [(Hfa & HnU & HnP)|Hnot].
  2:{ destruct (normalize_tail_grows _ _ _ _ _ Hrun) as [ns ->].
      destruct (decide (type n = TYPE_PRIMITIVE)) as [Hp|Hp].
      - unfold normalize_tail in Hrun.
        rewrite (deref_Some _ _ _ Hn) in Hrun. simpl in Hrun.
        rewrite Hp in Hrun. injection Hrun as Hh <- <-.
        apply Hsame; [done | done].
      - exists F. split_and!; auto using FInv_app.
        intros Hfa Hu. destruct Hnot. done. }
  destruct (HF a Hfa) as (n' & Hn' & Hok).
  assert (n' = n) as -> by congruence.
  assert (Hcase : exists l r ln rn,
        left n = Some l /\ right n = Some r /\
        h !! l = Some ln /\ h !! r = Some rn /\
        type rn = TYPE_PRIMITIVE /\ type ln <> TYPE_UNION /\ F l = true).
  { unfold fin_ok in Hok. by destruct (type n). }
  destruct Hcase as (l & r & ln & rn & El & Er & Hl & Hr & Hrp & Hlu & Hfl).
  unfold normalize_tail in Hrun.
  rewrite (deref_Some _ _ _ Hn) in Hrun. simpl in Hrun.
  rewrite El, Er, (deref_Some _ _ _ Hr) in Hrun. simpl in Hrun.
  rewrite Hrp, (deref_Some _ _ _ Hl) in Hrun. simpl in Hrun.
  destruct (decide (type ln = TYPE_DIFFERENCE /\ type n = TYPE_INTERSECTION))
    as [[Eld Eni]|Hno7].
  2:{ apply Hsame.
      - destruct (type n), (type ln); try done;
          try (by injection Hrun); by destruct Hno7.
      - destruct (type n), (type ln); try done;
          try (by injection Hrun); by destruct Hno7. }
  rewrite Eld, Eni in Hrun.
  (* rule 7 on finished terms *)
  destruct (HF l Hfl) as (ln' & Hln' & Hokl).
  assert (ln' = ln) as -> by congruence.
  assert (Hcasel : exists x y xn yn,
        left ln = Some x /\ right ln = Some y /\
        h !! x = Some xn /\ h !! y = Some yn /\
        type yn = TYPE_PRIMITIVE /\ type xn <> TYPE_UNION /\ F x = true).
  { unfold fin_ok in Hokl. by rewrite Eld in Hokl. }
  destruct Hcasel as (x & y & xn & yn & Ex & Ey & Hx & Hy & Hyp & Hxu & Hfx).
  rewrite Ex, Ey in Hrun. unfold create_left in Hrun.
  apply bind_Ok in Hrun as ([h1 u] & E1 & Hrun).
  apply bind_Ok in Hrun as ([h2 w] & E2 & Hrun).
  injection Hrun as <- <- <-.
  destruct (createCSGTerm_F h F TYPE_INTERSECTION x r xn rn h1 u)
    as (F1 & HF1 & Hi1 & Hn1 & Hu1 & Hnu1); auto.
  destruct (createCSGTerm_grows _ _ _ _ _ _ E1) as [ns1 ->].
  destruct u as [i|].
  - simpl in Hu1, Hnu1.
    destruct (HF1 i Hu1) as (ni & Hi & _).
    destruct (createCSGTerm_F (h ++ ns1) F1 TYPE_DIFFERENCE i y ni yn h2 w)
      as (F2 & HF2 & Hi2 & Hn2 & Hu2 & Hnu2); auto.
    { rewrite lookup_app_l; [done | by eapply lookup_lt_Some]. }
    exists F2. split_and!; auto.
    intros c Hc. destruct (Hn2 c Hc) as [Hc1|Hlen].
    + apply Hn1 in Hc1. done.
    + right. rewrite length_app in Hlen. lia.
  - simpl in E2. injection E2 as <- <-.
    exists F1. split_and!; auto.
Qed.

Lemma collapse_cases h a n h' q :
  h !! a = Some n -> collapse h a = Ok (h', q) ->
  h' = h /\ (q = Some a \/ q = left n \/ q = right n).
Proof.
  intros Hn. unfold collapse. rewrite (deref_Some _ _ _ Hn). simpl.
  destruct (right n), (left n), (type n); intros [= <- <-]; auto.
Qed.

Lemma normalize_prim fuel h a n h' q :
  h !! a = Some n -> type n = TYPE_PRIMITIVE ->
  normalize fuel h (Some a) = Ok (h', q) -> h' = h /\ q = Some a.
Proof.
  intros Hn Hp. destruct fuel; [done|]. simpl.
  rewrite (deref_Some _ _ _ Hn). simpl. rewrite decide_True by done.
  by intros [= <- <-].
Qed.

Lemma loop_again_false h a n :
  h !! a = Some n -> loop_again h a = Ok false ->
  type n = TYPE_UNION \/
  exists l r ln rn,
    left n = Some l /\ right n = Some r /\
    h !! l = Some ln /\ h !! r = Some rn /\
    type rn = TYPE_PRIMITIVE /\ type ln <> TYPE_UNION.
Proof.
  intros Hn. unfold loop_again. rewrite (deref_Some _ _ _ Hn). simpl.
  case_decide as Hu; [by left|]. intros H. right.
  apply bind_Ok in H as (rn & Er & H).
  case_decide as Hp; [|done].
  apply bind_Ok in H as (ln & El & H).
  apply deref_Ok in Er as (r & Er & Hr).
  apply deref_Ok in El as (l & El & Hl).
  injection H as H. apply bool_decide_eq_false in H.
  exists l, r, ln, rn. done.
Qed.

(** With a primitive on the right and nothing on the left the loop
    condition dereferences null. *)
Lemma loop_again_null_left h a n r rn :
  h !! a = Some n -> type n <> TYPE_UNION -> left n = None ->
  right n = Some r -> h !! r = Some rn -> type rn = TYPE_PRIMITIVE ->
  loop_again h a = Fault.
Proof.
  intros Hn Hu El Er Hr Hp. unfold loop_again.
  rewrite (deref_Some _ _ _ Hn). simpl. rewrite decide_False by done.
  rewrite Er, (deref_Some _ _ _ Hr). simpl. rewrite decide_True by done.
  by rewrite El.
Qed.

Section FinishedFacts.

Variable inside : solid.
Variable p : Vector3d.

Local Abbreviation Inv := (Inv inside p).
Local Abbreviation post := (post inside p).

Lemma fpost_compose fin h R F k a h1 R1 F1 k1 a1 h' q :
  (forall c, F c = true -> F1 c = true) ->
  (forall c, F1 c = true -> F c = true \/ length h <= c \/ R c <= k) ->
  length h <= length h1 -> agree (length h) R R1 -> k1 <= k ->
  (Fp F a -> not_union h a -> Fp F1 a1 /\ not_union h1 a1) ->
  fpost fin h1 R1 F1 k1 a1 h' q -> fpost fin h R F k a h' q.
Proof.
  intros Hi Hfr Hlen HR Hk Hcl (F' & HF' & Hi' & Hfr' & Hfin & Hcl').
  exists F'. split_and!; auto.
  - intros c Hc. destruct (Hfr' c Hc) as [H1|[H1|H1]]; [by apply Hfr | ..].
    + right; left; lia.
    + destruct (decide (c < length h)) as [Hlt|Hge]; [|right; left; lia].
      right; right. rewrite HR by done. lia.
  - intros Ha Hu. destruct (Hcl Ha Hu). auto.
Qed.

Lemma tail_loop_F fuel : forall h R D F a h' q,
  Inv h R D -> FInv h F -> a < length h ->
  tail_loop fuel h (Some a) = Ok (h', q) ->
  fpost False h R F (R a) (Some a) h' q.
Proof.
  induction fuel as [|f IH]; intros h R D F a h' q HI HF Ha; [done|].
  destruct (ptr_ok_lookup h a Ha) as [n Hn]. simpl.
  intros Hrun. apply bind_Ok in Hrun as ([[h1 q1] again] & Et & Hrun).
  destruct (normalize_tail_F _ _ _ _ _ _ _ HF Hn Et)
    as (F1 & HF1 & Hi1 & Hn1 & Hcl1).
  assert (Hcl1' : Fp F (Some a) -> not_union h (Some a) ->
            Fp F1 q1 /\ not_union h1 q1).
  { intros Hfa Hu. apply Hcl1; [done | by apply Hu]. }
  assert (Hdone : h' = h1 -> q = q1 ->
            fpost False h R F (R a) (Some a) h' q).
  { intros -> ->. exists F1. split_and!; auto; [|done].
    intros c Hc. destruct (Hn1 c Hc); auto. }
  destruct again; [|by injection Hrun as <- <-; apply Hdone].
  destruct q1 as [a1|].
  2:{ destruct f; [done|]. simpl in Hrun. injection Hrun as <- <-.
      by apply Hdone. }
  destruct (normalize_tail_spec inside p h R D a n HI Hn)
    as [E|[[E _]|(h1' & q1' & k & E & HP & Hk)]]; rewrite E in Et; try done.
  injection Et as -> ->.
  destruct HP as (R1 & D1 & HI1 & HE1 & Ha1 & Hd1 & Hk1).
  simpl in Ha1, Hk1.
  pose proof (evolve_length _ _ _ _ _ _ _ HE1) as Hlen.
  pose proof HE1 as (HR1 & _).
  eapply fpost_compose; [exact Hi1 | | exact Hlen | exact HR1 | | exact Hcl1' |
                         exact (IH _ _ _ _ _ _ _ HI1 HF1 Ha1 Hrun)].
  - intros c Hc. destruct (Hn1 c Hc); auto.
  - lia.
Qed.

(** [normalize] returns a finished term; re-normalising a finished term
    that is not a union does not yield a union. *)
Lemma normalize_F fuel :
  (forall h R D F a h' q,
     Inv h R D -> FInv h F -> a < length h ->
     normalize fuel h (Some a) = Ok (h', q) ->
     fpost True h R F (R a) (Some a) h' q) /\
  (forall h R D F a h' q,
     Inv h R D -> FInv h F -> a < length h ->
     normalize_do fuel h (Some a) = Ok (h', q) ->
     fpost True h R F (R a) (Some a) h' q).
Proof.
  induction fuel as [|f [IHn IHd]]; [done|].
  assert (Hprim : forall h (R : nat -> nat) F a n k,
    FInv h F -> h !! a = Some n -> type n = TYPE_PRIMITIVE -> R a <= k ->
    fpost True h R F k (Some a) h (Some a)).
  { intros h R F a n k HF Hn Hp Hk. exists (fadd F a). split_and!.
    - apply FInv_fadd with n; [done..|]. unfold fin_ok. by rewrite Hp.
    - intros c. apply fadd_incl.
    - intros c. unfold fadd. case_decide; [subst; auto | by left].
    - intros _. apply Fp_fadd.
    - intros _ _. split; [apply Fp_fadd|]. simpl. congruence. }
  destruct (normalize_spec inside p f) as [Sn _].
  split.
  - intros h R D F a h' q HI HF Ha. simpl.
    destruct (ptr_ok_lookup h a Ha) as [n Hn].
    rewrite (deref_Some _ _ _ Hn). simpl.
    case_decide as Hp.
    + intros [= <- <-]. by eapply Hprim.
    + by eapply IHd.
  - intros h R D F a0 h' q HI HF Ha0 Hrun. simpl in Hrun.
    apply bind_Ok in Hrun as ([h1 term1] & Etl & Hrun).
    destruct (tail_loop_spec inside p f h R D a0 h1 term1 HI Ha0 Etl)
      as [HP1 _].
    pose proof (tail_loop_F f h R D F a0 h1 term1 HI HF Ha0 Etl)
      as (F1 & HF1 & Hi1 & Hfr1 & _ & Hcl1).
    destruct term1 as [a|].
    2:{ injection Hrun as <- <-. exists F1. split_and!; auto. }
    pose proof HP1 as (R1 & D1 & HI1 & HE1 & Ha & Hd1 & Hk1).
    simpl in Ha, Hd1, Hk1.
    pose proof HE1 as (HR1 & _ & HT1 & _).
    pose proof (evolve_length _ _ _ _ _ _ _ HE1) as Hlen1.
    destruct (ptr_ok_lookup h1 a Ha) as [t Ht].
    rewrite (deref_Some _ _ _ Ht) in Hrun. simpl in Hrun.
    case_decide as Hty.
    { injection Hrun as <- <-.
      eapply fpost_compose with (h1 := h1) (R1 := R1) (F1 := F1)
        (k1 := R1 a) (a1 := Some a); eauto. }
    destruct (Inv_child_rank _ _ _ _ _ _ _ HI1 Ht Hty)
      as (Hl & Hr & Hkl & Hkr & HD1).
    apply bind_Ok in Hrun as ([h2 l] & Enl & Hrun).
    destruct (left t) as [x|] eqn:Ex; [|by destruct (normalize_None _ _ _ Enl)].
    simpl in Hl, Hkl.
    pose proof (Sn h1 R1 D1 x h2 l HI1 Hl Enl)
      as (R2 & D2 & HI2 & HE2 & Hl2 & Hdl & Hkl2).
    pose proof (IHn h1 R1 D1 F1 x h2 l HI1 HF1 Hl Enl)
      as (F2 & HF2 & Hi2 & Hfr2 & Hfin2 & Hcl2).
    pose proof HE2 as (HR2 & HD2 & HT2 & HF2').
    pose proof (evolve_length _ _ _ _ _ _ _ HE2) as Hlen2.
    assert (Ht2 : h2 !! a = Some t) by (by apply HF2').
    assert (HI3 : Inv (setLeft h2 a l) R2 D2).
    { eapply Inv_setLeft; eauto; rewrite Ex; simpl;
        rewrite <- ?(HR2 x), <- ?(HD2 x) by done; done. }
    assert (HRa : R2 a = R1 a) by (symmetry; by apply HR2).
    assert (HE3 : evolve (R a0) h R D (setLeft h2 a l) R2 D2).
    { eapply evolve_trans; [exact HE1|].
      eapply evolve_trans; [eapply evolve_weaken; [exact HE2 | lia]|].
      apply evolve_setLeft. lia. }
    pose proof (setLeft_lookup _ _ l _ Ht2) as Ht3.
    pose proof (same_types_setLeft h2 a l) as HTs.
    set (h3 := setLeft h2 a l) in *.
    set (n3 := mkCSGTerm (type t) (polyset t) (label t) l (right t) (bbox t)
                 (m t) (color t)) in *.
    assert (Hlen3 : length h3 = length h2) by apply length_setLeft.
    assert (Ha3 : a < length h3) by lia.
    pose proof HE3 as (HR3 & _).
    assert (HT13 : same_types h1 h3) by (by eapply same_types_trans).
    apply bind_Ok in Hrun as (again & Eag & Hrun).
    assert (Hi02 : forall c, F c = true -> F2 c = true) by auto.
    assert (Hfr02 : forall c, F2 c = true ->
              F c = true \/ length h <= c \/ R c <= R a0).
    { intros c Hc. destruct (Hfr2 c Hc) as [H1|[H1|H1]]; [by apply Hfr1 | ..].
      - right; left; lia.
      - destruct (decide (c < length h)) as [Hlt|Hge]; [|right; left; lia].
        right; right. rewrite HR1 by done. lia. }
    assert (Hcl13 : Fp F (Some a0) -> not_union h (Some a0) ->
              Fp F2 (Some a) /\ not_union h3 (Some a)).
    { intros H1 H2. destruct (Hcl1 H1 H2) as [H3 H4]. split; [by apply Hi2|].
      simpl. intros n0. rewrite Ht3. intros [= <-]. simpl. by apply H4. }
    assert (HF3 : FInv h3 F2).
    { apply FInv_change with h2 a; auto.
      { intros c Hc. by apply setLeft_lookup_ne. }
      intros Hfa2. exists n3. split; [done|].
      destruct (Hfr2 a Hfa2) as [Hfa1|[?|?]]; [|lia..].
      destruct (HF1 a Hfa1) as (t' & Ht' & Hok).
      assert (t' = t) as -> by congruence.
      unfold fin_ok in Hok |- *. simpl.
      destruct (type t) eqn:Et; try done;
        destruct Hok as (x' & r0 & xn & rn & Ex' & Er0 & Hx & Hr0 & Hrp & Hxu
                         & Hfx);
        assert (x' = x) as -> by congruence;
        (destruct (Hcl2 Hfx) as [Hfl Hnl];
           [simpl; intros n0 Hn0; congruence|]);
        destruct (HT13 _ _ Hr0) as (rn' & Hr0' & Etr);
        (destruct l as [l0|];
         [ simpl in Hfl, Hnl; destruct (HF2 l0 Hfl) as (ln0 & Hl0 & _);
           destruct (HTs _ _ Hl0) as (ln0' & Hl0' & Etl0);
           exists l0, r0, ln0', rn'; split_and!; try done;
           [congruence | rewrite Etl0; by apply Hnl]
         | exfalso;
           rewrite (loop_again_null_left h3 a n3 r0 rn') in Eag;
           try done; simpl; congruence ]). }
    destruct again.
    { eapply fpost_compose with (h1 := h3) (R1 := R2) (F1 := F2)
        (k1 := R2 a) (a1 := Some a); eauto; lia. }
    rewrite (deref_Some _ _ _ Ht3) in Hrun. simpl in Hrun.
    apply bind_Ok in Hrun as ([h4 r] & Enr & Hrun).
    destruct (loop_again_false h3 a n3 Ht3 Eag)
      as [HU|(l0 & y & ln & rn & El & Er & Hl0 & Hy & Hrp & Hlu)].
    + (* the term is a union *)
      simpl in HU.
      destruct (right t) as [y|] eqn:Ey;
        [|by destruct (normalize_None _ _ _ Enr)].
      simpl in Hr, Hkr.
      assert (Hy3 : y < length h3) by lia.
      pose proof (Sn h3 R2 D2 y h4 r HI3 Hy3 Enr)
        as (R4 & D4 & HI4 & HE4 & Hr4 & Hdr & Hkr4).
      pose proof (IHn h3 R2 D2 F2 y h4 r HI3 HF3 Hy3 Enr)
        as (F4 & HF4 & Hi4 & Hfr4 & Hfin4 & _).
      pose proof HE4 as (HR4 & HD4 & HT4 & HF4').
      pose proof (evolve_length _ _ _ _ _ _ _ HE4) as Hlen4.
      assert (HRy : R2 y = R1 y) by (symmetry; apply HR2; lia).
      assert (Ht4 : h4 !! a = Some n3) by (apply HF4'; [done | lia]).
      pose proof (setRight_lookup _ _ r _ Ht4) as Ht5. simpl in Ht5.
      destruct (collapse_cases _ _ _ _ _ Ht5 Hrun) as [-> Hq]. simpl in Hq.
      assert (HF5 : FInv (setRight h4 a r) F4).
      { apply FInv_change with h4 a; auto using same_types_setRight.
        { intros c Hc. by apply setRight_lookup_ne. }
        intros _. eexists. split; [exact Ht5|].
        unfold fin_ok. simpl. by rewrite HU. }
      exists (fadd F4 a). split_and!.
      * eapply FInv_fadd; [exact HF5 | exact Ht5 |].
        unfold fin_ok. simpl. by rewrite HU.
      * intros c Hc. apply fadd_incl. auto.
      * intros c. unfold fadd. case_decide as Hca.
        { subst c. intros _.
          destruct (decide (a < length h)) as [Hlt|Hge]; [|right; left; lia].
          right; right. rewrite HR1 by done. lia. }
        intros Hc. destruct (Hfr4 c Hc) as [H1|[H1|H1]]; [by apply Hfr02 | ..].
        -- right; left; lia.
        -- destruct (decide (c < length h)) as [Hlt|Hge]; [|right; left; lia].
           right; right. rewrite HR3 by done. lia.
      * intros _. destruct Hq as [->|[->| ->]].
        -- apply Fp_fadd.
        -- destruct l as [l0|]; [|done]. simpl. apply fadd_incl, Hi4.
           by apply Hfin2.
        -- destruct r as [r0|]; [|done]. simpl. apply fadd_incl.
           by apply Hfin4.
      * intros H1 H2. destruct (Hcl1 H1 H2) as [_ H4].
        by destruct (H4 t Ht).
    + (* an intersection or difference over a primitive *)
      simpl in El, Er. subst l.
      destruct (normalize_prim f h3 y rn h4 r Hy Hrp) as [-> ->].
      { by rewrite Er in Enr. }
      replace (setRight h3 a (Some y)) with h3 in Hrun
        by (symmetry; rewrite <- Er; by apply (setRight_id h3 a n3)).
      unfold collapse in Hrun. rewrite (deref_Some _ _ _ Ht3) in Hrun.
      simpl in Hrun. rewrite Er in Hrun. injection Hrun as <- <-.
      exists (fadd F2 a). split_and!.
      * eapply FInv_fadd; [exact HF3 | exact Ht3 |].
        assert (Hok : exists l r ln rn,
          left n3 = Some l /\ right n3 = Some r /\
          h3 !! l = Some ln /\ h3 !! r = Some rn /\
          type rn = TYPE_PRIMITIVE /\ type ln <> TYPE_UNION /\
          fadd F2 a l = true).
        { exists l0, y, ln, rn. split_and!; try done.
          apply fadd_incl. by apply Hfin2. }
        unfold fin_ok. by destruct (type n3).
      * intros c Hc. apply fadd_incl. auto.
      * intros c. unfold fadd. case_decide as Hca; [|by apply Hfr02].
        subst c. intros _.
        destruct (decide (a < length h)) as [Hlt|Hge]; [|right; left; lia].
        right; right. rewrite HR1 by done. lia.
      * intros _. apply Fp_fadd.
      * intros H1 H2. split; [apply Fp_fadd|].
        by destruct (Hcl13 H1 H2).
Qed.

End FinishedFacts.

(** ** The constructors build such stores *)

Lemma built_nil : built [].
Proof. by intros a n H. Qed.

Lemma built_node_app h n a na :
  h !! a = Some na -> built_node h a na = true ->
  built_node (h ++ [n]) a na = true.
Proof.
  intros Ha. unfold built_node.
  destruct (type na); [done | ..];
    destruct (left na) as [l|], (right na) as [r|]; try done;
    destruct (h !! l) as [ln|] eqn:Hl, (h !! r) as [rn|] eqn:Hr; try done;
    rewrite !lookup_app_l, Hl, Hr by (by eapply lookup_lt_Some); done.
Qed.

Lemma built_app h n :
  built h -> built_node (h ++ [n]) (length h) n = true -> built (h ++ [n]).
Proof.
  intros Hb Hn a na Ha.
  destruct (decide (a < length h)) as [Hlt|Hge].
  - rewrite lookup_app_l in Ha by done. by apply built_node_app, Hb.
  - assert (a = length h) as ->.
    { apply lookup_lt_Some in Ha. rewrite length_app in Ha. simpl in Ha. lia. }
    rewrite list_lookup_middle in Ha by done. by injection Ha as <-.
Qed.

Lemma built_newPrimitive h ps mx c lbl h' q :
  built h -> newPrimitive h ps mx c lbl = Ok (h', q) -> built h'.
Proof.
  intros Hb. unfold newPrimitive, initBoundingBox.
  destruct ps as [s|]; [|done]. simpl. intros [= <- <-].
  by apply built_app.
Qed.

Lemma built_createCSGTerm h ty l r h' q :
  built h -> createCSGTerm h ty l r = Ok (h', q) -> built h'.
Proof.
  intros Hb H.
  destruct (createCSGTerm_cases _ _ _ _ _ _ H)
    as [[-> _]|(a & b & ln & rn & -> & -> & Ha & Hb' & Hty & -> & _)];
    [done|].
  apply built_app; [done|]. unfold built_node.
  pose proof (lookup_lt_Some _ _ _ Ha). pose proof (lookup_lt_Some _ _ _ Hb').
  destruct ty; [done | ..]; simpl;
    rewrite !lookup_app_l, Ha, Hb' by done;
    rewrite !bool_decide_eq_true_2 by done; done.
Qed.

(** [createCSGTerm] adds no primitive. *)
Lemma prims_sound_createCSGTerm inside h ty l r h' q :
  prims_sound inside h -> createCSGTerm h ty l r = Ok (h', q) ->
  prims_sound inside h'.
Proof.
  intros Hs H.
  destruct (createCSGTerm_cases _ _ _ _ _ _ H)
    as [[-> _]|(a & b & ln & rn & -> & -> & Ha & Hb' & Hty & -> & _)];
    [done|].
  intros c n p Hc Hp.
  destruct (decide (c < length h)) as [Hlt|Hge].
  - rewrite lookup_app_l in Hc by done. by eapply Hs.
  - assert (c = length h) as ->.
    { apply lookup_lt_Some in Hc. rewrite length_app in Hc. simpl in Hc. lia. }
    rewrite list_lookup_middle in Hc by done. injection Hc as <-.
    simpl in Hp. done.
Qed.

(** ** More steps do not change a result *)

Lemma tail_loop_mono f : forall f' h q r,
  tail_loop f h q = r -> r <> OutOfFuel -> f <= f' -> tail_loop f' h q = r.
Proof.
  induction f as [|f IH]; intros f' h q r H Hr Hle; [by subst|].
  destruct f' as [|f']; [lia|]. simpl in *.
  destruct q as [a|]; [|done].
  destruct (normalize_tail h (Some a)) as [[[h1 q1] again]| |]; simpl in *;
    [|done..].
  destruct again; [|done]. apply IH; [done | done | lia].
Qed.

Lemma normalize_mono f :
  (forall f' h q r,
     normalize f h q = r -> r <> OutOfFuel -> f <= f' ->
     normalize f' h q = r) /\
  (forall f' h q r,
     normalize_do f h q = r -> r <> OutOfFuel -> f <= f' ->
     normalize_do f' h q = r).
Proof.
  induction f as [|f [IHn IHd]]; [split; intros; by subst|]. split.
  - intros f' h q r H Hr Hle. destruct f' as [|f']; [lia|]. simpl in *.
    destruct (deref h q) as [t| |]; simpl in *; [|done..].
    case_decide; [done|]. apply IHd; [done | done | lia].
  - intros f' h q r H Hr Hle. destruct f' as [|f']; [lia|]. simpl in *.
    destruct (tail_loop f h q) as [[h1 term1]| |] eqn:Et; simpl in H;
      [| |by subst].
    2:{ rewrite (tail_loop_mono f f' h q Fault Et) by (done || lia). done. }
    rewrite (tail_loop_mono f f' h q _ Et) by (done || lia). simpl.
    destruct term1 as [a|]; [|done].
    destruct (deref h1 (Some a)) as [t| |]; simpl in *; [|done..].
    case_decide; [done|].
    destruct (normalize f h1 (left t)) as [[h2 l]| |] eqn:En; simpl in H;
      [| |by subst].
    2:{ rewrite (IHn f' h1 (left t) Fault En) by (done || lia). done. }
    rewrite (IHn f' h1 (left t) _ En) by (done || lia). simpl.
    destruct (loop_again (setLeft h2 a l) a) as [again| |]; simpl in *;
      [|done..].
    destruct again; [apply IHd; [done | done | lia]|].
    destruct (deref (setLeft h2 a l) (Some a)) as [t3| |]; simpl in *;
      [|done..].
    destruct (normalize f (setLeft h2 a l) (right t3)) as [[h4 r4]| |] eqn:En4;
      simpl in H; [| |by subst].
    2:{ rewrite (IHn f' _ (right t3) Fault En4) by (done || lia). done. }
    rewrite (IHn f' _ (right t3) _ En4) by (done || lia). done.
Qed.

Lemma loop_again_no_OutOfFuel h a : loop_again h a = OutOfFuel -> False.
Proof.
  unfold loop_again. destruct (deref h (Some a)) as [t| |] eqn:E; simpl;
    [|done|by destruct (deref_no_OutOfFuel _ _ E)].
  case_decide; [done|].
  destruct (deref h (right t)) as [rt| |] eqn:Er; simpl;
    [|done|by destruct (deref_no_OutOfFuel _ _ Er)].
  case_decide; [|done].
  destruct (deref h (left t)) as [lt| |] eqn:El; simpl;
    [done|done|by destruct (deref_no_OutOfFuel _ _ El)].
Qed.

Lemma collapse_no_OutOfFuel h a : collapse h a = OutOfFuel -> False.
Proof.
  unfold collapse. destruct (deref h (Some a)) as [t| |] eqn:E; simpl;
    [|done|by destruct (deref_no_OutOfFuel _ _ E)].
  by destruct (right t), (left t), (type t).
Qed.

Lemma normalize_S f h q :
  normalize (S f) h q =
    (t ← deref h q;
     if decide (type t = TYPE_PRIMITIVE) then Ok (h, q)
     else normalize_do f h q).
Proof. done. Qed.

(** One unfolding of the [do ... while] loop. *)
Lemma normalize_do_S f h q :
  normalize_do (S f) h q =
    ('(h1, term1) ← tail_loop f h q;
     match term1 with
     | None => Ok (h1, term1)
     | Some a =>
         t ← deref h1 term1;
         if decide (type t = TYPE_PRIMITIVE) then Ok (h1, term1)
         else
           '(h2, l) ← normalize f h1 (left t);
           let h3 := setLeft h2 a l in
           again ← loop_again h3 a;
           if again : bool then normalize_do f h3 term1
           else
             t3 ← deref h3 term1;
             '(h4, r) ← normalize f h3 (right t3);
             collapse (setRight h4 a r) a
     end).
Proof. done. Qed.

(** One rewriting step at the head of [normalize_do]. *)
Lemma normalize_do_step f h a h' q r :
  normalize_tail h (Some a) = Ok (h', q, true) ->
  normalize_do f h' q = r -> r <> OutOfFuel ->
  normalize_do (S f) h (Some a) = r.
Proof.
  intros Et Hr Hnt. destruct f as [|g]; [by subst|].
  pose proof (proj2 (normalize_mono (S g)) (S (S g)) h' q r Hr Hnt
                ltac:(lia)) as Hr'.
  assert (Htl : tail_loop g h' q <> OutOfFuel).
  { intros E. rewrite normalize_do_S, E in Hr. by subst. }
  rewrite normalize_do_S in Hr'.
  rewrite (tail_loop_mono g (S g) h' q _ eq_refl Htl) in Hr' by lia.
  rewrite <- Hr'. rewrite (normalize_do_S (S g) h).
  replace (tail_loop (S g) h (Some a)) with (tail_loop g h' q); [done|].
  simpl. by rewrite Et.
Qed.

(** ** [normalize] terminates on a valid store *)

Section Termination.

Variable inside : solid.
Variable p : Vector3d.

Local Abbreviation Inv := (Inv inside p).
Local Abbreviation post := (post inside p).

Lemma tail_loop_terminates k : forall h R D a,
  Inv h R D -> a < length h -> R a <= k ->
  exists f, tail_loop f h (Some a) <> OutOfFuel.
Proof.
  induction (lt_wf k) as [k _ IH]. intros h R D a HI Ha Hk.
  destruct (ptr_ok_lookup h a Ha) as [n Hn].
  destruct (normalize_tail_spec inside p h R D a n HI Hn)
    as [E|[[E _]|(h1 & q1 & k1 & E & HP & Hk1)]].
  - exists 1. simpl. by rewrite E.
  - exists 1. simpl. by rewrite E.
  - destruct q1 as [a1|].
    + destruct HP as (R1 & D1 & HI1 & HE1 & Ha1 & Hd1 & Hr1).
      simpl in Ha1, Hr1.
      destruct (IH (R1 a1) ltac:(lia) h1 R1 D1 a1 HI1 Ha1 ltac:(lia))
        as [f Hf].
      exists (S f). simpl. by rewrite E.
    + exists 2. simpl. by rewrite E.
Qed.

(** When the loop condition holds, the next call of [normalize_tail]
    rewrites the term (or dereferences null). *)
Lemma loop_again_progress h R D a n :
  Inv h R D -> h !! a = Some n -> type n <> TYPE_PRIMITIVE ->
  loop_again h a = Ok true ->
  normalize_tail h (Some a) = Fault \/
  exists h' q k,
    normalize_tail h (Some a) = Ok (h', q, true) /\
    post h R D (D a) k h' q /\ k < R a.
Proof.
  intros HI Hn Hp Hag.
  destruct (normalize_tail_spec inside p h R D a n HI Hn)
    as [E|[[E Hno]|H]]; [by left | | by right].
  exfalso. unfold loop_again in Hag.
  rewrite (deref_Some _ _ _ Hn) in Hag. simpl in Hag.
  case_decide as Hu; [done|].
  destruct Hno as [?|[?|(rn & ln & Er & Hrp & El & Hlu & _)]]; [done..|].
  rewrite Er in Hag. simpl in Hag. rewrite decide_True in Hag by done.
  rewrite El in Hag. simpl in Hag. injection Hag as Hag.
  by apply bool_decide_eq_true in Hag.
Qed.

Lemma normalize_do_terminates k : forall h R D a,
  Inv h R D -> a < length h -> R a <= k ->
  exists f, normalize_do f h (Some a) <> OutOfFuel.
Proof.
  induction (lt_wf k) as [k _ IH]. intros h R D a0 HI Ha0 Hk.
  assert (IHn : forall h R D x, Inv h R D -> x < length h -> R x < k ->
            exists f, normalize f h (Some x) <> OutOfFuel).
  { intros h' R' D' x HI' Hx Hkx.
    destruct (ptr_ok_lookup h' x Hx) as [n Hn].
    destruct (decide (type n = TYPE_PRIMITIVE)) as [Hp|Hp].
    - exists 1. simpl. rewrite (deref_Some _ _ _ Hn). simpl.
      by rewrite decide_True.
    - destruct (IH (R' x) Hkx h' R' D' x HI' Hx ltac:(lia)) as [f Hf].
      exists (S f). simpl. rewrite (deref_Some _ _ _ Hn). simpl.
      by rewrite decide_False. }
  destruct (tail_loop_terminates (R a0) h R D a0 HI Ha0 ltac:(lia))
    as [f1 Hf1].
  destruct (tail_loop f1 h (Some a0)) as [[h1 term1]| |] eqn:Et; [| |done].
  2:{ exists (S f1). simpl. by rewrite Et. }
  destruct (tail_loop_spec inside p f1 h R D a0 h1 term1 HI Ha0 Et)
    as [HP1 _].
  destruct term1 as [a|]; [|exists (S f1); simpl; by rewrite Et].
  pose proof HP1 as (R1 & D1 & HI1 & HE1 & Ha & Hd1 & Hk1).
  simpl in Ha, Hd1, Hk1.
  destruct (ptr_ok_lookup h1 a Ha) as [t Ht].
  destruct (decide (type t = TYPE_PRIMITIVE)) as [Hty|Hty].
  { exists (S f1). simpl. rewrite Et. simpl.
    rewrite (deref_Some _ _ _ Ht). simpl. by rewrite decide_True. }
  destruct (Inv_child_rank _ _ _ _ _ _ _ HI1 Ht Hty)
    as (Hl & Hr & Hkl & Hkr & HD1).
  destruct (left t) as [x|] eqn:Ex.
  2:{ exists (S (S f1)). rewrite normalize_do_S.
      rewrite (tail_loop_mono f1 (S f1) h (Some a0) _ Et) by (done || lia).
      simpl. rewrite (deref_Some _ _ _ Ht). simpl.
      rewrite decide_False by done. by rewrite Ex. }
  simpl in Hl, Hkl.
  destruct (IHn h1 R1 D1 x HI1 Hl ltac:(lia)) as [f2 Hf2].
  destruct (normalize f2 h1 (Some x)) as [[h2 l]| |] eqn:Enl; [| |done].
  2:{ exists (S (Nat.max f1 f2)). rewrite normalize_do_S.
      rewrite (tail_loop_mono f1 _ h (Some a0) _ Et) by (done || lia).
      simpl. rewrite (deref_Some _ _ _ Ht). simpl.
      rewrite decide_False by done. rewrite Ex.
      by rewrite (proj1 (normalize_mono f2) _ h1 (Some x) _ Enl)
        by (done || lia). }
  pose proof (proj1 (normalize_spec inside p f2) h1 R1 D1 x h2 l HI1 Hl Enl)
    as (R2 & D2 & HI2 & HE2 & Hl2 & Hdl & Hkl2).
  pose proof HE2 as (HR2 & HD2 & HT2 & HF2).
  pose proof (evolve_length _ _ _ _ _ _ _ HE2) as Hlen2.
  assert (Ht2 : h2 !! a = Some t) by (by apply HF2).
  assert (HI3 : Inv (setLeft h2 a l) R2 D2).
  { eapply Inv_setLeft; eauto; rewrite Ex; simpl;
      rewrite <- ?(HR2 x), <- ?(HD2 x) by done; done. }
  assert (HRa : R2 a = R1 a) by (symmetry; by apply HR2).
  pose proof (setLeft_lookup _ _ l _ Ht2) as Ht3.
  set (h3 := setLeft h2 a l) in *.
  set (n3 := mkCSGTerm (type t) (polyset t) (label t) l (right t) (bbox t)
               (m t) (color t)) in *.
  assert (Hlen3 : length h3 = length h2) by apply length_setLeft.
  assert (Ha3 : a < length h3) by lia.
  (* everything up to the loop condition, at any larger budget *)
  assert (Hprefix : forall N, Nat.max f1 f2 <= N ->
    normalize_do (S N) h (Some a0) =
      (again ← loop_again h3 a;
       if again : bool then normalize_do N h3 (Some a)
       else
         t3 ← deref h3 (Some a);
         '(h4, r) ← normalize N h3 (right t3);
         collapse (setRight h4 a r) a)).
  { intros N HN. rewrite normalize_do_S.
    rewrite (tail_loop_mono f1 N h (Some a0) _ Et) by (done || lia).
    simpl. rewrite (deref_Some _ _ _ Ht). simpl.
    rewrite decide_False by done. rewrite Ex.
    rewrite (proj1 (normalize_mono f2) N h1 (Some x) _ Enl)
      by (done || lia). done. }
  destruct (loop_again h3 a) as [again| |] eqn:Eag.
  3:{ by destruct (loop_again_no_OutOfFuel _ _ Eag). }
  2:{ exists (S (Nat.max f1 f2)). by rewrite Hprefix. }
  destruct again.
  - (* the loop is entered again: a rule applies *)
    assert (Hagain : exists f3, normalize_do f3 h3 (Some a) <> OutOfFuel).
    { destruct (loop_again_progress h3 R2 D2 a n3 HI3 Ht3 Hty Eag)
        as [E|(h' & q & kk & E & HP & Hkk)].
      - exists 2. simpl. by rewrite E.
      - destruct q as [a'|].
        + destruct HP as (R' & D' & HI' & HE' & Ha' & Hd' & Hr').
          simpl in Ha', Hr'.
          destruct (IH (R' a') ltac:(lia) h' R' D' a' HI' Ha' ltac:(lia))
            as [f Hf].
          exists (S f). by rewrite (normalize_do_step f h3 a h' _ _ E eq_refl).
        + exists 3. by rewrite (normalize_do_step 2 h3 a h' None _ E eq_refl). }
    destruct Hagain as [f3 Hf3].
    exists (S (Nat.max (Nat.max f1 f2) f3)). rewrite Hprefix by lia.
    simpl.
    by rewrite (proj2 (normalize_mono f3) _ h3 (Some a) _ eq_refl Hf3)
      by lia.
  - (* the loop is left: the right child is normalised *)
    destruct (right t) as [y|] eqn:Ey.
    2:{ exists (S (S (Nat.max f1 f2))). rewrite Hprefix by lia. simpl.
        rewrite (deref_Some _ _ _ Ht3). unfold n3. simpl. done. }
    simpl in Hr, Hkr.
    assert (Hy3 : y < length h3) by lia.
    assert (HRy : R2 y = R1 y) by (symmetry; apply HR2; lia).
    destruct (IHn h3 R2 D2 y HI3 Hy3 ltac:(lia)) as [f4 Hf4].
    exists (S (Nat.max (Nat.max f1 f2) f4)). rewrite Hprefix by lia.
    simpl. rewrite (deref_Some _ _ _ Ht3). unfold n3. simpl.
    rewrite (proj1 (normalize_mono f4) _ h3 (Some y) _ eq_refl Hf4) by lia.
    destruct (normalize f4 h3 (Some y)) as [[h4 r]| |]; simpl; [|done..].
    intros E. by destruct (collapse_no_OutOfFuel _ _ E).
Qed.

Lemma normalize_terminates h R D a :
  Inv h R D -> a < length h ->
  exists f, normalize f h (Some a) <> OutOfFuel.
Proof.
  intros HI Ha. destruct (ptr_ok_lookup h a Ha) as [n Hn].
  destruct (decide (type n = TYPE_PRIMITIVE)) as [Hp|Hp].
  - exists 1. simpl. rewrite (deref_Some _ _ _ Hn). simpl.
    by rewrite decide_True.
  - destruct (normalize_do_terminates (R a) h R D a HI Ha ltac:(lia))
      as [f Hf].
    exists (S f). simpl. rewrite (deref_Some _ _ _ Hn). simpl.
    by rewrite decide_False.
Qed.

End Termination.

(** * The claims *)

(** ** Construction and pruning *)

Lemma extend2_null v1 v2 :
  finite_vec v1 -> finite_vec v2 ->
  extend (extend nullBox v1) v2 = mkBox (cwise_min v1 v2) (cwise_max v1 v2).
Proof.
  unfold finite_vec, nullBox. generalize DBL_MAX. intros M.
  intros (? & ? & ?) (? & ? & ?).
  unfold extend, cwise_min, cwise_max; simpl. f_equal; f_equal; lia.
Qed.


Lemma vec_eta v : mkVec (vx v) (vy v) (vz v) = v.
Proof. by destruct v. Qed.


Lemma finite_cwise_min a b :
  finite_vec a -> finite_vec b -> finite_vec (cwise_min a b).
Proof.
  unfold finite_vec. generalize DBL_MAX. intros M (? & ? & ?) (? & ? & ?).
  simpl. split_and!; lia.
Qed.

Lemma finite_cwise_max a b :
  finite_vec a -> finite_vec b -> finite_vec (cwise_max a b).
Proof.
  unfold finite_vec. generalize DBL_MAX. intros M (? & ? & ?) (? & ? & ?).
  simpl. split_and!; lia.
Qed.

(** C4. With both children present: when the overlap box (maximum of the
    minima, minimum of the maxima) of the children's boxes is null,
    [createCSGTerm] returns the absent term for an intersection and the
    left child, unchanged, for a difference; for a union it never prunes
    and always constructs a new operator node. *)
Theorem createCSGTerm_pruning (h : list CSGTerm) (l r : nat)
    (ln rn : CSGTerm) :
  h !! l = Some ln -> h !! r = Some rn ->
  (isNull (overlap (bbox ln) (bbox rn)) = true ->
   createCSGTerm h TYPE_INTERSECTION (Some l) (Some r) = Ok (h, None) /\
   createCSGTerm h TYPE_DIFFERENCE (Some l) (Some r) = Ok (h, Some l)) /\
  createCSGTerm h TYPE_UNION (Some l) (Some r) =
    Ok (h ++ [mkCSGTerm TYPE_UNION None EmptyString (Some l) (Some r)
                (initBoundingBox_op TYPE_UNION Identity (bbox ln) (bbox rn))
                Identity noColor],
        Some (length h)).
Proof.
  intros Hl Hr. unfold createCSGTerm, newOperator, initBoundingBox.
  rewrite (deref_Some _ _ _ Hl), (deref_Some _ _ _ Hr). simpl.
  split; [|done]. intros ->. done.
Qed.

Lemma createCSGTerm_pruning_witness :
  createCSGTerm Examples.apart_store TYPE_INTERSECTION (Some 0) (Some 1)
    = Ok (Examples.apart_store, None) /\
  createCSGTerm Examples.apart_store TYPE_DIFFERENCE (Some 0) (Some 1)
    = Ok (Examples.apart_store, Some 0) /\
  exists n,
    createCSGTerm Examples.apart_store TYPE_UNION (Some 0) (Some 1)
      = Ok (Examples.apart_store ++ [n], Some 2) /\ type n = TYPE_UNION.
Proof.
  destruct (createCSGTerm_pruning Examples.apart_store 0 1 _ _
              eq_refl eq_refl) as [Hnull Hunion].
  destruct Hnull as [Hi Hd]; [vm_compute; reflexivity|].
  split; [exact Hi|]. split; [exact Hd|].
  eexists. split; [exact Hunion | reflexivity].
Defined.

(** C5. The absent-child identity laws: with an absent operand
    [createCSGTerm] returns, without an error and without building a
    node, the other operand for a union and for a difference with absent
    right side, and the absent term otherwise. *)
Theorem createCSGTerm_absent (h : list CSGTerm) (t : option nat) :
  createCSGTerm h TYPE_UNION t None = Ok (h, t) /\
  createCSGTerm h TYPE_DIFFERENCE t None = Ok (h, t) /\
  createCSGTerm h TYPE_INTERSECTION t None = Ok (h, None) /\
  createCSGTerm h TYPE_UNION None t = Ok (h, t) /\
  createCSGTerm h TYPE_INTERSECTION None t = Ok (h, None) /\
  createCSGTerm h TYPE_DIFFERENCE None t = Ok (h, None).
Proof. unfold createCSGTerm. by destruct t. Qed.

(** C9, at the failing input.  The primitive constructor transforms the
    two corners [min] and [max] of the solid's box only.  For the unit cube
    under the map [(x, y, z) -> (x - y, x + y, z)] the cached box is the
    segment from (0,0,0) to (0,2,1): the corner (1,0,1) of the cube lies in
    the solid's own box, but its image (1,1,1) lies outside the cached box.
    That image also lies in the cube from 1 to 2, and the intersection of
    the two primitives is pruned to the absent term all the same. *)
Theorem initBoundingBox_prim_misses_corner :
  initBoundingBox_prim Examples.turn45 (Examples.unitBox 0 1)
    = mkBox (mkVec 0 0 0) (mkVec 0 2 1) /\
  contains (Examples.unitBox 0 1) (mkVec 1 0 1) = true /\
  apply Examples.turn45 (mkVec 1 0 1) = mkVec 1 1 1 /\
  contains (initBoundingBox_prim Examples.turn45 (Examples.unitBox 0 1))
           (mkVec 1 1 1) = false /\
  contains (initBoundingBox_prim Identity (Examples.unitBox 1 2))
           (mkVec 1 1 1) = true /\
  ('(h1, a) ← newPrimitive [] (Examples.cube 0 0 1) Examples.turn45
                 noColor "a";
   '(h2, b) ← newPrimitive h1 (Examples.cube 1 1 2) Identity noColor "b";
   '(h3, q) ← createCSGTerm h2 TYPE_INTERSECTION a b;
   Ok q) = Ok None.
Proof. vm_compute. split_and!; reflexivity. Qed.



(** ** One step of rewriting *)

Lemma normalize_tail_no_rule h a n :
  h !! a = Some n -> no_rule h n ->
  normalize_tail h (Some a) = Ok (h, Some a, false).
Proof.
  intros Hn Hno. unfold normalize_tail.
  rewrite (deref_Some _ _ _ Hn). simpl.
  destruct Hno as [Hu|[Hp|(rn & ln & Er & Hrp & El & Hlu & H7)]].
  - by rewrite Hu.
  - by rewrite Hp.
  - rewrite Er, El. simpl. rewrite Hrp.
    destruct (type n), (type ln); try done. by destruct H7.
Qed.

Lemma create_left_flag h t t1 a b c h' q f :
  create_left h t t1 a b c = Ok (h', q, f) -> f = true.
Proof.
  unfold create_left. intros H.
  apply bind_Ok in H as ([h1 u] & _ & H).
  apply bind_Ok in H as ([h2 w] & _ & H). by injection H.
Qed.

Lemma create_both_flag h t t1 t2 a b c d h' q f :
  create_both h t t1 t2 a b c d = Ok (h', q, f) -> f = true.
Proof.
  unfold create_both. intros H.
  apply bind_Ok in H as ([h1 u] & _ & H).
  apply bind_Ok in H as ([h2 v] & _ & H).
  apply bind_Ok in H as ([h3 w] & _ & H). by injection H.
Qed.

(** "No rewrite" is returned only when no rule applies. *)
Lemma normalize_tail_false h a n h' q :
  h !! a = Some n -> normalize_tail h (Some a) = Ok (h', q, false) ->
  no_rule h n.
Proof.
  intros Hn. unfold normalize_tail.
  rewrite (deref_Some _ _ _ Hn). simpl. intros H.
  destruct (type n) eqn:Et; [by right; left | by left | ..].
  all: apply bind_Ok in H as (rt & Ert & H).
  all: destruct (type rt) eqn:Etr;
    try (by apply create_left_flag in H);
    try (by apply create_both_flag in H).
  all: apply bind_Ok in H as (lt & Elt & H).
  all: destruct (type lt) eqn:Etl;
    try (by apply create_left_flag in H);
    try (by apply create_both_flag in H).
  all: right; right; exists rt, lt; rewrite Etl; split_and!; try done;
    intros [? ?]; congruence.
Qed.

(** C3, as the code has it.  [normalize_tail] returns "no rewrite" and
    leaves its argument and the store unchanged for every primitive, for
    every union, and for every intersection or difference whose right
    child is a primitive and whose left child is present and is neither a
    union nor, under an intersection, a difference; and these are the only
    terms for which it returns "no rewrite". *)
Theorem normalize_tail_no_rewrite (h : list CSGTerm) (a : nat)
    (n : CSGTerm) :
  h !! a = Some n ->
  (type n = TYPE_UNION \/ type n = TYPE_PRIMITIVE \/
   exists rn ln,
     deref h (right n) = Ok rn /\ type rn = TYPE_PRIMITIVE /\
     deref h (left n) = Ok ln /\ type ln <> TYPE_UNION /\
     ~ (type n = TYPE_INTERSECTION /\ type ln = TYPE_DIFFERENCE)) <->
  normalize_tail h (Some a) = Ok (h, Some a, false).
Proof.
  intros Hn. split.
  - intros Hno. by apply normalize_tail_no_rule with n.
  - intros H. by apply (normalize_tail_false h a n h (Some a)).
Qed.

Lemma normalize_tail_no_rewrite_witness :
  normalize_tail Examples.abcp_store (Some 4)
    = Ok (Examples.abcp_store, Some 4, false).
Proof.
  eapply normalize_tail_no_rewrite; [reflexivity|].
  right; right. eexists _, _.
  split; [reflexivity|]. split; [reflexivity|].
  split; [reflexivity|]. split; [discriminate|].
  intros [H _]. discriminate H.
Defined.

(** C3, as the spec has it, fails: the term [(x - y) * p] is an
    intersection whose right child is a primitive, and [normalize_tail]
    rewrites it, by rule 7, to the new term [(x * p) - y]. *)
Lemma normalize_tail_rewrites_primitive_right :
  exists n rn h' q,
    Examples.xyp_store !! 4 = Some n /\ type n = TYPE_INTERSECTION /\
    deref Examples.xyp_store (right n) = Ok rn /\
    type rn = TYPE_PRIMITIVE /\
    normalize_tail Examples.xyp_store (Some 4) = Ok (h', q, true) /\
    dump 5 Examples.xyp_store (Some 4) = Ok "((x - y) * p)" /\
    dump 5 h' q = Ok "((x * p) - y)".
Proof.
  eexists _, _, _, _. split; [reflexivity|].
  split; [reflexivity|]. split; [reflexivity|]. split; [reflexivity|].
  split; [vm_compute; reflexivity|]. split; vm_compute; reflexivity.
Qed.

(** ** Chains *)


Lemma records_add c ps mx col ty lbl :
  chain_wf c ->
  records (add c ps mx col ty lbl) = records c ++ [(ps, mx, col, ty, lbl)] /\
  chain_wf (add c ps mx col ty lbl).
Proof.
  intros (H1 & H2 & H3 & H4). split.
  - unfold records, add. simpl.
    rewrite !zip_with_app; try done; rewrite ?length_zip_with; lia.
  - unfold chain_wf, add. simpl. rewrite !length_app. simpl. lia.
Qed.


Lemma repr_full_Some h q T : repr h q T -> full T -> exists a, q = Some a.
Proof. intros Hr Hf. destruct Hr; [done | eauto..]. Qed.

Lemma import_repr T : forall h q c kind fuel,
  repr h q T -> full T -> chain_wf c -> depth T < fuel ->
  exists c',
    import fuel h c q kind = Ok c' /\
    records c' = records c ++ flatten T kind /\ chain_wf c'.
Proof.
  induction T as [|n|n l IHl r IHr]; intros h q c kind fuel Hr Hf Hc Hd.
  - done.
  - inversion Hr as [|a n' Hn Hp|]; subst.
    destruct fuel as [|f]; [lia|]. simpl.
    rewrite (deref_Some _ _ _ Hn). simpl. rewrite decide_True by done.
    eexists. split; [done|]. by apply records_add.
  - inversion Hr as [| |a n' l' r' Hn Hp Hl Hrr]; subst.
    destruct Hf as [Hfl Hfr].
    destruct fuel as [|f]; [lia|]. simpl in Hd |- *.
    rewrite (deref_Some _ _ _ Hn). simpl. rewrite decide_False by done.
    destruct (IHl h (left n) c kind f Hl Hfl Hc ltac:(lia))
      as (c1 & E1 & R1 & W1).
    rewrite E1. simpl.
    destruct (IHr h (right n) c1 (type n) f Hrr Hfr W1 ltac:(lia))
      as (c2 & E2 & R2 & W2).
    exists c2. split; [done|]. split; [|done].
    by rewrite R2, R1, app_assoc.
Qed.

Lemma flatten_length T kind : length (flatten T kind) = leaves T.
Proof.
  revert kind. induction T as [|n|n l IHl r IHr]; intros kind; simpl;
    [done..|].
  by rewrite length_app, IHl, IHr.
Qed.

(** C7. [import] appends exactly one record per primitive leaf, in
    left-to-right depth-first order: a primitive is tagged with the
    caller's kind, an operator node passes the caller's kind to its left
    child and its own kind to its right child. *)
Theorem import_flatten (h : list CSGTerm) (a : nat) (T : tree)
    (c : CSGChain) (kind : type_e) (fuel : nat) :
  repr h (Some a) T -> full T -> chain_wf c -> depth T < fuel ->
  exists c',
    import fuel h c (Some a) kind = Ok c' /\
    records c' = records c ++ flatten T kind /\
    length (records c') = length (records c) + leaves T /\
    chain_wf c'.
Proof.
  intros Hr Hf Hc Hd.
  destruct (import_repr T h (Some a) c kind fuel Hr Hf Hc Hd)
    as (c' & E & R & W).
  exists c'. split_and!; try done.
  by rewrite R, length_app, flatten_length.
Qed.

Lemma import_flatten_witness :
  exists c',
    import 3 Examples.scenario_store emptyChain Examples.scenario_root
      TYPE_UNION = Ok c' /\
    records c' =
      [(Examples.cube 0 0 1, Identity, noColor, TYPE_UNION, "A"%string);
       (Examples.cube 1 0 1, Identity, noColor, TYPE_UNION, "B"%string);
       (Examples.cube 2 0 1, Identity, noColor, TYPE_DIFFERENCE,
        "C"%string)] /\
    length (records c') = 3.
Proof.
  destruct (import_flatten Examples.scenario_store 4 Examples.scenario_tree
              emptyChain TYPE_UNION 3) as (c' & E & R & L & _).
  - apply (unfold_repr 5). vm_compute. reflexivity.
  - simpl. tauto.
  - unfold chain_wf. simpl. tauto.
  - simpl. lia.
  - exists c'. split; [exact E|]. split; [exact R | exact L].
Defined.



(** C8, at the failing input.  [getBoundingBox] extends the running box
    by the two transformed corners [t * psbox.min()] and
    [t * psbox.max()] of a record, not over the transformed box of its
    solid.  For the chain of one record, the unit cube under the map
    [(x, y, z) -> (x - y, x + y, z)] added as a union, it returns the
    segment from (0,0,0) to (0,2,1), whereas the transformed box of the
    cube, which the words of the spec ask the result to cover, reaches
    from (-1,0,0) to (1,2,1): the corner (1,0,1) of the cube has the image
    (1,1,1), which lies outside the returned box.  On the chain of the
    bounding-box scenario, whose matrices are the identity, the code and
    the words of the spec give the same box. *)
Theorem getBoundingBox_misses_corner :
  getBoundingBox Examples.turned_chain
    = Ok (mkBox (mkVec 0 0 0) (mkVec 0 2 1)) /\
  spec_chain_box Examples.turned_chain
    = mkBox (mkVec (-1) 0 0) (mkVec 1 2 1) /\
  contains (Examples.unitBox 0 1) (mkVec 1 0 1) = true /\
  apply Examples.turn45 (mkVec 1 0 1) = mkVec 1 1 1 /\
  contains (spec_chain_box Examples.turned_chain) (mkVec 1 1 1) = true /\
  (forall b, getBoundingBox Examples.turned_chain = Ok b ->
             contains b (mkVec 1 1 1) = false) /\
  getBoundingBox Examples.scenario_chain
    = Ok (spec_chain_box Examples.scenario_chain).
Proof.
  split_and!; try (vm_compute; reflexivity).
  intros b H. vm_compute in H. injection H as <-. reflexivity.
Qed.

(** ** Normalisation *)

Lemma repr_lookup h a T : repr h (Some a) T -> a < length h.
Proof. intros H. inversion H; subst; by eapply lookup_lt_Some. Qed.

Lemma prims_sound_trivial h : prims_sound (fun _ _ _ => false) h.
Proof. intros a n p _ _ H. unfold prim_member in H. by destruct (polyset n). Qed.

Lemma abcp_built : built Examples.abcp_store.
Proof.
  intros a n H.
  do 7 (destruct a as [|a]; [injection H as <-; vm_compute; reflexivity|]).
  discriminate H.
Defined.

(** *** Idempotence *)

Lemma settled_full T : settled T -> full T.
Proof.
  induction T as [|n|n l IHl r IHr]; simpl; [done..|].
  intros (? & ? & _). auto.
Qed.

Lemma dump_repr T : forall h q k,
  repr h q T -> full T -> depth T < k -> dump k h q = Ok (dump_tree T).
Proof.
  induction T as [|n|n l IHl r IHr]; intros h q k Hr Hf Hd; [done| |].
  - inversion Hr as [|a n' Hn Hp|]; subst.
    destruct k as [|k]; [lia|]. simpl.
    rewrite (deref_Some _ _ _ Hn). simpl. by rewrite Hp.
  - inversion Hr as [| |a n' l' r' Hn Hp Hl Hrr]; subst.
    destruct Hf as [Hfl Hfr].
    destruct k as [|k]; [lia|]. simpl in Hd |- *.
    rewrite (deref_Some _ _ _ Hn). simpl.
    rewrite (IHl h (left n) k Hl Hfl) by lia.
    rewrite (IHr h (right n) k Hrr Hfr) by lia.
    by destruct (type n).
Qed.

(** On a tree to which no rule applies anywhere [normalize] changes
    nothing. *)
Lemma normalize_settled T : forall h a f,
  repr h (Some a) T -> settled T -> 2 * depth T + 2 <= f ->
  normalize f h (Some a) = Ok (h, Some a).
Proof.
  induction T as [|n|n l IHl r IHr]; intros h a f Hr Hs Hf; [done| |].
  - inversion Hr as [|a' n' Hn Hp|]; subst.
    destruct f as [|f]; [lia|]. simpl.
    rewrite (deref_Some _ _ _ Hn). simpl. by rewrite decide_True.
  - inversion Hr as [| |a' n' l' r' Hn Hp Hl Hrr]; subst.
    destruct Hs as (Hsl & Hsr & Hc). simpl in Hf.
    destruct (repr_full_Some _ _ _ Hl (settled_full _ Hsl)) as [al El].
    destruct (repr_full_Some _ _ _ Hrr (settled_full _ Hsr)) as [ar Er].
    rewrite El in Hl. rewrite Er in Hrr.
    pose proof (repr_lookup _ _ _ Hl) as Hal.
    pose proof (repr_lookup _ _ _ Hrr) as Har.
    destruct (ptr_ok_lookup h al Hal) as [ln Hln].
    destruct (ptr_ok_lookup h ar Har) as [rn Hrn].
    assert (Hcase : type n = TYPE_UNION \/
              (type n <> TYPE_UNION /\ type rn = TYPE_PRIMITIVE /\
               type ln <> TYPE_UNION /\
               ~ (type n = TYPE_INTERSECTION /\ type ln = TYPE_DIFFERENCE))).
    { destruct (decide (type n = TYPE_UNION)) as [?|Hu]; [by left|].
      right. destruct Hc as [?|(Hpr & Hlu & H7)]; [done|].
      rewrite (repr_type _ _ _ _ Hl Hln) in Hlu, H7.
      split_and!; try done.
      - destruct r; try done. inversion Hrr; subst. congruence.
      - congruence.
      - intros [? ?]. apply H7. split; congruence. }
    assert (Hno : no_rule h n).
    { destruct Hcase as [?|(_ & ? & ? & ?)]; [by left|].
      right; right. exists rn, ln. rewrite El, Er.
      rewrite (deref_Some _ _ _ Hln), (deref_Some _ _ _ Hrn). done. }
    assert (Hag : loop_again h a = Ok false).
    { unfold loop_again. rewrite (deref_Some _ _ _ Hn). simpl.
      destruct Hcase as [?|(? & ? & ? & _)]; [by rewrite decide_True|].
      rewrite decide_False by done.
      rewrite Er, (deref_Some _ _ _ Hrn). simpl.
      rewrite decide_True by done.
      rewrite El, (deref_Some _ _ _ Hln). simpl.
      by rewrite bool_decide_eq_false_2. }
    destruct f as [|[|[|f]]]; [lia..|].
    rewrite normalize_S, (deref_Some _ _ _ Hn). cbn [mbind res_bind].
    rewrite decide_False by done.
    rewrite normalize_do_S. cbn [tail_loop].
    rewrite (normalize_tail_no_rule h a n Hn Hno). cbn [mbind res_bind].
    rewrite (deref_Some _ _ _ Hn). cbn [mbind res_bind].
    rewrite decide_False by done.
    rewrite El, (IHl h al (S f) Hl Hsl) by lia. cbn [mbind res_bind].
    rewrite <- El, (setLeft_id h a n Hn), Hag. cbn [mbind res_bind].
    rewrite (deref_Some _ _ _ Hn). cbn [mbind res_bind].
    rewrite Er, (IHr h ar (S f) Hrr Hsr) by lia. cbn [mbind res_bind].
    rewrite <- Er, (setRight_id h a n Hn).
    unfold collapse. rewrite (deref_Some _ _ _ Hn). cbn [mbind res_bind].
    by rewrite El, Er.
Qed.

(** C6, as the code has it.  When the tree returned by [normalize] is
    settled (no child is absent and no rule of [normalize_tail] applies at
    any node), normalising it again returns the same term in the same
    store, so the two dump strings are equal. *)
Theorem normalize_idempotent_on_settled (h : list CSGTerm) (a : nat)
    (fuel : nat) (h1 : list CSGTerm) (q1 : option nat) (T1 : tree) :
  normalize fuel h (Some a) = Ok (h1, q1) ->
  repr h1 q1 T1 -> settled T1 ->
  forall f, 2 * depth T1 + 2 <= f ->
    exists h2 q2,
      normalize f h1 q1 = Ok (h2, q2) /\
      dump f h2 q2 = Ok (dump_tree T1) /\
      dump f h1 q1 = Ok (dump_tree T1).
Proof.
  intros _ Hr Hs f Hf.
  destruct (repr_full_Some _ _ _ Hr (settled_full _ Hs)) as [a1 ->].
  exists h1, (Some a1). split; [by apply normalize_settled with T1|].
  split; apply dump_repr; auto using settled_full; lia.
Qed.

Lemma normalize_idempotent_on_settled_witness :
  exists h1 q1 h2 q2,
    normalize 20 Examples.xyp_store (Some 4) = Ok (h1, q1) /\
    normalize 20 h1 q1 = Ok (h2, q2) /\
    dump 20 h2 q2 = Ok "((x * p) - y)"%string /\
    dump 20 h1 q1 = Ok "((x * p) - y)"%string.
Proof.
  destruct (normalize_idempotent_on_settled Examples.xyp_store 4 20
              (Examples.store_of (normalize 20 Examples.xyp_store (Some 4)))
              (Examples.root_of (normalize 20 Examples.xyp_store (Some 4)))
              (Examples.tree_of
                 (Examples.store_of (normalize 20 Examples.xyp_store (Some 4)))
                 (Examples.root_of (normalize 20 Examples.xyp_store (Some 4)))))
    with (f := 20) as (h2 & q2 & E & Hd2 & Hd1).
  - vm_compute. reflexivity.
  - apply (unfold_repr 8). vm_compute. reflexivity.
  - vm_compute. split_and!; try exact I; try (right; split_and!);
      try exact I; try discriminate; intros [? ?]; discriminate.
  - vm_compute. lia.
  - eexists _, _, h2, q2. split; [vm_compute; reflexivity|].
    split; [exact E|]. split; [exact Hd2 | exact Hd1].
Defined.

(** C6, as the spec has it, fails.  For [(a * (b - c)) * p] over four
    overlapping cubes the first normalisation stops at
    [((a * b) - c) * p], in which rule 7 applies at the root; a second
    one rewrites it to [((a * b) * p) - c]. *)
Lemma normalize_not_idempotent :
  exists h1 q1 h2 q2,
    Examples.build_abcp = Ok (Examples.abcp_store, Examples.abcp_root) /\
    normalize 20 Examples.abcp_store Examples.abcp_root = Ok (h1, q1) /\
    normalize 20 h1 q1 = Ok (h2, q2) /\
    dump 20 Examples.abcp_store Examples.abcp_root
      = Ok "((a * (b - c)) * p)"%string /\
    dump 20 h1 q1 = Ok "(((a * b) - c) * p)"%string /\
    dump 20 h2 q2 = Ok "(((a * b) * p) - c)"%string.
Proof.
  exists (Examples.store_of Examples.abcp_once),
         (Examples.root_of Examples.abcp_once),
         (Examples.store_of Examples.abcp_twice),
         (Examples.root_of Examples.abcp_twice).
  split_and!; vm_compute; reflexivity.
Qed.

(** ** Finite boxes *)

Lemma DBL_MAX_pos : (0 < DBL_MAX)%Z.
Proof. vm_compute. reflexivity. Qed.

Lemma finite_box_null : finite_box nullBox.
Proof.
  pose proof DBL_MAX_pos as HM. revert HM.
  unfold finite_box, finite_vec, nullBox. generalize DBL_MAX. intros M HM.
  simpl. lia.
Qed.

(** Boxes of moderate size are finite. *)
Lemma small_finite_box b :
  contains (mkBox (mkVec (-1000) (-1000) (-1000)) (mkVec 1000 1000 1000))
           (bmin b) = true ->
  contains (mkBox (mkVec (-1000) (-1000) (-1000)) (mkVec 1000 1000 1000))
           (bmax b) = true ->
  finite_box b.
Proof.
  assert (HM : (1000 <= DBL_MAX)%Z) by (vm_compute; discriminate).
  revert HM. rewrite !contains_spec. unfold finite_box, finite_vec.
  generalize DBL_MAX. simpl. intros M HM (? & ? & ?) (? & ? & ?).
  split; split_and!; lia.
Qed.

Lemma extend2_finite v1 v2 :
  finite_vec v1 -> finite_vec v2 ->
  finite_box (extend (extend nullBox v1) v2).
Proof.
  intros H1 H2. rewrite extend2_null by done.
  split; simpl; auto using finite_cwise_min, finite_cwise_max.
Qed.

Lemma abs_sum_bound (a b c d M : Z) :
  (Z.abs a + Z.abs b + Z.abs c + Z.abs d <= M ->
   - M <= a + b + c + d <= M)%Z.
Proof. lia. Qed.

(** Without overflow the transformed point is finite. *)
Lemma no_overflow_finite t v : no_overflow t v -> finite_vec (apply t v).
Proof.
  intros (_ & _ & H1 & H2 & H3).
  unfold finite_vec, apply. simpl.
  split_and!; by apply abs_sum_bound.
Qed.

(** The identity overflows on no finite point. *)
Lemma no_overflow_Identity v : finite_vec v -> no_overflow Identity v.
Proof.
  intros Hv. pose proof DBL_MAX_pos as HM. revert Hv HM.
  unfold no_overflow, finite_transform, finite_vec, Identity.
  generalize DBL_MAX. simpl. intros M (? & ? & ?) HM.
  split; [split_and!; lia|]. split; [done|]. split_and!; lia.
Qed.

(** The operator branch of [initBoundingBox] keeps boxes finite. *)
Lemma initBoundingBox_op_finite ty lb rb :
  finite_box lb -> finite_box rb ->
  finite_box (initBoundingBox_op ty Identity lb rb).
Proof.
  intros [Hl1 Hl2] [Hr1 Hr2].
  destruct ty; unfold initBoundingBox_op; rewrite ?apply_Identity;
    [apply finite_box_null | ..]; apply extend2_finite;
    auto using finite_cwise_min, finite_cwise_max.
Qed.

(** In a store built by the constructors over primitives with finite
    boxes every cached box is finite. *)
Lemma built_boxes_finite h : built h -> prims_finite h -> boxes_finite h.
Proof.
  intros Hb Hp a. induction (lt_wf a) as [a _ IH]. intros n Hn.
  destruct (decide (type n = TYPE_PRIMITIVE)) as [Hty|Hty];
    [by eapply Hp|].
  destruct (built_op _ _ _ Hb Hn Hty)
    as (l & r & ln & rn & _ & _ & Hl & Hr & Hla & Hra & ->).
  apply initBoundingBox_op_finite; eauto.
Qed.

Lemma boxes_finite_prims h : boxes_finite h -> prims_finite h.
Proof. intros H a n Hn _. by eapply H. Qed.

Lemma boxes_finite_app h n :
  boxes_finite h -> finite_box (bbox n) -> boxes_finite (h ++ [n]).
Proof.
  intros Hh Hn b nb Hb.
  destruct (decide (b < length h)) as [Hlt|Hge].
  - rewrite lookup_app_l in Hb by done. by eapply Hh.
  - rewrite lookup_app_r in Hb by lia.
    destruct (b - length h) as [|k]; [|by destruct k].
    by injection Hb as <-.
Qed.

Lemma boxes_finite_setLeft h a l :
  boxes_finite h -> boxes_finite (setLeft h a l).
Proof.
  intros Hh b nb Hb. destruct (h !! a) as [n|] eqn:Hn.
  2:{ unfold setLeft in Hb. rewrite Hn in Hb. by eapply Hh. }
  destruct (decide (a = b)) as [<-|Hne].
  - rewrite (setLeft_lookup _ _ _ _ Hn) in Hb. injection Hb as <-. simpl.
    by eapply Hh.
  - rewrite setLeft_lookup_ne in Hb by done. by eapply Hh.
Qed.

Lemma boxes_finite_setRight h a r :
  boxes_finite h -> boxes_finite (setRight h a r).
Proof.
  intros Hh b nb Hb. destruct (h !! a) as [n|] eqn:Hn.
  2:{ unfold setRight in Hb. rewrite Hn in Hb. by eapply Hh. }
  destruct (decide (a = b)) as [<-|Hne].
  - rewrite (setRight_lookup _ _ _ _ Hn) in Hb. injection Hb as <-. simpl.
    by eapply Hh.
  - rewrite setRight_lookup_ne in Hb by done. by eapply Hh.
Qed.

(** Every box [createCSGTerm] and [normalize] compute from finite boxes is
    finite: the run stays in the range in which the integer coordinates
    are those of the source. *)
Lemma createCSGTerm_finite h ty l r h' q :
  boxes_finite h -> createCSGTerm h ty l r = Ok (h', q) -> boxes_finite h'.
Proof.
  intros Hh H. destruct (createCSGTerm_cases _ _ _ _ _ _ H)
    as [[-> _]|(a & b & ln & rn & _ & _ & Hl & Hr & _ & -> & _)]; [done|].
  apply boxes_finite_app; [done|]. simpl.
  apply initBoundingBox_op_finite; eauto.
Qed.

Lemma create_left_finite h t t1 a b c h' q f :
  boxes_finite h -> create_left h t t1 a b c = Ok (h', q, f) ->
  boxes_finite h'.
Proof.
  unfold create_left. intros Hh H.
  apply bind_Ok in H as ([h1 u] & E1 & H).
  apply bind_Ok in H as ([h2 w] & E2 & H). injection H as <- <- <-.
  eauto using createCSGTerm_finite.
Qed.

Lemma create_both_finite h t t1 t2 a b c d h' q f :
  boxes_finite h -> create_both h t t1 t2 a b c d = Ok (h', q, f) ->
  boxes_finite h'.
Proof.
  unfold create_both. intros Hh H.
  apply bind_Ok in H as ([h1 u] & E1 & H).
  apply bind_Ok in H as ([h2 v] & E2 & H).
  apply bind_Ok in H as ([h3 w] & E3 & H). injection H as <- <- <-.
  eapply createCSGTerm_finite; [|exact E3].
  eapply createCSGTerm_finite; [|exact E2].
  by eapply createCSGTerm_finite.
Qed.

Lemma normalize_tail_finite h q h' q' f :
  boxes_finite h -> normalize_tail h q = Ok (h', q', f) -> boxes_finite h'.
Proof.
  unfold normalize_tail. intros Hh H.
  apply bind_Ok in H as (t & Et & H).
  destruct (type t); try (by injection H as <- <- <-).
  all: apply bind_Ok in H as (rt & Ert & H).
  all: destruct (type rt);
    try (by eapply create_left_finite); try (by eapply create_both_finite).
  all: apply bind_Ok in H as (lt & Elt & H).
  all: destruct (type lt); try (by injection H as <- <- <-);
    try (by eapply create_left_finite); try (by eapply create_both_finite).
Qed.

Lemma tail_loop_finite fuel : forall h q h' q',
  boxes_finite h -> tail_loop fuel h q = Ok (h', q') -> boxes_finite h'.
Proof.
  induction fuel as [|f IH]; intros h q h' q' Hh; [done|]. simpl.
  destruct q as [a|]; [|by intros [= <- <-]].
  intros H. apply bind_Ok in H as ([[h1 q1] again] & Et & H).
  apply normalize_tail_finite in Et; [|done].
  destruct again; [by eapply IH | by injection H as <- <-].
Qed.

Lemma normalize_finite fuel :
  (forall h q h' q',
     boxes_finite h -> normalize fuel h q = Ok (h', q') -> boxes_finite h') /\
  (forall h q h' q',
     boxes_finite h -> normalize_do fuel h q = Ok (h', q') ->
     boxes_finite h').
Proof.
  induction fuel as [|f [IHn IHd]]; [done|]. split.
  - intros h q h' q' Hh. rewrite normalize_S. intros H.
    apply bind_Ok in H as (t & Et & H).
    case_decide; [by injection H as <- <-|]. eauto.
  - intros h q h' q' Hh. rewrite normalize_do_S. intros H.
    apply bind_Ok in H as ([h1 term1] & Et & H).
    apply tail_loop_finite in Et; [|done].
    destruct term1 as [a|]; [|by injection H as <- <-].
    apply bind_Ok in H as (t & Ed & H).
    case_decide as Hty; [by injection H as <- <-|].
    apply bind_Ok in H as ([h2 l] & En & H).
    apply IHn in En; [|done].
    pose proof (boxes_finite_setLeft h2 a l En) as H3.
    cbn zeta in H.
    apply bind_Ok in H as (again & Eag & H).
    destruct again; [by eapply IHd|].
    apply bind_Ok in H as (t3 & Ed3 & H).
    apply bind_Ok in H as ([h4 r] & En4 & H).
    apply IHn in En4; [|done].
    pose proof (boxes_finite_setRight h4 a r En4) as H5.
    assert (h' = setRight h4 a r) as ->; [|done].
    unfold collapse in H. apply bind_Ok in H as (t5 & _ & H).
    destruct (right t5), (left t5), (type t5); by injection H as <- _.
Qed.

(** * Further properties of the code *)

(** ** More on construction *)

(** A box that has been extended twice is not null, whatever it was. *)
Lemma extend2_not_null b v1 v2 : isNull (extend (extend b v1) v2) = false.
Proof.
  apply not_true_iff_false. rewrite isNull_spec. simpl.
  intros [H|[H|H]]; lia.
Qed.

Lemma extend_not_null b v : isNull b = false -> isNull (extend b v) = false.
Proof.
  intros H. apply not_true_iff_false in H. rewrite isNull_spec in H.
  apply not_true_iff_false. rewrite isNull_spec. simpl. lia.
Qed.

Lemma createCSGTerm_total h ty l r :
  ty <> TYPE_PRIMITIVE -> ptr_ok h l -> ptr_ok h r ->
  exists h' q, createCSGTerm h ty l r = Ok (h', q).
Proof.
  intros Hty Hl Hr. unfold createCSGTerm, newOperator, initBoundingBox.
  destruct r as [b|]; [|destruct ty; try done; eauto].
  destruct l as [a|]; [|destruct ty; try done; eauto].
  destruct (ptr_ok_lookup h a Hl) as [ln Hln].
  destruct (ptr_ok_lookup h b Hr) as [rn Hrn].
  rewrite (deref_Some _ _ _ Hln), (deref_Some _ _ _ Hrn).
  destruct ty; try done; simpl; try destruct (isNull _); eauto.
Qed.

(** X1. Called with [TYPE_PRIMITIVE], [createCSGTerm] never returns a
    term: the null checks are skipped, the boxes of both children are
    read, and the operator constructor then reads the polyset, which it
    left null. *)
Theorem createCSGTerm_primitive_faults (h : list CSGTerm)
    (l r : option nat) :
  createCSGTerm h TYPE_PRIMITIVE l r = Fault.
Proof.
  unfold createCSGTerm, newOperator, initBoundingBox.
  destruct (deref h l) eqn:El; simpl;
    [|done|by destruct (deref_no_OutOfFuel _ _ El)].
  destruct (deref h r) eqn:Er; simpl;
    [done|done|by destruct (deref_no_OutOfFuel _ _ Er)].
Qed.

(** X2. For an operator type and operands that are null or in the store,
    [createCSGTerm] returns without an error and leaves every existing
    node as it is: either the store is unchanged and the result is null
    or one of the operands, or exactly one node is appended, of the
    requested type, with both operands present as its children, no
    polyset and the identity matrix, and its address is returned. *)
Theorem createCSGTerm_allocates (h : list CSGTerm) (ty : type_e)
    (l r : option nat) :
  ty <> TYPE_PRIMITIVE -> ptr_ok h l -> ptr_ok h r ->
  exists h' q,
    createCSGTerm h ty l r = Ok (h', q) /\
    ((h' = h /\ (q = None \/ q = l \/ q = r)) \/
     (exists n,
        h' = h ++ [n] /\ q = Some (length h) /\
        type n = ty /\ left n = l /\ right n = r /\
        is_Some l /\ is_Some r /\
        polyset n = None /\ m n = Identity)).
Proof.
  intros Hty Hl Hr.
  destruct (createCSGTerm_total h ty l r Hty Hl Hr) as (h' & q & E).
  exists h', q. split; [done|].
  destruct (createCSGTerm_cases _ _ _ _ _ _ E)
    as [[-> Hq]|(a & b & ln & rn & -> & -> & _ & _ & _ & -> & ->)].
  - left. split; [done|]. destruct Hq as [?|[?|[? _]]]; auto.
  - right. eexists. split; [done|]. simpl. split_and!; eauto.
Qed.

Lemma createCSGTerm_allocates_witness :
  exists n,
    createCSGTerm Examples.abcp_store TYPE_UNION (Some 0) (Some 1) =
      Ok (Examples.abcp_store ++ [n], Some 7) /\
    type n = TYPE_UNION /\ left n = Some 0 /\ right n = Some 1.
Proof.
  destruct (createCSGTerm_allocates Examples.abcp_store TYPE_UNION
              (Some 0) (Some 1)) as (h' & q & E & H).
  - discriminate.
  - vm_compute. lia.
  - vm_compute. lia.
  - destruct H as [[-> Hq]|(n & -> & -> & Ht & Hl & Hr & _)].
    + exfalso. vm_compute in E. discriminate E.
    + exists n. split; [exact E|]. split; [exact Ht|].
      split; [exact Hl | exact Hr].
Defined.

(** X3. As long as nothing overflows, [initBoundingBox] never leaves a
    null box.  For a primitive whose matrix transforms both corners of
    the polyset's box without overflow, and for an operator (whose matrix
    is the identity) over children with finite boxes, the box it caches
    is not null; this holds also for a primitive whose polyset has a null
    box and for an operator whose children are disjoint.  Under the
    identity the cached box is finite as well.  (With an overflow the
    source computes a product that is not a number, and the box stays
    null.) *)
Theorem initBoundingBox_not_null (h : list CSGTerm) (ty : type_e)
    (ps : option PolySet) (mx : Transform3d) (l r : option nat)
    (b : BoundingBox) :
  (forall s, ty = TYPE_PRIMITIVE -> ps = Some s ->
     no_overflow mx (bmin (ps_bbox s)) /\
     no_overflow mx (bmax (ps_bbox s))) ->
  (forall ln rn, ty <> TYPE_PRIMITIVE ->
     deref h l = Ok ln -> deref h r = Ok rn ->
     mx = Identity /\ finite_box (bbox ln) /\ finite_box (bbox rn)) ->
  initBoundingBox h ty ps mx l r = Ok b ->
  isNull b = false /\ (mx = Identity -> finite_box b).
Proof.
  unfold initBoundingBox. intros Hprim Hop H.
  destruct (decide (ty = TYPE_PRIMITIVE)) as [->|Hty].
  - destruct ps as [s|]; [|done]. injection H as <-.
    destruct (Hprim s eq_refl eq_refl) as [H1 H2].
    split; [apply extend2_not_null|]. intros _.
    apply extend2_finite; by apply no_overflow_finite.
  - assert (H' : (ln ← deref h l; rn ← deref h r;
                  Ok (initBoundingBox_op ty mx (bbox ln) (bbox rn))) = Ok b)
      by (by destruct ty).
    apply bind_Ok in H' as (ln & El & H').
    apply bind_Ok in H' as (rn & Er & H'). injection H' as <-.
    destruct (Hop ln rn Hty El Er) as (-> & Hl & Hr).
    split; [|intros _; by apply initBoundingBox_op_finite].
    destruct ty; [done | apply extend2_not_null..].
Qed.

Lemma initBoundingBox_not_null_witness :
  isNull (initBoundingBox_prim Identity nullBox) = false /\
  isNull (initBoundingBox_prim (mkTransform (-2) 0 0 5  0 3 0 0  0 0 1 (-1))
            (Examples.unitBox 0 1)) = false /\
  isNull (initBoundingBox_op TYPE_INTERSECTION Identity
            (Examples.unitBox 0 1) (Examples.unitBox 2 3)) = false.
Proof.
  assert (HM : (1000 <= DBL_MAX)%Z) by (vm_compute; discriminate).
  split; [|split].
  - apply (initBoundingBox_not_null [] TYPE_PRIMITIVE
             (Some (mkPolySet 0 nullBox)) Identity None None).
    + intros s _ [= <-].
      split; apply no_overflow_Identity; apply finite_box_null.
    + intros ln rn Hty. destruct (Hty eq_refl).
    + reflexivity.
  - apply (initBoundingBox_not_null [] TYPE_PRIMITIVE
             (Examples.cube 0 0 1)
             (mkTransform (-2) 0 0 5  0 3 0 0  0 0 1 (-1)) None None).
    + intros s _ [= <-]. revert HM.
      unfold no_overflow, finite_transform, finite_vec. generalize DBL_MAX.
      simpl. intros M HM. split; (split; [|split]); split_and!; lia.
    + intros ln rn Hty. destruct (Hty eq_refl).
    + reflexivity.
  - apply (initBoundingBox_not_null Examples.apart_store TYPE_INTERSECTION
             None Identity (Some 0) (Some 1)).
    + intros s Hty. discriminate Hty.
    + intros ln rn _ [= <-] [= <-].
      split; [reflexivity|]. split; apply small_finite_box; reflexivity.
    + reflexivity.
Defined.

Lemma whole_overlap rb :
  finite_box rb -> isNull rb = false ->
  overlap wholeBox rb = rb /\
  initBoundingBox_op TYPE_INTERSECTION Identity wholeBox rb = rb /\
  initBoundingBox_prim Identity nullBox = wholeBox.
Proof.
  intros Hf Hn. apply not_true_iff_false in Hn. rewrite isNull_spec in Hn.
  unfold initBoundingBox_op, initBoundingBox_prim. rewrite !apply_Identity.
  pose proof DBL_MAX_pos as HM. revert Hf HM.
  unfold finite_box, finite_vec, wholeBox, nullBox. generalize DBL_MAX.
  intros M ((? & ? & ?) & (? & ? & ?)) HM.
  destruct rb as [[x1 y1 z1] [x2 y2 z2]].
  unfold overlap, extend, cwise_min, cwise_max; simpl in *.
  split_and!; f_equal; f_equal; lia.
Qed.

(** X4. A primitive over an empty solid is never pruned.  When the
    polyset's own box is the null box and the matrix is the identity, the
    primitive constructor caches the box of all finite points, and
    intersecting the primitive with any node whose box is finite and not
    null constructs the intersection node, whose box is that of the other
    node. *)
Theorem empty_polyset_not_pruned (h : list CSGTerm) (s : PolySet)
    (c : Color) (lbl : string) :
  ps_bbox s = nullBox ->
  exists n,
    newPrimitive h (Some s) Identity c lbl = Ok (h ++ [n], Some (length h)) /\
    bbox n = wholeBox /\
    forall r rn,
      h !! r = Some rn -> finite_box (bbox rn) -> isNull (bbox rn) = false ->
      exists i,
        createCSGTerm (h ++ [n]) TYPE_INTERSECTION (Some (length h)) (Some r)
          = Ok (h ++ [n] ++ [i], Some (S (length h))) /\
        type i = TYPE_INTERSECTION /\ bbox i = bbox rn.
Proof.
  intros Hs.
  eexists. split; [|split].
  - unfold newPrimitive, initBoundingBox. simpl. reflexivity.
  - simpl. rewrite Hs. apply (whole_overlap wholeBox); [|done].
    pose proof DBL_MAX_pos. unfold finite_box, finite_vec, wholeBox. simpl.
    lia.
  - intros r rn Hr Hf Hn.
    destruct (whole_overlap (bbox rn) Hf Hn) as (Hov & Hop & Hw).
    eexists. unfold createCSGTerm, newOperator, initBoundingBox.
    rewrite (deref_Some _ (length h) _ (list_lookup_middle _ _ _ _ eq_refl)).
    rewrite (deref_Some _ r rn)
      by (rewrite lookup_app_l; [done | by eapply lookup_lt_Some]).
    cbn [mbind res_bind bbox]. rewrite Hs, Hw, Hov, Hn, Hop.
    split.
    { unfold alloc. rewrite length_app. simpl. rewrite <- app_assoc.
      replace (length h + 1) with (S (length h)) by lia. reflexivity. }
    split; reflexivity.
Qed.

Lemma empty_polyset_not_pruned_witness :
  exists n i,
    newPrimitive Examples.apart_store (Some (mkPolySet 9 nullBox)) Identity
      noColor "e" = Ok (Examples.apart_store ++ [n], Some 2) /\
    createCSGTerm (Examples.apart_store ++ [n]) TYPE_INTERSECTION
      (Some 2) (Some 1) = Ok (Examples.apart_store ++ [n] ++ [i], Some 3) /\
    bbox i = Examples.unitBox 2 3.
Proof.
  destruct (empty_polyset_not_pruned Examples.apart_store
              (mkPolySet 9 nullBox) noColor "e" eq_refl)
    as (n & En & _ & H).
  destruct (H 1 _ eq_refl) as (i & Ei & _ & Hb).
  - unfold finite_box, finite_vec. simpl.
    assert (10 <= DBL_MAX)%Z by (vm_compute; discriminate). lia.
  - reflexivity.
  - exists n, i. split; [exact En|]. split; [exact Ei | exact Hb].
Defined.

(** X5. For a transform without rotation or shear (scaling along the
    axes, of either sign, and translation) the box the primitive branch of
    [initBoundingBox] caches encloses the image of the polyset's box: the
    image of every point of that box lies in the cached box. *)
Theorem initBoundingBox_prim_axis_aligned (mx : Transform3d)
    (polybox : BoundingBox) (v : Vector3d) :
  axis_aligned mx -> contains polybox v = true ->
  contains (initBoundingBox_prim mx polybox) (apply mx v) = true.
Proof.
  intros (H1 & H2 & H3 & H4 & H5 & H6).
  unfold initBoundingBox_prim, nullBox. generalize DBL_MAX. intros M.
  rewrite !contains_spec. unfold apply, extend, cwise_min, cwise_max; simpl.
  rewrite H1, H2, H3, H4, H5, H6.
  intros ((? & ?) & (? & ?) & (? & ?)).
  destruct (Z_le_gt_dec 0 (m00 mx)), (Z_le_gt_dec 0 (m11 mx)),
    (Z_le_gt_dec 0 (m22 mx)); split_and!; nia.
Qed.

Lemma initBoundingBox_prim_axis_aligned_witness :
  contains (initBoundingBox_prim (mkTransform (-2) 0 0 5  0 3 0 0  0 0 1 (-1))
              (Examples.unitBox 0 1))
           (mkVec 3 0 0) = true.
Proof.
  apply (initBoundingBox_prim_axis_aligned
           (mkTransform (-2) 0 0 5  0 3 0 0  0 0 1 (-1))
           (Examples.unitBox 0 1) (mkVec 1 0 1)).
  - unfold axis_aligned. simpl. tauto.
  - reflexivity.
Defined.

Lemma overlap_null_iff lb rb :
  isNull (overlap lb rb) = true <->
  forall v, ~ (contains lb v = true /\ contains rb v = true).
Proof.
  split.
  - intros Hn v [Hl Hr]. by eapply overlap_null_disjoint.
  - intros Hd. destruct (isNull (overlap lb rb)) eqn:E; [done|].
    exfalso. apply (Hd (bmin (overlap lb rb))).
    apply not_true_iff_false in E. rewrite isNull_spec in E.
    rewrite !contains_spec. revert E. unfold overlap. simpl.
    intros E. split; split_and!; lia.
Qed.

(** X18. Pruning is exact on the cached boxes.  With both children
    present, [createCSGTerm] prunes an intersection to the null term, and
    a difference to its left child, exactly when the cached boxes of the
    two children have no point in common; when they share a point the
    node is constructed. *)
Theorem createCSGTerm_prunes_iff_disjoint (h : list CSGTerm) (l r : nat)
    (ln rn : CSGTerm) :
  h !! l = Some ln -> h !! r = Some rn ->
  (createCSGTerm h TYPE_INTERSECTION (Some l) (Some r) = Ok (h, None) <->
   forall v, ~ (contains (bbox ln) v = true /\ contains (bbox rn) v = true))
  /\
  (createCSGTerm h TYPE_DIFFERENCE (Some l) (Some r) = Ok (h, Some l) <->
   forall v, ~ (contains (bbox ln) v = true /\ contains (bbox rn) v = true)).
Proof.
  intros Hl Hr. rewrite <- !overlap_null_iff.
  unfold createCSGTerm, newOperator, initBoundingBox.
  rewrite (deref_Some _ _ _ Hl), (deref_Some _ _ _ Hr). simpl.
  destruct (isNull (overlap (bbox ln) (bbox rn))); [done|].
  unfold alloc. split; (split; [|done]); intros [= E _]; exfalso;
    apply (f_equal length) in E; rewrite length_app in E; simpl in E; lia.
Qed.

Lemma createCSGTerm_prunes_iff_disjoint_witness :
  createCSGTerm Examples.apart_store TYPE_INTERSECTION (Some 0) (Some 1)
    = Ok (Examples.apart_store, None) /\
  createCSGTerm Examples.abcp_store TYPE_DIFFERENCE (Some 0) (Some 1)
    <> Ok (Examples.abcp_store, Some 0).
Proof.
  split.
  - apply (createCSGTerm_prunes_iff_disjoint Examples.apart_store 0 1 _ _
             eq_refl eq_refl).
    intros v [H1 H2]. revert H1 H2. rewrite !contains_spec. simpl. lia.
  - intros E.
    destruct (createCSGTerm_prunes_iff_disjoint Examples.abcp_store 0 1 _ _
                eq_refl eq_refl) as [_ [H _]].
    apply (H E (mkVec 0 0 0)). split; reflexivity.
Defined.

(** ** Boxes and membership *)

Lemma den_ptr_repr inside p h q T :
  built h -> repr h q T ->
  den_ptr (den_of inside p h) q = member inside T p.
Proof.
  intros Hb Hr. destruct q as [a|].
  - simpl. by apply den_of_repr.
  - by inversion Hr.
Qed.

Lemma repr_ptr_ok h q T : repr h q T -> ptr_ok h q.
Proof.
  intros Hr. destruct q as [a|]; [|done]. simpl. by eapply repr_lookup.
Qed.

Lemma abcp_prims_sound : prims_sound Examples.box_solid Examples.abcp_store.
Proof.
  intros a n p Hn Hp.
  do 7 (destruct a as [|a];
        [injection Hn as <-; try discriminate Hp; intros Hm; exact Hm|]).
  discriminate Hn.
Defined.

Lemma xyzp_built : built Examples.xyzp_store.
Proof.
  intros a n H.
  do 7 (destruct a as [|a]; [injection H as <-; vm_compute; reflexivity|]).
  discriminate H.
Defined.

Lemma xyzp_prims_sound : prims_sound Examples.box_solid Examples.xyzp_store.
Proof.
  intros a n p Hn Hp.
  do 7 (destruct a as [|a];
        [injection Hn as <-; try discriminate Hp; intros Hm; exact Hm|]).
  discriminate Hn.
Defined.

Lemma abcp_boxes_finite : boxes_finite Examples.abcp_store.
Proof.
  intros a n Hn.
  do 7 (destruct a as [|a];
        [injection Hn as <-; apply small_finite_box; reflexivity|]).
  discriminate Hn.
Defined.

Lemma xyzp_boxes_finite : boxes_finite Examples.xyzp_store.
Proof.
  intros a n Hn.
  do 7 (destruct a as [|a];
        [injection Hn as <-; apply small_finite_box; reflexivity|]).
  discriminate Hn.
Defined.

(** X6. In a store built by the constructors in which the cached box of
    every primitive is finite and encloses its solid, the cached box of
    every node is finite and encloses the solid of the tree the node
    unfolds to: the boxes the operator branch of [initBoundingBox]
    computes are conservative. *)
Theorem cached_boxes_enclose (inside : solid) (h : list CSGTerm)
    (a : nat) (n : CSGTerm) (T : tree) (p : Vector3d) :
  built h -> prims_finite h -> prims_sound inside h ->
  h !! a = Some n -> repr h (Some a) T ->
  finite_box (bbox n) /\
  (member inside T p = true -> contains (bbox n) p = true).
Proof.
  intros Hb Hf Hs Hn Hr.
  split; [by eapply built_boxes_finite|]. intros Hm.
  destruct (built_node_ok inside p h Hb Hs a n Hn) as (_ & Hbox & _).
  apply Hbox. by rewrite (den_of_repr inside p h a T).
Qed.

Lemma cached_boxes_enclose_witness :
  contains (mkBox (mkVec 0 0 0) (mkVec 5 5 5)) (mkVec 4 5 4) = true.
Proof.
  apply (cached_boxes_enclose Examples.box_solid Examples.xyzp_store 4
           (mkCSGTerm TYPE_UNION None "" (Some 1) (Some 2)
              (mkBox (mkVec 0 0 0) (mkVec 5 5 5)) Identity noColor)
           (Examples.tree_of Examples.xyzp_store (Some 4))
           (mkVec 4 5 4)).
  - exact xyzp_built.
  - exact (boxes_finite_prims _ xyzp_boxes_finite).
  - exact xyzp_prims_sound.
  - reflexivity.
  - apply (unfold_repr 5). vm_compute. reflexivity.
  - vm_compute. reflexivity.
Defined.

(** X7. Pruning in [createCSGTerm] does not change the solid.  In a store
    built by the constructors in which the cached box of every primitive
    is finite and encloses its solid, [createCSGTerm] with an operator
    type returns a term whose point membership is the union, intersection
    or difference of the memberships of the two operands, whether it
    builds a node, returns an operand or returns null; every box of the
    store it leaves is finite. *)
Theorem createCSGTerm_membership (inside : solid) (h : list CSGTerm)
    (ty : type_e) (l r : option nat) (Tl Tr : tree) :
  built h -> prims_finite h -> prims_sound inside h ->
  ty <> TYPE_PRIMITIVE ->
  repr h l Tl -> repr h r Tr ->
  exists h' q T,
    createCSGTerm h ty l r = Ok (h', q) /\ boxes_finite h' /\
    repr h' q T /\
    forall p, member inside T p =
              combine ty (member inside Tl p) (member inside Tr p).
Proof.
  intros Hb Hfin Hs Hty Hl Hr.
  pose proof (repr_ptr_ok _ _ _ Hl) as Hlo.
  pose proof (repr_ptr_ok _ _ _ Hr) as Hro.
  assert (Hp : forall p, exists h' q T,
            createCSGTerm h ty l r = Ok (h', q) /\ repr h' q T /\
            member inside T p =
              combine ty (member inside Tl p) (member inside Tr p)).
  { intros p. pose proof (built_Inv inside p h Hb Hs) as HI.
    destruct (createCSGTerm_spec inside p h _ _ ty l r HI Hty Hlo Hro)
      as (h' & q & E & R' & D' & HI' & _ & Hq & Hd & _).
    destruct (Inv_repr inside p h' R' D' HI' q Hq) as (T & HT & Hm).
    exists h', q, T. split; [done|]. split; [done|].
    by rewrite Hm, Hd, (den_ptr_repr inside p h l Tl Hb Hl),
      (den_ptr_repr inside p h r Tr Hb Hr). }
  destruct (Hp (mkVec 0 0 0)) as (h' & q & T & E & HT & _).
  exists h', q, T. split; [done|].
  split; [eapply createCSGTerm_finite; [|exact E];
          by apply built_boxes_finite|].
  split; [done|]. intros p.
  destruct (Hp p) as (h'' & q'' & T'' & E'' & HT'' & Hm).
  rewrite E in E''. injection E'' as <- <-.
  by rewrite (repr_functional _ _ _ HT _ HT'').
Qed.

Lemma createCSGTerm_membership_witness :
  exists T,
    createCSGTerm Examples.xyzp_store TYPE_DIFFERENCE (Some 0) (Some 1)
      = Ok (Examples.xyzp_store, Some 0) /\
    repr Examples.xyzp_store (Some 0) T /\
    (forall p, member Examples.box_solid T p =
       contains (Examples.unitBox 2 3) p
       && negb (contains (Examples.unitBox 0 1) p)) /\
    member Examples.box_solid T (mkVec 2 3 2) = true.
Proof.
  destruct (createCSGTerm_membership Examples.box_solid Examples.xyzp_store
              TYPE_DIFFERENCE (Some 0) (Some 1)
              (Examples.tree_of Examples.xyzp_store (Some 0))
              (Examples.tree_of Examples.xyzp_store (Some 1)))
    as (h' & q & T & E & _ & HT & Hm).
  - exact xyzp_built.
  - exact (boxes_finite_prims _ xyzp_boxes_finite).
  - exact xyzp_prims_sound.
  - discriminate.
  - apply (unfold_repr 5). vm_compute. reflexivity.
  - apply (unfold_repr 5). vm_compute. reflexivity.
  - assert (E' : createCSGTerm Examples.xyzp_store TYPE_DIFFERENCE
                   (Some 0) (Some 1) = Ok (Examples.xyzp_store, Some 0))
      by (vm_compute; reflexivity).
    rewrite E' in E. injection E as <- <-.
    exists T. split; [exact E'|]. split; [exact HT|].
    split; [intros p; rewrite (Hm p); reflexivity|].
    rewrite (Hm (mkVec 2 3 2)). vm_compute. reflexivity.
Defined.

(** X8. [normalize] assigns to [term->left] and [term->right] without
    recomputing the cached box of [term]; all the same, when it returns on
    a store built by the constructors in which the box of every primitive
    is finite and encloses its solid, every box of the final store is
    finite, and the cached box of every node of the final store still
    encloses the solid of the tree that node now unfolds to. *)
Theorem normalize_keeps_boxes_sound (inside : solid) (h : list CSGTerm)
    (a : nat) (fuel : nat) (h' : list CSGTerm) (q : option nat) :
  built h -> prims_finite h -> prims_sound inside h -> a < length h ->
  normalize fuel h (Some a) = Ok (h', q) ->
  boxes_finite h' /\
  forall b nb T p,
    h' !! b = Some nb -> repr h' (Some b) T ->
    member inside T p = true -> contains (bbox nb) p = true.
Proof.
  intros Hb Hfin Hs Ha Hrun.
  split.
  { eapply (proj1 (normalize_finite fuel)); [|exact Hrun].
    by apply built_boxes_finite. }
  intros b nb T p Hn HT Hm.
  pose proof (built_Inv inside p h Hb Hs) as HI.
  destruct (proj1 (normalize_spec inside p fuel) _ _ _ _ _ _ HI Ha Hrun)
    as (R' & D' & HI' & _).
  destruct (HI' _ _ Hn) as (_ & Hbox & _). apply Hbox.
  destruct (Inv_repr inside p h' R' D' HI' (Some b))
    as (T' & HT' & Hm'); [by eapply lookup_lt_Some|].
  simpl in Hm'. by rewrite <- Hm', <- (repr_functional _ _ _ HT _ HT').
Qed.

Lemma normalize_keeps_boxes_sound_witness :
  contains (mkBox (mkVec 0 0 0) (mkVec 1 1 1)) (mkVec 1 0 1) = true.
Proof.
  apply (proj2 (normalize_keeps_boxes_sound Examples.box_solid
                  Examples.abcp_store
                  6 20 (Examples.store_of Examples.abcp_once)
                  (Examples.root_of Examples.abcp_once)
                  abcp_built (boxes_finite_prims _ abcp_boxes_finite)
                  abcp_prims_sound ltac:(vm_compute; lia) eq_refl)
           7
           (mkCSGTerm TYPE_INTERSECTION None "" (Some 0) (Some 1)
              (mkBox (mkVec 0 0 0) (mkVec 1 1 1)) Identity noColor)
           (Examples.tree_of (Examples.store_of Examples.abcp_once) (Some 7))
           (mkVec 1 0 1)).
  - reflexivity.
  - apply (unfold_repr 5). vm_compute. reflexivity.
  - vm_compute. reflexivity.
Defined.

(** ** What normalisation leaves alone *)

Lemma keeps_node_refl n : keeps_node n n.
Proof. by unfold keeps_node. Qed.

Lemma keeps_refl h : keeps h h.
Proof.
  split; [|done]. intros b n Hn. exists n. auto using keeps_node_refl.
Qed.

Lemma keeps_trans h1 h2 h3 : keeps h1 h2 -> keeps h2 h3 -> keeps h1 h3.
Proof.
  intros [F1 B1] [F2 B2]. split.
  - intros b n Hn. destruct (F1 _ _ Hn) as (n' & Hn' & K1).
    destruct (F2 _ _ Hn') as (n'' & Hn'' & K2).
    exists n''. split; [done|].
    destruct K1 as (? & ? & ? & ? & ? & ? & P1).
    destruct K2 as (? & ? & ? & ? & ? & ? & P2).
    unfold keeps_node. split_and!; try congruence.
    intros Hp. rewrite P2 by congruence. by apply P1.
  - intros b n Hn Hp. apply B1; [|done]. by apply B2.
Qed.

(** Appending operator nodes. *)
Lemma keeps_app h ns :
  Forall (fun n => type n <> TYPE_PRIMITIVE) ns -> keeps h (h ++ ns).
Proof.
  intros Hns. split.
  - intros b n Hn. exists n. split; [|apply keeps_node_refl].
    rewrite lookup_app_l; [done | by eapply lookup_lt_Some].
  - intros b n' Hn Hp.
    destruct (decide (b < length h)) as [Hlt|Hge].
    + by rewrite lookup_app_l in Hn.
    + rewrite lookup_app_r in Hn by lia.
      rewrite Forall_lookup in Hns. destruct (Hns _ _ Hn Hp).
Qed.

Lemma keeps_setLeft h a l :
  (forall n, h !! a = Some n -> type n <> TYPE_PRIMITIVE) ->
  keeps h (setLeft h a l).
Proof.
  intros Ha. split.
  - intros b n Hn. destruct (decide (a = b)) as [<-|Hne].
    + rewrite (setLeft_lookup _ _ _ _ Hn). eexists. split; [done|].
      unfold keeps_node. simpl. split_and!; try done.
      intros Hp. destruct (Ha _ Hn Hp).
    + rewrite setLeft_lookup_ne by done. eauto using keeps_node_refl.
  - intros b n' Hn Hp. destruct (decide (a = b)) as [<-|Hne].
    + destruct (h !! a) as [n|] eqn:E.
      * rewrite (setLeft_lookup _ _ _ _ E) in Hn. injection Hn as <-.
        simpl in Hp. destruct (Ha _ eq_refl Hp).
      * unfold setLeft in Hn. rewrite E in Hn. congruence.
    + by rewrite setLeft_lookup_ne in Hn.
Qed.

Lemma keeps_setRight h a r :
  (forall n, h !! a = Some n -> type n <> TYPE_PRIMITIVE) ->
  keeps h (setRight h a r).
Proof.
  intros Ha. split.
  - intros b n Hn. destruct (decide (a = b)) as [<-|Hne].
    + rewrite (setRight_lookup _ _ _ _ Hn). eexists. split; [done|].
      unfold keeps_node. simpl. split_and!; try done.
      intros Hp. destruct (Ha _ Hn Hp).
    + rewrite setRight_lookup_ne by done. eauto using keeps_node_refl.
  - intros b n' Hn Hp. destruct (decide (a = b)) as [<-|Hne].
    + destruct (h !! a) as [n|] eqn:E.
      * rewrite (setRight_lookup _ _ _ _ E) in Hn. injection Hn as <-.
        simpl in Hp. destruct (Ha _ eq_refl Hp).
      * unfold setRight in Hn. rewrite E in Hn. congruence.
    + by rewrite setRight_lookup_ne in Hn.
Qed.

Lemma createCSGTerm_keeps h ty l r h' q :
  createCSGTerm h ty l r = Ok (h', q) -> keeps h h'.
Proof.
  intros H. destruct (createCSGTerm_cases _ _ _ _ _ _ H)
    as [[-> _]|(a & b & ln & rn & _ & _ & _ & _ & Hty & -> & _)].
  - apply keeps_refl.
  - apply keeps_app. by constructor.
Qed.

Lemma create_left_keeps h t t1 a b c h' q f :
  create_left h t t1 a b c = Ok (h', q, f) -> keeps h h'.
Proof.
  unfold create_left. intros H.
  apply bind_Ok in H as ([h1 u] & E1 & H).
  apply bind_Ok in H as ([h2 w] & E2 & H). injection H as <- <- <-.
  eauto using keeps_trans, createCSGTerm_keeps.
Qed.

Lemma create_both_keeps h t t1 t2 a b c d h' q f :
  create_both h t t1 t2 a b c d = Ok (h', q, f) -> keeps h h'.
Proof.
  unfold create_both. intros H.
  apply bind_Ok in H as ([h1 u] & E1 & H).
  apply bind_Ok in H as ([h2 v] & E2 & H).
  apply bind_Ok in H as ([h3 w] & E3 & H). injection H as <- <- <-.
  eapply keeps_trans; [by eapply createCSGTerm_keeps|].
  eapply keeps_trans; by eapply createCSGTerm_keeps.
Qed.

Lemma normalize_tail_keeps h q h' q' f :
  normalize_tail h q = Ok (h', q', f) -> keeps h h'.
Proof.
  unfold normalize_tail. intros H.
  apply bind_Ok in H as (t & Et & H).
  destruct (type t); try (injection H as <- <- <-; apply keeps_refl).
  all: apply bind_Ok in H as (rt & Ert & H).
  all: destruct (type rt);
    try (by eapply create_left_keeps); try (by eapply create_both_keeps).
  all: apply bind_Ok in H as (lt & Elt & H).
  all: destruct (type lt); try (injection H as <- <- <-; apply keeps_refl);
    try (by eapply create_left_keeps); try (by eapply create_both_keeps).
Qed.

Lemma tail_loop_keeps fuel : forall h q h' q',
  tail_loop fuel h q = Ok (h', q') -> keeps h h'.
Proof.
  induction fuel as [|f IH]; intros h q h' q'; [done|]. simpl.
  destruct q as [a|]; [|intros [= <- <-]; apply keeps_refl].
  intros H. apply bind_Ok in H as ([[h1 q1] again] & Et & H).
  apply normalize_tail_keeps in Et.
  destruct again.
  - eauto using keeps_trans.
  - by injection H as <- <-.
Qed.

Lemma normalize_keeps fuel :
  (forall h q h' q', normalize fuel h q = Ok (h', q') -> keeps h h') /\
  (forall h q h' q', normalize_do fuel h q = Ok (h', q') -> keeps h h').
Proof.
  induction fuel as [|f [IHn IHd]]; [done|]. split.
  - intros h q h' q'. rewrite normalize_S. intros H.
    apply bind_Ok in H as (t & Et & H).
    case_decide; [injection H as <- <-; apply keeps_refl|]. eauto.
  - intros h q h' q'. rewrite normalize_do_S. intros H.
    apply bind_Ok in H as ([h1 term1] & Et & H).
    apply tail_loop_keeps in Et.
    destruct term1 as [a|]; [|by injection H as <- <-].
    apply bind_Ok in H as (t & Ed & H).
    case_decide as Hty; [by injection H as <- <-|].
    apply deref_Ok in Ed as (a' & [= <-] & Ha).
    apply bind_Ok in H as ([h2 l] & En & H).
    apply IHn in En.
    assert (Hop : forall hx, keeps h1 hx ->
              forall n, hx !! a = Some n -> type n <> TYPE_PRIMITIVE).
    { intros hx [F _] n Hn. destruct (F _ _ Ha) as (n' & Hn' & K).
      assert (n' = n) as -> by congruence.
      destruct K as (-> & _). done. }
    pose proof (keeps_setLeft h2 a l (Hop h2 En)) as K3.
    assert (K13 : keeps h1 (setLeft h2 a l)) by eauto using keeps_trans.
    cbn zeta in H.
    apply bind_Ok in H as (again & Eag & H).
    destruct again.
    + apply IHd in H. eauto using keeps_trans.
    + apply bind_Ok in H as (t3 & Ed3 & H).
      apply bind_Ok in H as ([h4 r] & En4 & H).
      apply IHn in En4.
      assert (K14 : keeps h1 h4) by eauto using keeps_trans.
      pose proof (keeps_setRight h4 a r (Hop h4 K14)) as K5.
      assert (h' = setRight h4 a r) as ->.
      { unfold collapse in H. apply bind_Ok in H as (t5 & _ & H).
        destruct (right t5), (left t5), (type t5); by injection H as <- _. }
      eauto using keeps_trans.
Qed.

(** X9. [normalize] changes nothing of a node but its [left] and [right]
    pointers.  When it returns, every node of the initial store is still
    at its address with the same type, polyset, label, cached box, matrix
    and colour; a primitive is the same node altogether; and every
    primitive of the final store is one of the initial store: the nodes
    [normalize] adds are operators. *)
Theorem normalize_keeps_nodes (fuel : nat) (h : list CSGTerm)
    (q : option nat) (h' : list CSGTerm) (q' : option nat) :
  normalize fuel h q = Ok (h', q') ->
  (forall b n, h !! b = Some n ->
     exists n', h' !! b = Some n' /\
       type n' = type n /\ polyset n' = polyset n /\ label n' = label n /\
       bbox n' = bbox n /\ m n' = m n /\ color n' = color n /\
       (type n = TYPE_PRIMITIVE -> n' = n)) /\
  (forall b n', h' !! b = Some n' -> type n' = TYPE_PRIMITIVE ->
     h !! b = Some n').
Proof. intros H. exact (proj1 (normalize_keeps fuel) _ _ _ _ H). Qed.

Lemma normalize_keeps_nodes_witness :
  exists n',
    Examples.store_of Examples.abcp_once !! 6 = Some n' /\
    left n' = Some 8 /\ type n' = TYPE_INTERSECTION /\
    bbox n' = Examples.unitBox 0 1.
Proof.
  destruct (normalize_keeps_nodes 20 Examples.abcp_store Examples.abcp_root
              (Examples.store_of Examples.abcp_once)
              (Examples.root_of Examples.abcp_once) eq_refl) as [F _].
  destruct (F 6 _ eq_refl) as (n' & Hn & Ht & _ & _ & Hb & _).
  exists n'. split; [exact Hn|].
  split; [vm_compute in Hn; injection Hn as <-; reflexivity|].
  split; [exact Ht | exact Hb].
Defined.

(** ** Trees whose boxes share a point *)

Lemma initBoundingBox_op_meets ty lb rb c :
  ty <> TYPE_PRIMITIVE ->
  contains lb c = true -> contains rb c = true ->
  contains (initBoundingBox_op ty Identity lb rb) c = true.
Proof.
  intros Hty Hl Hr.
  destruct ty; [done | ..]; unfold initBoundingBox_op;
    rewrite !apply_Identity; apply contains_extend2;
    revert Hl Hr; rewrite !contains_spec; simpl;
    intros (? & ? & ?) (? & ? & ?); split_and!; lia.
Qed.

Lemma meets_overlap lb rb c :
  contains lb c = true -> contains rb c = true ->
  isNull (overlap lb rb) = false.
Proof.
  intros Hl Hr. apply not_true_iff_false. intros Hn.
  by eapply overlap_null_disjoint.
Qed.

Lemma meets_lookup c h a :
  meets c h -> a < length h ->
  exists n, h !! a = Some n /\ contains (bbox n) c = true.
Proof.
  intros Hm Ha. destruct (ptr_ok_lookup h a Ha) as [n Hn].
  exists n. split; [done|]. by destruct (Hm _ _ Hn).
Qed.

Lemma meets_children c h a n :
  meets c h -> h !! a = Some n -> type n <> TYPE_PRIMITIVE ->
  exists l r, left n = Some l /\ right n = Some r /\
              l < length h /\ r < length h.
Proof. intros Hm Hn Hty. destruct (Hm _ _ Hn) as [_ H]. auto. Qed.

Lemma meets_createCSGTerm c h ty l r :
  meets c h -> ty <> TYPE_PRIMITIVE -> l < length h -> r < length h ->
  exists n,
    createCSGTerm h ty (Some l) (Some r) = Ok (h ++ [n], Some (length h)) /\
    meets c (h ++ [n]).
Proof.
  intros Hm Hty Hl Hr.
  destruct (meets_lookup c h l Hm Hl) as (ln & Hln & Hcl).
  destruct (meets_lookup c h r Hm Hr) as (rn & Hrn & Hcr).
  pose proof (meets_overlap _ _ _ Hcl Hcr) as Hov.
  exists (mkCSGTerm ty None EmptyString (Some l) (Some r)
            (initBoundingBox_op ty Identity (bbox ln) (bbox rn))
            Identity noColor).
  split.
  - unfold createCSGTerm, newOperator, initBoundingBox.
    rewrite (deref_Some _ _ _ Hln), (deref_Some _ _ _ Hrn).
    destruct ty; try done; simpl; by rewrite ?Hov.
  - intros b nb Hb. rewrite length_app. simpl.
    destruct (decide (b < length h)) as [Hlt|Hge].
    + rewrite lookup_app_l in Hb by done.
      destruct (Hm _ _ Hb) as [Hc Hch]. split; [done|].
      intros Hp. destruct (Hch Hp) as (x & y & ? & ? & ? & ?).
      exists x, y. split_and!; try done; lia.
    + assert (b = length h) as ->.
      { apply lookup_lt_Some in Hb. rewrite length_app in Hb.
        simpl in Hb. lia. }
      rewrite list_lookup_middle in Hb by done. injection Hb as <-.
      simpl. split; [by apply initBoundingBox_op_meets|].
      intros _. exists l, r. split_and!; try done; lia.
Qed.

Lemma meets_create_left c h t t1 x y z :
  meets c h -> t <> TYPE_PRIMITIVE -> t1 <> TYPE_PRIMITIVE ->
  x < length h -> y < length h -> z < length h ->
  exists h' a',
    create_left h t t1 (Some x) (Some y) (Some z) = Ok (h', Some a', true) /\
    meets c h' /\ a' < length h'.
Proof.
  intros Hm Ht Ht1 Hx Hy Hz. unfold create_left.
  destruct (meets_createCSGTerm c h t1 x y Hm Ht1 Hx Hy) as (n1 & E1 & M1).
  rewrite E1. cbn [mbind res_bind].
  destruct (meets_createCSGTerm c (h ++ [n1]) t (length h) z M1 Ht)
    as (n2 & E2 & M2); [rewrite length_app; simpl; lia..|].
  rewrite E2. cbn [mbind res_bind].
  eexists _, _. split; [done|]. split; [done|].
  rewrite !length_app. simpl. lia.
Qed.

Lemma meets_create_both c h t t1 t2 x y z w :
  meets c h -> t <> TYPE_PRIMITIVE -> t1 <> TYPE_PRIMITIVE ->
  t2 <> TYPE_PRIMITIVE ->
  x < length h -> y < length h -> z < length h -> w < length h ->
  exists h' a',
    create_both h t t1 t2 (Some x) (Some y) (Some z) (Some w)
      = Ok (h', Some a', true) /\
    meets c h' /\ a' < length h'.
Proof.
  intros Hm Ht Ht1 Ht2 Hx Hy Hz Hw. unfold create_both.
  destruct (meets_createCSGTerm c h t1 x y Hm Ht1 Hx Hy) as (n1 & E1 & M1).
  rewrite E1. cbn [mbind res_bind].
  destruct (meets_createCSGTerm c (h ++ [n1]) t2 z w M1 Ht2)
    as (n2 & E2 & M2); [rewrite length_app; simpl; lia..|].
  rewrite E2. cbn [mbind res_bind].
  destruct (meets_createCSGTerm c ((h ++ [n1]) ++ [n2]) t
              (length h) (length (h ++ [n1])) M2 Ht)
    as (n3 & E3 & M3); [rewrite !length_app; simpl; lia..|].
  rewrite E3. cbn [mbind res_bind].
  eexists _, _. split; [done|]. split; [done|].
  rewrite !length_app. simpl. lia.
Qed.

(** With both children present everywhere and no pruning,
    [normalize_tail] returns a term. *)
Lemma meets_normalize_tail c h a :
  meets c h -> a < length h ->
  exists h' a' f,
    normalize_tail h (Some a) = Ok (h', Some a', f) /\
    meets c h' /\ a' < length h'.
Proof.
  intros Hm Ha. destruct (ptr_ok_lookup h a Ha) as [n Hn].
  assert (Hstay : exists h' a' f,
            Ok (h, Some a, false) = Ok (h', Some a', f) /\
            meets c h' /\ a' < length h') by (by eexists _, _, _).
  assert (HL : forall t t1 x y z,
            t <> TYPE_PRIMITIVE -> t1 <> TYPE_PRIMITIVE ->
            x < length h -> y < length h -> z < length h ->
            exists h' a' f,
              create_left h t t1 (Some x) (Some y) (Some z)
                = Ok (h', Some a', f) /\
              meets c h' /\ a' < length h').
  { intros t t1 x y z ? ? ? ? ?.
    destruct (meets_create_left c h t t1 x y z) as (h' & a' & ?); eauto. }
  assert (HB : forall t t1 t2 x y z w,
            t <> TYPE_PRIMITIVE -> t1 <> TYPE_PRIMITIVE ->
            t2 <> TYPE_PRIMITIVE ->
            x < length h -> y < length h -> z < length h -> w < length h ->
            exists h' a' f,
              create_both h t t1 t2 (Some x) (Some y) (Some z) (Some w)
                = Ok (h', Some a', f) /\
              meets c h' /\ a' < length h').
  { intros t t1 t2 x y z w ? ? ? ? ? ? ?.
    destruct (meets_create_both c h t t1 t2 x y z w) as (h' & a' & ?);
      eauto. }
  unfold normalize_tail. rewrite (deref_Some _ _ _ Hn). cbn [mbind res_bind].
  destruct (decide (type n = TYPE_PRIMITIVE)) as [Hp|Hp];
    [by rewrite Hp|].
  destruct (meets_children c h a n Hm Hn Hp) as (l & r & El & Er & Hl & Hr).
  destruct (ptr_ok_lookup h l Hl) as [ln Hln].
  destruct (ptr_ok_lookup h r Hr) as [rn Hrn].
  rewrite El, Er, (deref_Some _ _ _ Hrn). cbn [mbind res_bind].
  destruct (type n) eqn:Etn; [done | done | ..].
  - (* intersection *)
    destruct (decide (type rn = TYPE_PRIMITIVE)) as [Hrp|Hrp].
    + rewrite Hrp, (deref_Some _ _ _ Hln). cbn [mbind res_bind].
      destruct (decide (type ln = TYPE_PRIMITIVE)) as [Hlp|Hlp];
        [by rewrite Hlp|].
      destruct (meets_children c h l ln Hm Hln Hlp)
        as (x & y & -> & -> & Hx & Hy).
      destruct (type ln); [done | | done | ]; [apply HB | apply HL]; done.
    + destruct (meets_children c h r rn Hm Hrn Hrp)
        as (y & z & -> & -> & Hy & Hz).
      destruct (type rn); [done | apply HB | apply HL | apply HL]; done.
  - (* difference *)
    destruct (decide (type rn = TYPE_PRIMITIVE)) as [Hrp|Hrp].
    + rewrite Hrp, (deref_Some _ _ _ Hln). cbn [mbind res_bind].
      destruct (decide (type ln = TYPE_PRIMITIVE)) as [Hlp|Hlp];
        [by rewrite Hlp|].
      destruct (meets_children c h l ln Hm Hln Hlp)
        as (x & y & -> & -> & Hx & Hy).
      destruct (type ln); [done | | done | done ]; apply HB; done.
    + destruct (meets_children c h r rn Hm Hrn Hrp)
        as (y & z & -> & -> & Hy & Hz).
      destruct (type rn); [done | apply HL | apply HB | apply HB]; done.
Qed.

Lemma keeps_length h h' : keeps h h' -> length h <= length h'.
Proof.
  intros [F _]. destruct (decide (length h <= length h')) as [?|Hgt]; [done|].
  exfalso. destruct (ptr_ok_lookup h (length h') ltac:(simpl; lia)) as [n Hn].
  destruct (F _ _ Hn) as (n' & Hn' & _).
  apply lookup_lt_Some in Hn'. lia.
Qed.

Lemma keeps_type h h' a n n' :
  keeps h h' -> h !! a = Some n -> h' !! a = Some n' -> type n' = type n.
Proof.
  intros [F _] Hn Hn'. destruct (F _ _ Hn) as (n'' & E & K).
  assert (n'' = n') as -> by congruence. by destruct K.
Qed.

Lemma meets_setLeft c h a l :
  meets c h -> l < length h -> meets c (setLeft h a (Some l)).
Proof.
  intros Hm Hl b nb Hb. rewrite length_setLeft.
  destruct (h !! a) as [n|] eqn:Hn.
  2:{ unfold setLeft in Hb. rewrite Hn in Hb. by apply (Hm b). }
  destruct (decide (a = b)) as [<-|Hne].
  - rewrite (setLeft_lookup _ _ _ _ Hn) in Hb. injection Hb as <-. simpl.
    destruct (Hm _ _ Hn) as [Hc Hch]. split; [done|].
    intros Hp. destruct (Hch Hp) as (x & y & _ & -> & _ & ?).
    exists l, y. done.
  - rewrite setLeft_lookup_ne in Hb by done. by apply (Hm b).
Qed.

Lemma meets_setRight c h a r :
  meets c h -> r < length h -> meets c (setRight h a (Some r)).
Proof.
  intros Hm Hr b nb Hb. rewrite length_setRight.
  destruct (h !! a) as [n|] eqn:Hn.
  2:{ unfold setRight in Hb. rewrite Hn in Hb. by apply (Hm b). }
  destruct (decide (a = b)) as [<-|Hne].
  - rewrite (setRight_lookup _ _ _ _ Hn) in Hb. injection Hb as <-. simpl.
    destruct (Hm _ _ Hn) as [Hc Hch]. split; [done|].
    intros Hp. destruct (Hch Hp) as (x & y & -> & _ & ? & _).
    exists x, r. done.
  - rewrite setRight_lookup_ne in Hb by done. by apply (Hm b).
Qed.

Lemma meets_tail_loop c fuel : forall h a r,
  meets c h -> a < length h ->
  tail_loop fuel h (Some a) = r -> r <> OutOfFuel ->
  exists h' a', r = Ok (h', Some a') /\ meets c h' /\ a' < length h'.
Proof.
  induction fuel as [|f IH]; intros h a r Hm Ha Hr Hnt; [by subst|].
  simpl in Hr.
  destruct (meets_normalize_tail c h a Hm Ha)
    as (h1 & a1 & again & E & M1 & Ha1).
  rewrite E in Hr. cbn [mbind res_bind] in Hr.
  destruct again; [by eapply IH|]. subst r. eauto.
Qed.

Lemma meets_loop_again c h a n :
  meets c h -> h !! a = Some n -> type n <> TYPE_PRIMITIVE ->
  exists b, loop_again h a = Ok b.
Proof.
  intros Hm Hn Hp.
  destruct (meets_children c h a n Hm Hn Hp) as (l & r & El & Er & Hl & Hr).
  destruct (ptr_ok_lookup h l Hl) as [ln Hln].
  destruct (ptr_ok_lookup h r Hr) as [rn Hrn].
  unfold loop_again. rewrite (deref_Some _ _ _ Hn). cbn [mbind res_bind].
  case_decide; [eauto|].
  rewrite Er, (deref_Some _ _ _ Hrn). cbn [mbind res_bind].
  case_decide; [|eauto].
  rewrite El, (deref_Some _ _ _ Hln). cbn [mbind res_bind]. eauto.
Qed.

(** With both children present everywhere and no pruning, [normalize]
    dereferences no null pointer and returns a term. *)
Lemma meets_normalize c fuel :
  (forall h a r,
     meets c h -> a < length h ->
     normalize fuel h (Some a) = r -> r <> OutOfFuel ->
     exists h' a', r = Ok (h', Some a') /\ meets c h' /\ a' < length h') /\
  (forall h a r,
     meets c h -> a < length h ->
     normalize_do fuel h (Some a) = r -> r <> OutOfFuel ->
     exists h' a', r = Ok (h', Some a') /\ meets c h' /\ a' < length h').
Proof.
  induction fuel as [|f [IHn IHd]]; [split; intros; by subst|]. split.
  - intros h a r Hm Ha Hr Hnt. rewrite normalize_S in Hr.
    destruct (ptr_ok_lookup h a Ha) as [n Hn].
    rewrite (deref_Some _ _ _ Hn) in Hr. cbn [mbind res_bind] in Hr.
    case_decide; [subst r; eauto|]. by eapply IHd.
  - intros h a r Hm Ha Hr Hnt. rewrite normalize_do_S in Hr.
    destruct (tail_loop f h (Some a)) as [[h1 t1]| |] eqn:Et;
      [| |by subst].
    2:{ destruct (meets_tail_loop c f h a _ Hm Ha Et) as (? & ? & ? & _);
          done. }
    destruct (meets_tail_loop c f h a _ Hm Ha Et ltac:(done))
      as (h1' & a1 & E1 & M1 & Ha1).
    injection E1 as -> ->.
    cbn [mbind res_bind] in Hr.
    destruct (ptr_ok_lookup h1' a1 Ha1) as [n1 Hn1].
    rewrite (deref_Some _ _ _ Hn1) in Hr. cbn [mbind res_bind] in Hr.
    case_decide as Hp1; [subst r; eauto|].
    destruct (meets_children c h1' a1 n1 M1 Hn1 Hp1)
      as (l & r0 & El & Er & Hl & Hr0).
    rewrite El in Hr.
    destruct (normalize f h1' (Some l)) as [[h2 l']| |] eqn:En;
      [| |by subst].
    2:{ destruct (IHn h1' l _ M1 Hl En) as (? & ? & ? & _); done. }
    destruct (IHn h1' l _ M1 Hl En ltac:(done))
      as (h2' & l2 & E2 & M2 & Hl2).
    injection E2 as -> ->.
    cbn [mbind res_bind] in Hr. cbn zeta in Hr.
    pose proof (proj1 (normalize_keeps f) _ _ _ _ En) as K12.
    pose proof (keeps_length _ _ K12) as L12.
    destruct (ptr_ok_lookup h2' a1 ltac:(simpl; lia)) as [n2 Hn2].
    pose proof (keeps_type _ _ _ _ _ K12 Hn1 Hn2) as Ht2.
    pose proof (setLeft_lookup h2' a1 (Some l2) n2 Hn2) as Hn3.
    pose proof (meets_setLeft c h2' a1 l2 M2 Hl2) as M3.
    pose proof (length_setLeft h2' a1 (Some l2)) as L3.
    revert Hr Hn3 M3 L3. generalize (setLeft h2' a1 (Some l2)).
    intros h3 Hr Hn3 M3 L3.
    destruct (meets_loop_again c h3 a1 _ M3 Hn3) as [again Eag];
      [simpl; congruence|].
    rewrite Eag in Hr. cbn [mbind res_bind] in Hr.
    destruct again; [exact (IHd h3 a1 r M3 ltac:(lia) Hr Hnt)|].
    rewrite (deref_Some _ _ _ Hn3) in Hr.
    cbn [mbind res_bind right] in Hr.
    destruct (meets_children c h2' a1 n2 M2 Hn2 ltac:(congruence))
      as (l2' & r2 & _ & Er2 & _ & Hr2).
    rewrite Er2 in Hr.
    destruct (normalize f h3 (Some r2)) as [[h4 r4']| |] eqn:En4;
      [| |by subst].
    2:{ destruct (IHn h3 r2 _ M3 ltac:(lia) En4) as (? & ? & ? & _); done. }
    destruct (IHn h3 r2 _ M3 ltac:(lia) En4 ltac:(done))
      as (h4' & r4 & E4 & M4 & Hr4).
    injection E4 as -> ->.
    cbn [mbind res_bind] in Hr.
    pose proof (proj1 (normalize_keeps f) _ _ _ _ En4) as K34.
    pose proof (keeps_length _ _ K34) as L34.
    destruct (ptr_ok_lookup h4' a1 ltac:(simpl; lia)) as [n4 Hn4].
    pose proof (keeps_type _ _ _ _ _ K34 Hn3 Hn4) as Ht4. simpl in Ht4.
    destruct (meets_children c h4' a1 n4 M4 Hn4 ltac:(congruence))
      as (l4 & r4' & El4 & _ & _ & _).
    pose proof (setRight_lookup h4' a1 (Some r4) n4 Hn4) as Hn5.
    pose proof (meets_setRight c h4' a1 r4 M4 Hr4) as M5.
    pose proof (length_setRight h4' a1 (Some r4)) as L5.
    revert Hr Hn5 M5 L5. generalize (setRight h4' a1 (Some r4)).
    intros h5 Hr Hn5 M5 L5.
    unfold collapse in Hr. rewrite (deref_Some _ _ _ Hn5) in Hr.
    cbn [mbind res_bind right left] in Hr. rewrite El4 in Hr.
    subst r. exists h5, a1. split; [done|]. split; [done|]. lia.
Qed.

Lemma built_meets c h :
  built h ->
  (forall b n, h !! b = Some n -> type n = TYPE_PRIMITIVE ->
     contains (bbox n) c = true) ->
  meets c h.
Proof.
  intros Hb Hp a. induction (lt_wf a) as [a _ IH]. intros n Hn.
  destruct (decide (type n = TYPE_PRIMITIVE)) as [Hty|Hty].
  - split; [by eapply Hp | done].
  - destruct (built_op _ _ _ Hb Hn Hty)
      as (l & r & ln & rn & El & Er & Hl & Hr & Hla & Hra & Hbox).
    pose proof (lookup_lt_Some _ _ _ Hl). pose proof (lookup_lt_Some _ _ _ Hr).
    split; [|intros _; exists l, r; done].
    rewrite Hbox. apply initBoundingBox_op_meets; [done|..].
    + by destruct (IH l Hla ln Hl).
    + by destruct (IH r Hra rn Hr).
Qed.

Lemma meets_full c h q T :
  meets c h -> repr h q T -> is_Some q -> full T.
Proof.
  intros Hm Hr. induction Hr as [|a n Hn Hty|a n l r Hn Hty Hl IHl Hr IHr];
    intros [x Hx]; [done | done |].
  destruct (meets_children c h a n Hm Hn Hty) as (x1 & x2 & E1 & E2 & _).
  simpl. split; [apply IHl | apply IHr]; eauto.
Qed.

(** The result of [normalize] does not depend on the budget. *)
Lemma normalize_det f f' h q r r' :
  normalize f h q = Ok r -> normalize f' h q = Ok r' -> r = r'.
Proof.
  intros H H'. destruct (Nat.le_ge_cases f f') as [Hle|Hle].
  - rewrite (proj1 (normalize_mono f) f' h q _ H ltac:(done) Hle) in H'.
    congruence.
  - rewrite (proj1 (normalize_mono f') f h q _ H' ltac:(done) Hle) in H.
    congruence.
Qed.

(** X10. [normalize] returns a term whenever nothing can be pruned.  For
    a store built by the constructors in which the boxes of all primitives
    are finite and share one point, [normalize] terminates without
    dereferencing a null pointer, the term it returns is not null, in the
    tree of that term no child is absent, and every box of the final
    store is finite. *)
Theorem normalize_returns_when_boxes_meet (h : list CSGTerm) (a : nat)
    (c : Vector3d) :
  built h -> prims_finite h -> a < length h ->
  (forall b n, h !! b = Some n -> type n = TYPE_PRIMITIVE ->
     contains (bbox n) c = true) ->
  exists fuel h' a' T,
    normalize fuel h (Some a) = Ok (h', Some a') /\ boxes_finite h' /\
    repr h' (Some a') T /\ full T.
Proof.
  intros Hb Hfin Ha Hp.
  pose proof (built_meets c h Hb Hp) as Hm.
  pose proof (built_Inv (fun _ _ _ => false) (mkVec 0 0 0) h Hb
                (prims_sound_trivial h)) as HI.
  destruct (normalize_terminates _ _ h _ _ a HI Ha) as [fuel Hf].
  destruct (proj1 (meets_normalize c fuel) h a _ Hm Ha eq_refl Hf)
    as (h' & a' & E & M' & Ha').
  destruct (proj1 (normalize_spec _ _ fuel) _ _ _ _ _ _ HI Ha E)
    as (R' & D' & HI' & _ & Hq & _).
  destruct (Inv_repr _ _ h' R' D' HI' (Some a') Hq) as (T & HT & _).
  exists fuel, h', a', T. split; [done|].
  split.
  { eapply (proj1 (normalize_finite fuel)); [|exact E].
    by apply built_boxes_finite. }
  split; [done|]. eapply meets_full; eauto.
Qed.

Lemma normalize_returns_when_boxes_meet_witness :
  exists fuel T,
    normalize fuel Examples.abcp_store (Some 6)
      = Ok (Examples.store_of Examples.abcp_once, Some 6) /\
    repr (Examples.store_of Examples.abcp_once) (Some 6) T /\ full T /\
    dump_tree T = "(((a * b) - c) * p)"%string.
Proof.
  destruct (normalize_returns_when_boxes_meet Examples.abcp_store 6
              (mkVec 0 0 0)) as (fuel & h' & a' & T & E & _ & HT & Hf).
  - exact abcp_built.
  - exact (boxes_finite_prims _ abcp_boxes_finite).
  - vm_compute. lia.
  - intros b n Hn Hp.
    do 7 (destruct b as [|b];
          [injection Hn as <-; try discriminate Hp; vm_compute; reflexivity|]).
    discriminate Hn.
  - assert (E20 : normalize 20 Examples.abcp_store (Some 6)
                  = Ok (Examples.store_of Examples.abcp_once, Some 6))
      by (vm_compute; reflexivity).
    pose proof (normalize_det _ _ _ _ _ _ E E20) as Er.
    injection Er as -> ->.
    exists fuel, T. split; [exact E|]. split; [exact HT|].
    split; [exact Hf|].
    rewrite (repr_functional _ _ _ HT
               (Examples.tree_of (Examples.store_of Examples.abcp_once)
                                 (Some 6))).
    + vm_compute. reflexivity.
    + apply (unfold_repr 5). vm_compute. reflexivity.
Defined.

(** ** Absent terms in [import], [dump] and [normalize_tail] *)

Lemma full_dec T : full T \/ ~ full T.
Proof.
  induction T as [|n|n l IHl r IHr]; simpl; [right; tauto | by left | tauto].
Qed.

Lemma import_full T : forall h q c kind fuel,
  repr h q T -> full T -> depth T < fuel ->
  exists c', import fuel h c q kind = Ok c'.
Proof.
  induction T as [|n|n l IHl r IHr]; intros h q c kind fuel Hr Hf Hd.
  - done.
  - inversion Hr as [|a n' Hn Hp|]; subst.
    destruct fuel as [|f]; [lia|]. simpl.
    rewrite (deref_Some _ _ _ Hn). simpl. rewrite decide_True by done. eauto.
  - inversion Hr as [| |a n' l' r' Hn Hp Hl Hrr]; subst.
    destruct Hf as [Hfl Hfr].
    destruct fuel as [|f]; [lia|]. simpl in Hd |- *.
    rewrite (deref_Some _ _ _ Hn). simpl. rewrite decide_False by done.
    destruct (IHl h (left n) c kind f Hl Hfl ltac:(lia)) as (c1 & ->).
    simpl. apply (IHr h (right n) c1 (type n) f Hrr Hfr). lia.
Qed.

Lemma import_not_full T : forall h q c kind fuel,
  repr h q T -> ~ full T -> depth T < fuel ->
  import fuel h c q kind = Fault.
Proof.
  induction T as [|n|n l IHl r IHr]; intros h q c kind fuel Hr Hf Hd.
  - inversion Hr; subst. destruct fuel; [lia | done].
  - by destruct Hf.
  - inversion Hr as [| |a n' l' r' Hn Hp Hl Hrr]; subst.
    destruct fuel as [|f]; [lia|]. simpl in Hd |- *.
    rewrite (deref_Some _ _ _ Hn). simpl. rewrite decide_False by done.
    destruct (full_dec l) as [Hfl|Hfl].
    + destruct (import_full l h (left n) c kind f Hl Hfl ltac:(lia))
        as (c1 & ->).
      simpl. apply (IHr h (right n) c1 (type n) f Hrr); [|lia].
      simpl in Hf. tauto.
    + by rewrite (IHl h (left n) c kind f Hl Hfl) by lia.
Qed.

(** X11. [import] returns a chain exactly when no child is absent.  For
    a pointer that unfolds to a tree, [import] returns (whatever the chain
    it extends) when every child in the tree is present, and dereferences
    a null pointer when the term itself is null or some child in the tree
    is absent. *)
Theorem import_returns_iff_full (h : list CSGTerm) (q : option nat)
    (T : tree) (c : CSGChain) (kind : type_e) (fuel : nat) :
  repr h q T -> depth T < fuel ->
  (full T -> exists c', import fuel h c q kind = Ok c') /\
  (~ full T -> import fuel h c q kind = Fault).
Proof.
  intros Hr Hd. split; intros Hf.
  - by apply import_full with T.
  - by apply import_not_full with T.
Qed.

Lemma import_returns_iff_full_witness :
  import 1 Examples.abcp_store emptyChain None TYPE_UNION = Fault /\
  exists c', import 5 Examples.abcp_store emptyChain (Some 6) TYPE_UNION
             = Ok c'.
Proof.
  split.
  - apply (import_returns_iff_full Examples.abcp_store None TAbsent
             emptyChain TYPE_UNION 1 (repr_absent _)); [simpl; lia|].
    simpl. tauto.
  - apply (import_returns_iff_full Examples.abcp_store (Some 6)
             Examples.abcp_tree emptyChain TYPE_UNION 5).
    + apply (unfold_repr 5). vm_compute. reflexivity.
    + vm_compute. lia.
    + vm_compute. tauto.
Defined.

Lemma dump_not_full T : forall h q fuel,
  repr h q T -> ~ full T -> depth T < fuel -> dump fuel h q = Fault.
Proof.
  induction T as [|n|n l IHl r IHr]; intros h q fuel Hr Hf Hd.
  - inversion Hr; subst. destruct fuel; [lia | done].
  - by destruct Hf.
  - inversion Hr as [| |a n' l' r' Hn Hp Hl Hrr]; subst.
    destruct fuel as [|f]; [lia|]. simpl in Hd |- *.
    rewrite (deref_Some _ _ _ Hn). simpl.
    destruct (full_dec l) as [Hfl|Hfl].
    + rewrite (dump_repr l h (left n) f Hl Hfl) by lia.
      rewrite (IHr h (right n) f Hrr) by (simpl in Hf; tauto || lia).
      by destruct (type n).
    + rewrite (IHl h (left n) f Hl Hfl) by lia.
      by destruct (type n).
Qed.

(** X12. [CSGTerm::dump] returns a string exactly when no child is
    absent: for a pointer that unfolds to a tree in which every child is
    present it returns the fully parenthesised infix text, a primitive
    being its label, and it dereferences a null pointer when the term is
    null or some child in the tree is absent. *)
Theorem dump_returns_iff_full (h : list CSGTerm) (q : option nat)
    (T : tree) (fuel : nat) :
  repr h q T -> depth T < fuel ->
  (full T -> dump fuel h q = Ok (dump_tree T)) /\
  (~ full T -> dump fuel h q = Fault).
Proof.
  intros Hr Hd. split; intros Hf.
  - by apply dump_repr.
  - by apply dump_not_full with T.
Qed.

Lemma dump_returns_iff_full_witness :
  dump 5 Examples.abcp_store (Some 6) = Ok "((a * (b - c)) * p)"%string /\
  dump 1 Examples.abcp_store None = Fault.
Proof.
  split.
  - apply (dump_returns_iff_full Examples.abcp_store (Some 6)
             Examples.abcp_tree 5).
    + apply (unfold_repr 5). vm_compute. reflexivity.
    + vm_compute. lia.
    + vm_compute. tauto.
  - apply (dump_returns_iff_full Examples.abcp_store None TAbsent 1
             (repr_absent _)); [simpl; lia|].
    simpl. tauto.
Defined.

Lemma createCSGTerm_ptr_ok h ty l r h' q :
  ptr_ok h l -> ptr_ok h r -> createCSGTerm h ty l r = Ok (h', q) ->
  ptr_ok h' q /\ length h <= length h'.
Proof.
  intros Hl Hr H. destruct (createCSGTerm_cases _ _ _ _ _ _ H)
    as [[-> Hq]|(a & b & ln & rn & _ & _ & _ & _ & _ & -> & ->)].
  - split; [|done]. destruct Hq as [->|[->|[-> _]]]; done.
  - simpl. rewrite !length_app. simpl. split; lia.
Qed.

Lemma create_left_total h t t1 a b c :
  t <> TYPE_PRIMITIVE -> t1 <> TYPE_PRIMITIVE ->
  ptr_ok h a -> ptr_ok h b -> ptr_ok h c ->
  exists x, create_left h t t1 a b c = Ok x.
Proof.
  intros Ht Ht1 Ha Hb Hc. unfold create_left.
  destruct (createCSGTerm_total h t1 a b Ht1 Ha Hb) as (h1 & u & E1).
  rewrite E1. cbn [mbind res_bind].
  destruct (createCSGTerm_ptr_ok _ _ _ _ _ _ Ha Hb E1) as [Hu L1].
  destruct (createCSGTerm_total h1 t u c Ht Hu) as (h2 & w & E2);
    [by eapply ptr_ok_mono|].
  rewrite E2. cbn [mbind res_bind]. eauto.
Qed.

Lemma create_both_total h t t1 t2 a b c d :
  t <> TYPE_PRIMITIVE -> t1 <> TYPE_PRIMITIVE -> t2 <> TYPE_PRIMITIVE ->
  ptr_ok h a -> ptr_ok h b -> ptr_ok h c -> ptr_ok h d ->
  exists x, create_both h t t1 t2 a b c d = Ok x.
Proof.
  intros Ht Ht1 Ht2 Ha Hb Hc Hd. unfold create_both.
  destruct (createCSGTerm_total h t1 a b Ht1 Ha Hb) as (h1 & u & E1).
  rewrite E1. cbn [mbind res_bind].
  destruct (createCSGTerm_ptr_ok _ _ _ _ _ _ Ha Hb E1) as [Hu L1].
  pose proof (ptr_ok_mono _ _ _ L1 Hc) as Hc1.
  pose proof (ptr_ok_mono _ _ _ L1 Hd) as Hd1.
  destruct (createCSGTerm_total h1 t2 c d Ht2 Hc1 Hd1) as (h2 & v & E2).
  rewrite E2. cbn [mbind res_bind].
  destruct (createCSGTerm_ptr_ok _ _ _ _ _ _ Hc1 Hd1 E2) as [Hv L2].
  destruct (createCSGTerm_total h2 t u v Ht) as (h3 & w & E3);
    [by eapply ptr_ok_mono | done |].
  rewrite E3. cbn [mbind res_bind]. eauto.
Qed.

(** X13. When [normalize_tail] dereferences a null pointer.  In a store
    without dangling pointers, [normalize_tail] on a node fails exactly
    when the node is an intersection or a difference and either its right
    child is null (part A reads [term->right->left]) or its right child is
    a primitive and its left child is null (part B reads
    [term->left->left]); in every other case it returns. *)
Theorem normalize_tail_fault_iff (h : list CSGTerm) (a : nat)
    (n : CSGTerm) :
  closed h -> h !! a = Some n ->
  (normalize_tail h (Some a) = Fault <->
   (type n = TYPE_INTERSECTION \/ type n = TYPE_DIFFERENCE) /\
   (right n = None \/
    (left n = None /\
     exists r rn, right n = Some r /\ h !! r = Some rn /\
                  type rn = TYPE_PRIMITIVE))).
Proof.
  intros Hc Hn. destruct (Hc _ _ Hn) as [Hl Hr].
  assert (Hret : forall (x : res (list CSGTerm * option nat * bool)) P,
            (exists y, x = Ok y) -> ~ P -> (x = Fault <-> P)).
  { intros x P [y ->] HP. split; [done | tauto]. }
  unfold normalize_tail. rewrite (deref_Some _ _ _ Hn). cbn [mbind res_bind].
  destruct (type n) eqn:Et.
  1,2: apply Hret; [eauto | intros [[?|?] _]; congruence].
  all: destruct (right n) as [r|] eqn:Er;
    [|split; [intros _; split; auto | done]].
  all: destruct (ptr_ok_lookup h r Hr) as [rn Hrn].
  all: destruct (Hc _ _ Hrn) as [Hrl Hrr].
  all: rewrite (deref_Some _ _ _ Hrn); cbn [mbind res_bind].
  all: assert (Hnot : type rn <> TYPE_PRIMITIVE ->
         ~ ((TYPE_INTERSECTION = TYPE_INTERSECTION \/
             TYPE_INTERSECTION = TYPE_DIFFERENCE \/
             TYPE_DIFFERENCE = TYPE_DIFFERENCE) /\
            (Some r = None \/
             left n = None /\
             (exists r0 rn0, Some r = Some r0 /\ h !! r0 = Some rn0 /\
                             type rn0 = TYPE_PRIMITIVE))))
    by (intros Hp [_ [?|(_ & r0 & rn0 & [= <-] & ? & ?)]];
        [done | congruence]).
  all: destruct (type rn) eqn:Etr.
  all: try (apply Hret;
            [first [apply create_left_total | apply create_both_total];
             done
            | intros [_ [?|(_ & r0 & rn0 & [= <-] & ? & ?)]];
              [done | congruence]]).
  all: destruct (left n) as [l|] eqn:El;
    [|split; [intros _; split; [auto|]; right; split; [done|];
              exists r, rn; done
             | done]].
  all: destruct (ptr_ok_lookup h l Hl) as [ln Hln].
  all: destruct (Hc _ _ Hln) as [Hll Hlr].
  all: rewrite (deref_Some _ _ _ Hln); cbn [mbind res_bind].
  all: apply Hret; [|intros [_ [?|(? & _)]]; done].
  all: destruct (type ln); eauto;
    first [apply create_left_total | apply create_both_total]; done.
Qed.

Lemma normalize_tail_fault_iff_witness :
  normalize_tail
    [mkCSGTerm TYPE_PRIMITIVE (Examples.cube 0 0 1) "p" None None
       (Examples.unitBox 0 1) Identity noColor;
     mkCSGTerm TYPE_DIFFERENCE None "" None (Some 0)
       (Examples.unitBox 0 1) Identity noColor]
    (Some 1) = Fault.
Proof.
  apply (normalize_tail_fault_iff
           [mkCSGTerm TYPE_PRIMITIVE (Examples.cube 0 0 1) "p" None None
              (Examples.unitBox 0 1) Identity noColor;
            mkCSGTerm TYPE_DIFFERENCE None "" None (Some 0)
              (Examples.unitBox 0 1) Identity noColor]
           1
           (mkCSGTerm TYPE_DIFFERENCE None "" None (Some 0)
              (Examples.unitBox 0 1) Identity noColor)).
  - intros a n Hn.
    do 2 (destruct a as [|a]; [injection Hn as <-; simpl; lia|]).
    discriminate Hn.
  - reflexivity.
  - simpl. split; [tauto|]. right. split; [reflexivity|].
    eexists 0, _. split; [reflexivity|]. split; reflexivity.
Defined.

(** ** More on chains *)

Lemma fold_body_ext {A} (f g : A -> nat -> res A) (l : list nat) :
  (forall i b, i ∈ l -> f b i = g b i) ->
  forall acc,
    foldl (fun acc i => b ← acc; f b i) acc l =
    foldl (fun acc i => b ← acc; g b i) acc l.
Proof.
  induction l as [|i l IH]; intros Hfg acc; [done|]. simpl.
  rewrite IH by (intros j b Hj; apply Hfg; by right).
  destruct acc as [b| |]; simpl; [|done..].
  rewrite (Hfg i b) by left. done.
Qed.

Lemma at_index_app_l {A} (l k : list A) i :
  i < length l -> at_index (l ++ k) i = at_index l i.
Proof. intros H. unfold at_index. by rewrite lookup_app_l. Qed.

Lemma at_index_middle {A} (l : list A) x i :
  i = length l -> at_index (l ++ [x]) i = Ok x.
Proof. intros ->. unfold at_index. by rewrite list_lookup_middle. Qed.

Lemma getBoundingBox_body_add c ps mx col ty lbl acc i :
  chain_wf c -> i < length (polysets c) ->
  getBoundingBox_body (add c ps mx col ty lbl) acc i =
  getBoundingBox_body c acc i.
Proof.
  intros (H1 & H2 & H3 & H4) Hi. unfold getBoundingBox_body, add. simpl.
  rewrite !at_index_app_l by lia. done.
Qed.

(** X14. [getBoundingBox] after [add].  On a chain whose five vectors
    have one length, the box of the chain with one more record is the box
    of the chain, extended by the two transformed corners of the new
    record's solid; it is the box of the chain unchanged, and the new
    polyset pointer is not read, when the record is tagged as a
    difference, and unchanged as well when the solid's own box is null; a
    null polyset pointer in a record of any other tag is dereferenced. *)
Theorem getBoundingBox_add (c : CSGChain) (ps : option PolySet)
    (mx : Transform3d) (col : Color) (ty : type_e) (lbl : string) :
  chain_wf c ->
  getBoundingBox (add c ps mx col ty lbl) =
    (b ← getBoundingBox c;
     if decide (ty = TYPE_DIFFERENCE) then Ok b
     else match ps with
          | None => Fault
          | Some s =>
              Ok (if isNull (ps_bbox s) then b
                  else extend (extend b (apply mx (bmin (ps_bbox s))))
                              (apply mx (bmax (ps_bbox s))))
          end).
Proof.
  intros Hc. pose proof Hc as (H1 & H2 & H3 & H4).
  unfold getBoundingBox at 1.
  replace (length (polysets (add c ps mx col ty lbl)))
    with (S (length (polysets c)))
    by (unfold add; simpl; rewrite length_app; simpl; lia).
  rewrite seq_S, foldl_snoc. simpl.
  rewrite (fold_body_ext
             (getBoundingBox_body (add c ps mx col ty lbl))
             (getBoundingBox_body c)).
  2:{ intros i b Hi. apply getBoundingBox_body_add; [done|].
      apply elem_of_seq in Hi. lia. }
  fold (getBoundingBox c).
  destruct (getBoundingBox c) as [b| |]; simpl; [|done..].
  unfold getBoundingBox_body, add. simpl.
  rewrite (at_index_middle (types c)) by lia. simpl.
  case_decide; [done|].
  rewrite (at_index_middle (polysets c)) by lia. simpl.
  destruct ps as [s|]; [|done].
  destruct (isNull (ps_bbox s)); [done|].
  rewrite (at_index_middle (matrices c)) by lia. done.
Qed.

Lemma getBoundingBox_add_witness :
  getBoundingBox (add Examples.scenario_chain None Identity noColor
                    TYPE_DIFFERENCE "n")
    = getBoundingBox Examples.scenario_chain /\
  getBoundingBox (add Examples.scenario_chain None Identity noColor
                    TYPE_UNION "n") = Fault.
Proof.
  split.
  - rewrite (getBoundingBox_add Examples.scenario_chain None Identity noColor
               TYPE_DIFFERENCE "n").
    + destruct (getBoundingBox Examples.scenario_chain); reflexivity.
    + unfold chain_wf. simpl. tauto.
  - rewrite (getBoundingBox_add Examples.scenario_chain None Identity noColor
               TYPE_UNION "n").
    + vm_compute. reflexivity.
    + unfold chain_wf. simpl. tauto.
Defined.





(** *** The dump of a chain *)

Lemma append_assoc (s1 s2 s3 : string) :
  (s1 +:+ s2) +:+ s3 = s1 +:+ (s2 +:+ s3).
Proof.
  induction s1 as [|a s1 IH]; [done|].
  change (String a ((s1 +:+ s2) +:+ s3) = String a (s1 +:+ (s2 +:+ s3))).
  by rewrite IH.
Qed.

Lemma append_nil_l (s : string) : EmptyString +:+ s = s.
Proof. done. Qed.

Lemma append_nil_r (s : string) : s +:+ EmptyString = s.
Proof.
  induction s as [|a s IH]; [done|].
  change (String a (s +:+ EmptyString) = String a s). by rewrite IH.
Qed.

Lemma CSGChain_dump_body_add c ps mx col ty lbl acc i :
  chain_wf c -> i < length (types c) ->
  CSGChain_dump_body (add c ps mx col ty lbl) acc i =
  CSGChain_dump_body c acc i.
Proof.
  intros (H1 & H2 & H3 & H4) Hi. unfold CSGChain_dump_body, add. simpl.
  rewrite !at_index_app_l by lia. done.
Qed.

Lemma CSGChain_dump_body_Ok c acc i :
  chain_wf c -> i < length (types c) ->
  exists s, CSGChain_dump_body c acc i = Ok (acc +:+ s).
Proof.
  intros (H1 & H2 & H3 & H4) Hi. unfold CSGChain_dump_body, at_index.
  destruct (lookup_lt_is_Some_2 (types c) i Hi) as [ty ->].
  destruct (lookup_lt_is_Some_2 (labels c) i ltac:(lia)) as [lbl ->].
  simpl. destruct ty; [| case_decide | |];
    rewrite ?append_assoc; eauto.
Qed.

Lemma CSGChain_dump_loop c : forall l acc,
  chain_wf c -> (forall i, i ∈ l -> i < length (types c)) ->
  exists s,
    foldl (fun acc i => b ← acc; CSGChain_dump_body c b i) (Ok acc) l
      = Ok (acc +:+ s).
Proof.
  induction l as [|i l IH]; intros acc Hc Hl; simpl.
  - exists EmptyString. by rewrite append_nil_r.
  - destruct (CSGChain_dump_body_Ok c acc i Hc) as [s1 ->];
      [apply Hl; by left|].
    destruct (IH (acc +:+ s1) Hc) as [s2 ->];
      [intros j Hj; apply Hl; by right|].
    exists (s1 +:+ s2). by rewrite append_assoc.
Qed.

(** X16. [CSGChain::dump] on the chains that [add] builds.  The dump of
    the empty chain is a single line feed.  On a chain whose five vectors
    have one length, [dump] returns (no vector is read out of range) a
    text that ends in a line feed, and the dump of the chain with one more
    record is that text with, before its final line feed, the sign of the
    new record's type and its label: the sign is [+] on a new line for a
    union record ([+] alone when it is the first record), [ -] for a
    difference, [ *] for an intersection and nothing for a record tagged
    as a primitive. *)
Theorem CSGChain_dump_add (c : CSGChain) (ps : option PolySet)
    (mx : Transform3d) (col : Color) (ty : type_e) (lbl : string) :
  chain_wf c ->
  CSGChain_dump emptyChain = Ok newline /\
  exists s,
    CSGChain_dump c = Ok (s +:+ newline) /\
    CSGChain_dump (add c ps mx col ty lbl) =
      Ok (s +:+ record_text (length (types c)) (ps, mx, col, ty, lbl)
            +:+ newline).
Proof.
  intros Hc. split; [done|]. pose proof Hc as (H1 & H2 & H3 & H4).
  destruct (CSGChain_dump_loop c (seq 0 (length (types c))) EmptyString Hc)
    as [s Es]; [intros i Hi; apply elem_of_seq in Hi; lia|].
  rewrite append_nil_l in Es. exists s. split.
  - unfold CSGChain_dump. by rewrite Es.
  - unfold CSGChain_dump.
    replace (length (types (add c ps mx col ty lbl)))
      with (S (length (types c)))
      by (unfold add; simpl; rewrite length_app; simpl; lia).
    rewrite seq_S, foldl_snoc. simpl.
    rewrite (fold_body_ext
               (CSGChain_dump_body (add c ps mx col ty lbl))
               (CSGChain_dump_body c)).
    2:{ intros i b Hi. apply CSGChain_dump_body_add; [done|].
        apply elem_of_seq in Hi. lia. }
    rewrite Es. simpl.
    unfold CSGChain_dump_body, add, record_text, record_type. simpl.
    rewrite (at_index_middle (types c)) by lia. simpl.
    rewrite (at_index_middle (labels c)) by lia. simpl.
    destruct ty; try case_decide;
      by rewrite ?append_nil_l, ?append_assoc, ?append_nil_l.
Qed.

Lemma CSGChain_dump_add_witness :
  exists s,
    CSGChain_dump Examples.scenario_chain = Ok (s +:+ newline) /\
    CSGChain_dump (add Examples.scenario_chain (Examples.cube 3 0 1)
                     Identity noColor TYPE_UNION "D")
      = Ok (s +:+ ((newline +:+ "+") +:+ "D") +:+ newline).
Proof.
  destruct (CSGChain_dump_add Examples.scenario_chain (Examples.cube 3 0 1)
              Identity noColor TYPE_UNION "D") as (_ & s & E1 & E2).
  - unfold chain_wf. simpl. tauto.
  - exists s. split; [exact E1 | exact E2].
Defined.

(** ** The box of a chain and the box of the term it was imported from *)
















(** ** The rules of [normalize_tail] *)

Lemma repr_app h ns q T : repr h q T -> repr (h ++ ns) q T.
Proof.
  induction 1 as [|a n Hn Hty|a n l r Hn Hty Hl IHl Hr IHr].
  - constructor.
  - constructor; [|done].
    rewrite lookup_app_l; [done | by eapply lookup_lt_Some].
  - constructor; try done.
    rewrite lookup_app_l; [done | by eapply lookup_lt_Some].
Qed.

Lemma meets_createCSGTerm_repr c h ty l r Tl Tr :
  meets c h -> ty <> TYPE_PRIMITIVE ->
  repr h (Some l) Tl -> repr h (Some r) Tr ->
  exists n T,
    createCSGTerm h ty (Some l) (Some r) = Ok (h ++ [n], Some (length h)) /\
    meets c (h ++ [n]) /\
    repr (h ++ [n]) (Some (length h)) T /\
    skeleton T = EOp ty (skeleton Tl) (skeleton Tr).
Proof.
  intros Hm Hty Hl Hr.
  pose proof (repr_lookup _ _ _ Hl) as Hll.
  pose proof (repr_lookup _ _ _ Hr) as Hrl.
  destruct (meets_createCSGTerm c h ty l r Hm Hty Hll Hrl) as (n & E & M).
  destruct (createCSGTerm_cases _ _ _ _ _ _ E)
    as [[Eh _]|(a & b & ln & rn & _ & _ & _ & _ & _ & Eh & _)].
  { apply (f_equal length) in Eh. rewrite length_app in Eh.
    simpl in Eh. lia. }
  apply app_inj_tail in Eh as [_ ->].
  eexists _, (TOp _ Tl Tr). split; [exact E|]. split; [exact M|].
  split.
  { constructor.
    - by apply list_lookup_middle.
    - done.
    - simpl. by apply repr_app.
    - simpl. by apply repr_app. }
  done.
Qed.

Lemma meets_create_left_repr c h t t1 x y z Tx Ty Tz :
  meets c h -> t <> TYPE_PRIMITIVE -> t1 <> TYPE_PRIMITIVE ->
  repr h (Some x) Tx -> repr h (Some y) Ty -> repr h (Some z) Tz ->
  exists h' a' T,
    create_left h t t1 (Some x) (Some y) (Some z) = Ok (h', Some a', true) /\
    repr h' (Some a') T /\
    skeleton T = EOp t (EOp t1 (skeleton Tx) (skeleton Ty)) (skeleton Tz).
Proof.
  intros Hm Ht Ht1 Hx Hy Hz. unfold create_left.
  destruct (meets_createCSGTerm_repr c h t1 x y Tx Ty Hm Ht1 Hx Hy)
    as (n1 & T1 & E1 & M1 & R1 & S1).
  rewrite E1. cbn [mbind res_bind].
  destruct (meets_createCSGTerm_repr c (h ++ [n1]) t (length h) z T1 Tz
              M1 Ht R1 (repr_app _ _ _ _ Hz))
    as (n2 & T2 & E2 & M2 & R2 & S2).
  rewrite E2. cbn [mbind res_bind].
  eexists _, _, T2. split; [done|]. split; [done|]. by rewrite S2, S1.
Qed.

Lemma meets_create_both_repr c h t t1 t2 x y z w Tx Ty Tz Tw :
  meets c h -> t <> TYPE_PRIMITIVE -> t1 <> TYPE_PRIMITIVE ->
  t2 <> TYPE_PRIMITIVE ->
  repr h (Some x) Tx -> repr h (Some y) Ty ->
  repr h (Some z) Tz -> repr h (Some w) Tw ->
  exists h' a' T,
    create_both h t t1 t2 (Some x) (Some y) (Some z) (Some w)
      = Ok (h', Some a', true) /\
    repr h' (Some a') T /\
    skeleton T = EOp t (EOp t1 (skeleton Tx) (skeleton Ty))
                       (EOp t2 (skeleton Tz) (skeleton Tw)).
Proof.
  intros Hm Ht Ht1 Ht2 Hx Hy Hz Hw. unfold create_both.
  destruct (meets_createCSGTerm_repr c h t1 x y Tx Ty Hm Ht1 Hx Hy)
    as (n1 & T1 & E1 & M1 & R1 & S1).
  rewrite E1. cbn [mbind res_bind].
  destruct (meets_createCSGTerm_repr c (h ++ [n1]) t2 z w Tz Tw M1 Ht2
              (repr_app _ _ _ _ Hz) (repr_app _ _ _ _ Hw))
    as (n2 & T2 & E2 & M2 & R2 & S2).
  rewrite E2. cbn [mbind res_bind].
  destruct (meets_createCSGTerm_repr c ((h ++ [n1]) ++ [n2]) t
              (length h) (length (h ++ [n1])) T1 T2 M2 Ht
              (repr_app _ _ _ _ R1) R2)
    as (n3 & T3 & E3 & M3 & R3 & S3).
  rewrite E3. cbn [mbind res_bind].
  eexists _, _, T3. split; [done|]. split; [done|]. by rewrite S3, S1, S2.
Qed.

Lemma repr_op_inv c h a n T :
  meets c h -> repr h (Some a) T -> h !! a = Some n ->
  type n <> TYPE_PRIMITIVE ->
  exists l r Tl Tr,
    left n = Some l /\ right n = Some r /\ T = TOp n Tl Tr /\
    repr h (Some l) Tl /\ repr h (Some r) Tr.
Proof.
  intros Hm Hr Hn Hty.
  destruct (meets_children c h a n Hm Hn Hty) as (l & r & El & Er & _).
  inversion Hr as [|a' n' Hn' Hp|a' n' Tl Tr Hn' Hp Hl Hrr]; subst;
    assert (n' = n) as -> by congruence; [done|].
  rewrite El in Hl. rewrite Er in Hrr. exists l, r, Tl, Tr. done.
Qed.

Lemma repr_prim_inv' h a n T :
  repr h (Some a) T -> h !! a = Some n -> type n = TYPE_PRIMITIVE ->
  T = TPrim n.
Proof.
  intros Hr Hn Hty.
  inversion Hr as [|a' n' Hn' Hp|a' n' Tl Tr Hn' Hp Hl Hrr]; subst;
    assert (n' = n) as -> by congruence; done.
Qed.

(** X19. [normalize_tail] applies the nine rules its comments state, in
    the order of the code.  In a store in which every operator node has
    both children and all cached boxes are finite and share a point (so
    that [createCSGTerm] prunes nothing), [normalize_tail] on a term
    returns: when a rule matches the expression of the term, the flag
    [true] and a term whose expression is the right-hand side of the first
    matching rule, with the operands in the order written there; when no
    rule matches, the flag [false] and the term itself in the unchanged
    store.  Every box of the store it leaves is finite. *)
Theorem normalize_tail_rules (c : Vector3d) (h : list CSGTerm) (a : nat)
    (T : tree) :
  boxes_finite h -> meets c h -> repr h (Some a) T ->
  exists h' a' f T',
    normalize_tail h (Some a) = Ok (h', Some a', f) /\
    boxes_finite h' /\
    repr h' (Some a') T' /\
    match rewrite_rule (skeleton T) with
    | Some e => f = true /\ skeleton T' = e
    | None => f = false /\ h' = h /\ a' = a
    end.
Proof.
  intros Hfin Hm Hr.
  assert (Hrun : exists h' a' f T',
            normalize_tail h (Some a) = Ok (h', Some a', f) /\
            repr h' (Some a') T' /\
            match rewrite_rule (skeleton T) with
            | Some e => f = true /\ skeleton T' = e
            | None => f = false /\ h' = h /\ a' = a
            end).
  { pose proof (repr_lookup _ _ _ Hr) as Ha.
    destruct (ptr_ok_lookup h a Ha) as [n Hn].
    unfold normalize_tail. rewrite (deref_Some _ _ _ Hn). cbn [mbind res_bind].
    destruct (decide (type n = TYPE_PRIMITIVE)) as [Hp|Hp].
    { rewrite Hp, (repr_prim_inv' _ _ _ _ Hr Hn Hp).
      exists h, a, false, (TPrim n). split; [done|]. split; [|done].
      by constructor. }
    destruct (repr_op_inv c h a n T Hm Hr Hn Hp)
      as (l & r & Tl & Tr & El & Er & -> & Hl & Hrr).
    pose proof (repr_lookup _ _ _ Hl) as Hla.
    pose proof (repr_lookup _ _ _ Hrr) as Hra.
    destruct (ptr_ok_lookup h l Hla) as [ln Hln].
    destruct (ptr_ok_lookup h r Hra) as [rn Hrn].
    rewrite El, Er, (deref_Some _ _ _ Hrn). cbn [mbind res_bind skeleton].
    assert (Hstay : forall e,
              rewrite_rule e = None ->
              exists h' a' f T',
                Ok (h, Some a, false) = Ok (h', Some a', f) /\
                repr h' (Some a') T' /\
                match rewrite_rule e with
                | Some e' => f = true /\ skeleton T' = e'
                | None => f = false /\ h' = h /\ a' = a
                end).
    { intros e ->. exists h, a, false, (TOp n Tl Tr). by split. }
    assert (Hgo : forall (x : res (list CSGTerm * option nat * bool)) e e',
              rewrite_rule e = Some e' ->
              (exists h' a' T', x = Ok (h', Some a', true) /\
                 repr h' (Some a') T' /\ skeleton T' = e') ->
              exists h' a' f T',
                x = Ok (h', Some a', f) /\
                repr h' (Some a') T' /\
                match rewrite_rule e with
                | Some e' => f = true /\ skeleton T' = e'
                | None => f = false /\ h' = h /\ a' = a
                end).
    { intros x e e' -> (h' & a' & T' & -> & R & S).
      exists h', a', true, T'. by split. }
    destruct (type n) eqn:Etn; [done | by apply Hstay | ..].
    all: destruct (decide (type rn = TYPE_PRIMITIVE)) as [Hrp|Hrp].
    (* part A *)
    2,4: destruct (repr_op_inv c h r rn Tr Hm Hrr Hrn Hrp)
           as (y & z & Ty & Tz & Ey & Ez & -> & Hy & Hz);
         rewrite Ey, Ez; cbn [skeleton];
         destruct (type rn) eqn:Etr; try done;
         (eapply Hgo; [done|]);
         first [eapply meets_create_both_repr; eauto; done
               |eapply meets_create_left_repr; eauto; done].
    (* part B *)
    all: rewrite (repr_prim_inv' _ _ _ _ Hrr Hrn Hrp) in *.
    all: assert (Hrr' : repr h (Some r) (TPrim rn)) by (by constructor).
    all: rewrite Hrp, (deref_Some _ _ _ Hln); cbn [mbind res_bind skeleton].
    all: destruct (decide (type ln = TYPE_PRIMITIVE)) as [Hlp|Hlp];
      [rewrite (repr_prim_inv' _ _ _ _ Hl Hln Hlp) in *; rewrite Hlp;
       cbn [skeleton]; by apply Hstay|].
    all: destruct (repr_op_inv c h l ln Tl Hm Hl Hln Hlp)
           as (x & y & Tx & Ty & Ex & Ey & -> & Hx & Hy).
    all: rewrite Ex, Ey; cbn [skeleton].
    all: destruct (type ln) eqn:Etl; try done; try (by apply Hstay).
    all: (eapply Hgo; [done|]);
         change (EPrim rn) with (skeleton (TPrim rn));
         first [eapply meets_create_both_repr; eauto; done
               |eapply meets_create_left_repr; eauto; done]. }
  destruct Hrun as (h' & a' & f & T' & E & R & S).
  exists h', a', f, T'. split; [exact E|].
  split; [by eapply normalize_tail_finite|]. by split.
Qed.

Lemma xyp_boxes_finite : boxes_finite Examples.xyp_store.
Proof.
  intros a n Hn.
  do 5 (destruct a as [|a];
        [injection Hn as <-; apply small_finite_box; reflexivity|]).
  discriminate Hn.
Defined.

Lemma xyp_meets : meets (mkVec 0 0 0) Examples.xyp_store.
Proof.
  intros a n H.
  do 5 (destruct a as [|a];
        [injection H as <-; split; [reflexivity|]; intros Hp;
         first [by destruct Hp
               |eexists _, _; split; [reflexivity|]; split; [reflexivity|];
                simpl; lia]|]).
  discriminate H.
Defined.

Lemma normalize_tail_rules_witness :
  exists h' a' T' x y p,
    normalize_tail Examples.xyp_store (Some 4) = Ok (h', Some a', true) /\
    repr h' (Some a') T' /\
    skeleton (Examples.tree_of Examples.xyp_store (Some 4)) =
      EOp TYPE_INTERSECTION (EOp TYPE_DIFFERENCE (EPrim x) (EPrim y))
          (EPrim p) /\
    skeleton T' =
      EOp TYPE_DIFFERENCE (EOp TYPE_INTERSECTION (EPrim x) (EPrim p))
          (EPrim y).
Proof.
  destruct (normalize_tail_rules (mkVec 0 0 0) Examples.xyp_store 4
              (Examples.tree_of Examples.xyp_store (Some 4))
              xyp_boxes_finite xyp_meets)
    as (h' & a' & f & T' & E & _ & R & S).
  - apply (unfold_repr 5). vm_compute. reflexivity.
  - vm_compute in S. destruct S as [-> S].
    eexists h', a', T', _, _, _. split; [exact E|]. split; [exact R|].
    split; [vm_compute; reflexivity | exact S].
Defined.

(** ** The null dereference in the loop condition *)

(** X20. When the left operand normalises to nothing.  In a store built
    by the constructors, let [term] be an intersection or a difference
    whose right child is a primitive and to which no rule of
    [normalize_tail] applies.  If [normalize] of [term->left] returns the
    null term, then [normalize] of [term] assigns null to [term->left] and
    dereferences it in the condition of the [do ... while] loop, which
    reads [term->left->type]: it never returns. *)
Theorem normalize_faults_on_null_left (h : list CSGTerm) (a : nat)
    (n : CSGTerm) (r : nat) (rn : CSGTerm) (fuel : nat)
    (h1 : list CSGTerm) :
  built h -> h !! a = Some n ->
  type n = TYPE_INTERSECTION \/ type n = TYPE_DIFFERENCE ->
  right n = Some r -> h !! r = Some rn -> type rn = TYPE_PRIMITIVE ->
  normalize_tail h (Some a) = Ok (h, Some a, false) ->
  normalize fuel h (left n) = Ok (h1, None) ->
  forall f, S (S fuel) <= f -> normalize f h (Some a) = Fault.
Proof.
  intros Hb Hn Hty Er Hrn Hrp Htail Hleft f Hf.
  assert (Hnp : type n <> TYPE_PRIMITIVE) by (destruct Hty; congruence).
  assert (Hnu : type n <> TYPE_UNION) by (destruct Hty; congruence).
  apply (proj1 (normalize_mono (S (S fuel))) f h (Some a) Fault);
    [|done|done].
  destruct fuel as [|g]; [done|].
  pose proof (built_Inv (fun _ _ _ => false) (mkVec 0 0 0) h Hb
                (prims_sound_trivial h)) as HI.
  destruct (Inv_child_rank _ _ _ _ _ _ _ HI Hn Hnp)
    as (Hlo & _ & Hkl & _).
  destruct (left n) as [l|] eqn:El; [|done].
  destruct (proj1 (normalize_spec _ _ (S g)) _ _ _ _ _ _ HI Hlo Hleft)
    as (R' & D' & _ & (_ & _ & Hst & Hframe) & _).
  pose proof (Hframe _ _ Hn Hkl) as Hn1.
  destruct (Hst _ _ Hrn) as (rn1 & Hrn1 & Hrt).
  rewrite normalize_S, (deref_Some _ _ _ Hn). cbn [mbind res_bind].
  rewrite decide_False by done.
  rewrite normalize_do_S. cbn [tail_loop]. rewrite Htail.
  cbn [mbind res_bind]. rewrite (deref_Some _ _ _ Hn). cbn [mbind res_bind].
  rewrite decide_False by done. rewrite El, Hleft. cbn [mbind res_bind].
  cbn zeta.
  rewrite (loop_again_null_left (setLeft h1 a None) a
             (mkCSGTerm (type n) (polyset n) (label n) None (right n)
                        (bbox n) (m n) (color n)) r rn1); [done|..].
  - by apply setLeft_lookup.
  - done.
  - done.
  - done.
  - rewrite setLeft_lookup_ne; [done|].
    intros <-. rewrite Hn in Hrn. injection Hrn as <-. congruence.
  - congruence.
Qed.

Lemma normalize_faults_on_null_left_witness :
  normalize 9 Examples.xyzp_store (Some 6) = Fault.
Proof.
  apply (normalize_faults_on_null_left Examples.xyzp_store 6
           (mkCSGTerm TYPE_DIFFERENCE None "" (Some 5) (Some 3)
              (Examples.unitBox 2 3) Identity noColor)
           3
           (mkCSGTerm TYPE_PRIMITIVE (Examples.cube 3 2 3) "p" None None
              (Examples.unitBox 2 3) Identity noColor)
           5 Examples.xyzp_store xyzp_built).
  - reflexivity.
  - right. reflexivity.
  - reflexivity.
  - reflexivity.
  - reflexivity.
  - vm_compute. reflexivity.
  - vm_compute. reflexivity.
  - lia.
Defined.

(** ** The footprint of normalisation *)

Lemma outside_refl S h : outside S h h.
Proof. by intros b Hb. Qed.

Lemma outside_trans S h1 h2 h3 :
  outside S h1 h2 -> outside S h2 h3 -> outside S h1 h3.
Proof. intros H1 H2 b Hb. by rewrite H2, H1. Qed.

Lemma closed_in_lt S h b : closed_in S h -> ~ S b -> b < length h.
Proof.
  intros [_ Hf] Hb. destruct (decide (b < length h)) as [?|Hge]; [done|].
  destruct Hb. apply Hf. lia.
Qed.

Lemma closed_in_child S h a n :
  closed_in S h -> S a -> h !! a = Some n ->
  in_set S (left n) /\ in_set S (right n).
Proof. intros [Hc _]. apply Hc. Qed.

Lemma createCSGTerm_footprint S h ty l r h' q :
  closed_in S h -> in_set S l -> in_set S r ->
  createCSGTerm h ty l r = Ok (h', q) ->
  closed_in S h' /\ in_set S q /\ outside S h h'.
Proof.
  intros HS Hl Hr H.
  destruct (createCSGTerm_cases _ _ _ _ _ _ H)
    as [[-> Hq]|(a & b & ln & rn & -> & -> & Ha & Hb & Hty & -> & ->)].
  - split; [done|]. split; [|apply outside_refl].
    destruct Hq as [->|[->|[-> _]]]; done.
  - destruct HS as [Hc Hf]. split; [split|split].
    + intros x nx Hx Hnx. destruct (decide (x < length h)) as [Hlt|Hge].
      * rewrite lookup_app_l in Hnx by done. by apply (Hc x).
      * assert (x = length h) as ->.
        { apply lookup_lt_Some in Hnx. rewrite length_app in Hnx.
          simpl in Hnx. lia. }
        rewrite list_lookup_middle in Hnx by done. injection Hnx as <-.
        done.
    + intros x Hx. apply Hf. rewrite length_app in Hx. lia.
    + simpl. by apply Hf.
    + intros x Hx. rewrite lookup_app_l; [done|].
      by apply (closed_in_lt S); [split|].
Qed.

Lemma create_left_footprint S h t t1 a b c h' q f :
  closed_in S h -> in_set S a -> in_set S b -> in_set S c ->
  create_left h t t1 a b c = Ok (h', q, f) ->
  closed_in S h' /\ in_set S q /\ outside S h h'.
Proof.
  intros HS Ha Hb Hc. unfold create_left. intros H.
  apply bind_Ok in H as ([h1 u] & E1 & H).
  apply bind_Ok in H as ([h2 w] & E2 & H). injection H as <- <- <-.
  destruct (createCSGTerm_footprint S _ _ _ _ _ _ HS Ha Hb E1)
    as (HS1 & Hu & O1).
  destruct (createCSGTerm_footprint S _ _ _ _ _ _ HS1 Hu Hc E2)
    as (HS2 & Hw & O2).
  eauto using outside_trans.
Qed.

Lemma create_both_footprint S h t t1 t2 a b c d h' q f :
  closed_in S h -> in_set S a -> in_set S b -> in_set S c -> in_set S d ->
  create_both h t t1 t2 a b c d = Ok (h', q, f) ->
  closed_in S h' /\ in_set S q /\ outside S h h'.
Proof.
  intros HS Ha Hb Hc Hd. unfold create_both. intros H.
  apply bind_Ok in H as ([h1 u] & E1 & H).
  apply bind_Ok in H as ([h2 v] & E2 & H).
  apply bind_Ok in H as ([h3 w] & E3 & H). injection H as <- <- <-.
  destruct (createCSGTerm_footprint S _ _ _ _ _ _ HS Ha Hb E1)
    as (HS1 & Hu & O1).
  destruct (createCSGTerm_footprint S _ _ _ _ _ _ HS1 Hc Hd E2)
    as (HS2 & Hv & O2).
  destruct (createCSGTerm_footprint S _ _ _ _ _ _ HS2 Hu Hv E3)
    as (HS3 & Hw & O3).
  split; [done|]. split; [done|].
  eapply outside_trans; [|done]. by eapply outside_trans.
Qed.

Lemma normalize_tail_footprint S h q h' q' f :
  closed_in S h -> in_set S q ->
  normalize_tail h q = Ok (h', q', f) ->
  closed_in S h' /\ in_set S q' /\ outside S h h'.
Proof.
  intros HS Hq. unfold normalize_tail. intros H.
  apply bind_Ok in H as (t & Et & H).
  apply deref_Ok in Et as (a & -> & Ha). simpl in Hq.
  destruct (closed_in_child S h a t HS Hq Ha) as [Hx Hr].
  assert (Hstay : closed_in S h /\ in_set S (Some a) /\ outside S h h)
    by (split; [done|]; split; [done|apply outside_refl]).
  destruct (type t); try (by injection H as <- <- <-).
  all: apply bind_Ok in H as (rt & Ert & H).
  all: apply deref_Ok in Ert as (r & Er & Hrt).
  all: rewrite Er in Hr; simpl in Hr.
  all: destruct (closed_in_child S h r rt HS Hr Hrt) as [Hy Hz].
  all: destruct (type rt);
    try (by eapply create_left_footprint; [| | | |exact H]);
    try (by eapply create_both_footprint; [| | | | |exact H]).
  all: apply bind_Ok in H as (lt & Elt & H).
  all: apply deref_Ok in Elt as (l & El & Hlt).
  all: rewrite El in Hx; simpl in Hx.
  all: destruct (closed_in_child S h l lt HS Hx Hlt) as [Hlx Hly].
  all: assert (Hr' : in_set S (right t)) by (by rewrite Er).
  all: destruct (type lt); try (by injection H as <- <- <-);
    try (by eapply create_left_footprint; [| | | |exact H]);
    try (by eapply create_both_footprint; [| | | | |exact H]).
Qed.

Lemma tail_loop_footprint S fuel : forall h q h' q',
  closed_in S h -> in_set S q ->
  tail_loop fuel h q = Ok (h', q') ->
  closed_in S h' /\ in_set S q' /\ outside S h h'.
Proof.
  induction fuel as [|f IH]; intros h q h' q' HS Hq; [done|]. simpl.
  destruct q as [a|];
    [|intros [= <- <-]; split; [done|]; split; [done|apply outside_refl]].
  intros H. apply bind_Ok in H as ([[h1 q1] again] & Et & H).
  destruct (normalize_tail_footprint S _ _ _ _ _ HS Hq Et)
    as (HS1 & Hq1 & O1).
  destruct again.
  - destruct (IH _ _ _ _ HS1 Hq1 H) as (HS2 & Hq2 & O2).
    eauto using outside_trans.
  - by injection H as <- <-.
Qed.

Lemma setLeft_footprint S h a l :
  closed_in S h -> S a -> in_set S l ->
  closed_in S (setLeft h a l) /\ outside S h (setLeft h a l).
Proof.
  intros [Hc Hf] Ha Hl. split; [split|].
  - intros x nx Hx Hnx. destruct (h !! a) as [n|] eqn:Hn.
    2:{ unfold setLeft in Hnx. rewrite Hn in Hnx. by apply (Hc x). }
    destruct (decide (a = x)) as [<-|Hne].
    + rewrite (setLeft_lookup _ _ _ _ Hn) in Hnx. injection Hnx as <-.
      simpl. split; [done|]. by apply (Hc a n).
    + rewrite setLeft_lookup_ne in Hnx by done. by apply (Hc x).
  - intros b. rewrite length_setLeft. apply Hf.
  - intros b Hb. apply setLeft_lookup_ne. by intros ->.
Qed.

Lemma setRight_footprint S h a r :
  closed_in S h -> S a -> in_set S r ->
  closed_in S (setRight h a r) /\ outside S h (setRight h a r).
Proof.
  intros [Hc Hf] Ha Hr. split; [split|].
  - intros x nx Hx Hnx. destruct (h !! a) as [n|] eqn:Hn.
    2:{ unfold setRight in Hnx. rewrite Hn in Hnx. by apply (Hc x). }
    destruct (decide (a = x)) as [<-|Hne].
    + rewrite (setRight_lookup _ _ _ _ Hn) in Hnx. injection Hnx as <-.
      simpl. split; [|done]. by apply (Hc a n).
    + rewrite setRight_lookup_ne in Hnx by done. by apply (Hc x).
  - intros b. rewrite length_setRight. apply Hf.
  - intros b Hb. apply setRight_lookup_ne. by intros ->.
Qed.

Lemma normalize_footprint_in S fuel :
  (forall h q h' q',
     closed_in S h -> in_set S q ->
     normalize fuel h q = Ok (h', q') ->
     closed_in S h' /\ in_set S q' /\ outside S h h') /\
  (forall h q h' q',
     closed_in S h -> in_set S q ->
     normalize_do fuel h q = Ok (h', q') ->
     closed_in S h' /\ in_set S q' /\ outside S h h').
Proof.
  induction fuel as [|f [IHn IHd]]; [done|]. split.
  - intros h q h' q' HS Hq. rewrite normalize_S. intros H.
    apply bind_Ok in H as (t & Et & H).
    case_decide; [|eauto].
    injection H as <- <-. split; [done|]. split; [done|apply outside_refl].
  - intros h q h' q' HS Hq. rewrite normalize_do_S. intros H.
    apply bind_Ok in H as ([h1 term1] & Et & H).
    destruct (tail_loop_footprint S _ _ _ _ _ HS Hq Et) as (HS1 & Hq1 & O1).
    destruct term1 as [a|]; [|by injection H as <- <-].
    apply bind_Ok in H as (t & Ed & H).
    case_decide as Hty; [by injection H as <- <-|].
    apply deref_Ok in Ed as (a' & [= <-] & Ha). simpl in Hq1.
    destruct (closed_in_child S h1 a t HS1 Hq1 Ha) as [Hl _].
    apply bind_Ok in H as ([h2 l] & En & H).
    destruct (IHn _ _ _ _ HS1 Hl En) as (HS2 & Hl2 & O2).
    destruct (setLeft_footprint S h2 a l HS2 Hq1 Hl2) as [HS3 O3].
    assert (O13 : outside S h (setLeft h2 a l)).
    { eapply outside_trans; [exact O1|]. by eapply outside_trans. }
    cbn zeta in H. revert H HS3 O13. generalize (setLeft h2 a l).
    intros h3 H HS3 O13.
    apply bind_Ok in H as (again & Eag & H).
    destruct again.
    + destruct (IHd h3 (Some a) _ _ HS3 Hq1 H) as (HS4 & Hq4 & O4).
      eauto using outside_trans.
    + apply bind_Ok in H as (t3 & Ed3 & H).
      apply deref_Ok in Ed3 as (a' & [= <-] & Ha3).
      destruct (closed_in_child S h3 a t3 HS3 Hq1 Ha3) as [_ Hr3].
      apply bind_Ok in H as ([h4 r] & En4 & H).
      destruct (IHn _ _ _ _ HS3 Hr3 En4) as (HS4 & Hr4 & O4).
      destruct (setRight_footprint S h4 a r HS4 Hq1 Hr4) as [HS5 O5].
      revert H HS5 O5. generalize (setRight h4 a r). intros h5 H HS5 O5.
      unfold collapse in H. apply bind_Ok in H as (t5 & Ed5 & H).
      apply deref_Ok in Ed5 as (a' & [= <-] & Ha5).
      destruct (closed_in_child S h5 a t5 HS5 Hq1 Ha5) as [Hl5 Hr5].
      assert (O : outside S h h5).
      { eapply outside_trans; [exact O13|]. by eapply outside_trans. }
      destruct (right t5), (left t5), (type t5); injection H as <- <-;
        done.
Qed.

Lemma reach_step h q a n c :
  reach h q a -> h !! a = Some n ->
  left n = Some c \/ right n = Some c -> reach h q c.
Proof.
  induction 1 as [a|a na b Hna Hb IH|a na b Hna Hb IH]; intros Hn Hc.
  - destruct Hc as [Hc|Hc].
    + eapply reach_left; [done|]. rewrite Hc. constructor.
    + eapply reach_right; [done|]. rewrite Hc. constructor.
  - eapply reach_left; eauto.
  - eapply reach_right; eauto.
Qed.

(** X21. [normalize] touches only what its argument reaches.  When it
    returns, every node of the initial store that the argument does not
    lead to through [left] and [right] pointers is the same node in the
    final store: terms that share no node with the normalised term are
    not changed. *)
Theorem normalize_footprint (fuel : nat) (h : list CSGTerm)
    (q : option nat) (h' : list CSGTerm) (q' : option nat) :
  normalize fuel h q = Ok (h', q') ->
  forall b n, h !! b = Some n -> ~ reach h q b -> h' !! b = Some n.
Proof.
  intros H b n Hn Hb.
  set (S := fun x => reach h q x \/ length h <= x).
  assert (HS : closed_in S h).
  { split; [|by right]. intros a na [Ha|Ha] Hna.
    - split.
      + destruct (left na) as [c|] eqn:E; [|done]. left.
        eapply reach_step; eauto.
      + destruct (right na) as [c|] eqn:E; [|done]. left.
        eapply reach_step; eauto.
    - apply lookup_lt_Some in Hna. lia. }
  assert (Hq : in_set S q).
  { destruct q as [a|]; [|done]. left. constructor. }
  destruct (proj1 (normalize_footprint_in S fuel) _ _ _ _ HS Hq H)
    as (_ & _ & O).
  rewrite O; [done|]. intros [?|Hge]; [done|].
  apply lookup_lt_Some in Hn. lia.
Qed.

Lemma normalize_footprint_witness :
  Examples.store_of (normalize 20 Examples.abcp_store (Some 5)) !! 6 =
    Examples.abcp_store !! 6 /\
  length (Examples.store_of (normalize 20 Examples.abcp_store (Some 5))) = 9.
Proof.
  split; [|vm_compute; reflexivity].
  transitivity (Some (mkCSGTerm TYPE_INTERSECTION None "" (Some 5) (Some 3)
                        (Examples.unitBox 0 1) Identity noColor));
    [|reflexivity].
  apply (normalize_footprint 20 Examples.abcp_store (Some 5)
           (Examples.store_of (normalize 20 Examples.abcp_store (Some 5)))
           (Examples.root_of (normalize 20 Examples.abcp_store (Some 5)))).
  - vm_compute. reflexivity.
  - reflexivity.
  - intros Hr.
    repeat match goal with
    | H : reach _ None _ |- _ => inversion H
    | H : Examples.abcp_store !! _ = Some _ |- _ =>
        vm_compute in H; injection H as <-
    | H : reach _ (Some _) _ |- _ =>
        inversion H; clear H; subst; try discriminate
    | H : reach _ (left _) _ |- _ => simpl in H
    | H : reach _ (right _) _ |- _ => simpl in H
    end.
Defined.

Lemma closed_in_reach S h q b :
  closed_in S h -> in_set S q -> reach h q b -> S b.
Proof.
  intros HS Hq Hr.
  induction Hr as [a|a n b Hn Hb IH|a n b Hn Hb IH]; [done|..];
    apply IH; by apply (closed_in_child S h a n).
Qed.

(** X22. [normalize] invents no primitive.  When it returns, every
    primitive node that the returned term leads to is a primitive that the
    argument led to in the initial store, at the same address and with the
    same contents: the leaves of the normalised tree are among the leaves
    of the given tree. *)
Theorem normalize_leaves (fuel : nat) (h : list CSGTerm)
    (q : option nat) (h' : list CSGTerm) (q' : option nat) :
  normalize fuel h q = Ok (h', q') ->
  forall b n',
    reach h' q' b -> h' !! b = Some n' -> type n' = TYPE_PRIMITIVE ->
    reach h q b /\ h !! b = Some n'.
Proof.
  intros H b n' Hr Hn Hp.
  pose proof (proj2 (proj1 (normalize_keeps fuel) _ _ _ _ H) _ _ Hn Hp)
    as Hn0.
  split; [|done].
  set (S := fun x => reach h q x \/ length h <= x).
  assert (HS : closed_in S h).
  { split; [|by right]. intros a na [Ha|Ha] Hna.
    - split.
      + destruct (left na) as [c|] eqn:E; [|done]. left.
        eapply reach_step; eauto.
      + destruct (right na) as [c|] eqn:E; [|done]. left.
        eapply reach_step; eauto.
    - apply lookup_lt_Some in Hna. lia. }
  assert (Hq : in_set S q).
  { destruct q as [a|]; [|done]. left. constructor. }
  destruct (proj1 (normalize_footprint_in S fuel) _ _ _ _ HS Hq H)
    as (HS' & Hq' & _).
  destruct (closed_in_reach S h' q' b HS' Hq' Hr) as [?|Hge]; [done|].
  apply lookup_lt_Some in Hn0. lia.
Qed.

Lemma normalize_leaves_witness :
  reach Examples.abcp_store (Some 6) 2 /\
  Examples.abcp_store !! 2 = Examples.store_of Examples.abcp_once !! 2.
Proof.
  apply (normalize_leaves 20 Examples.abcp_store (Some 6)
           (Examples.store_of Examples.abcp_once)
           (Examples.root_of Examples.abcp_once) eq_refl 2
           (mkCSGTerm TYPE_PRIMITIVE (Examples.cube 2 0 1) "c" None None
              (Examples.unitBox 0 1) Identity noColor)).
  - change (reach (Examples.store_of Examples.abcp_once) (Some 6) 2).
    eapply reach_left; [vm_compute; reflexivity|]. simpl.
    eapply reach_right; [vm_compute; reflexivity|]. simpl.
    apply reach_here.
  - reflexivity.
  - reflexivity.
Defined.

(** ** Normalisation: the null dereference and the normal form *)

(** C1, at the failing input.  [(x * (y + z)) - p] is built by the
    constructors over four cubes with finite boxes that enclose their
    solids: the box of [x] meets the box of the union [y + z], but neither
    the box of [y] nor that of [z], so the tree stands for the empty set.
    [normalize] first normalises the left child [x * (y + z)]: rule 2
    asks for [(x * y) + (x * z)], both products are pruned, and the null
    term is returned and assigned to [term->left].  The condition of the
    [do ... while] loop then reads [term->left->type].  No budget makes
    [normalize] return on this tree, so no tree is returned whose
    membership could equal that of the given tree. *)
Theorem normalize_dereferences_null :
  Examples.build_xyzp = Ok (Examples.xyzp_store, Some 6) /\
  built Examples.xyzp_store /\
  prims_finite Examples.xyzp_store /\
  prims_sound Examples.box_solid Examples.xyzp_store /\
  repr Examples.xyzp_store (Some 6) Examples.xyzp_tree /\
  dump_tree Examples.xyzp_tree = "((x * (y + z)) - p)"%string /\
  (forall p, member Examples.box_solid Examples.xyzp_tree p = false) /\
  (exists n, Examples.xyzp_store !! 6 = Some n /\ left n = Some 5) /\
  (exists h1, normalize 20 Examples.xyzp_store (Some 5) = Ok (h1, None)) /\
  normalize 20 Examples.xyzp_store (Some 6) = Fault /\
  forall fuel h' q,
    normalize fuel Examples.xyzp_store (Some 6) <> Ok (h', q).
Proof.
  assert (E20 : normalize 20 Examples.xyzp_store (Some 6) = Fault)
    by (vm_compute; reflexivity).
  split; [vm_compute; reflexivity|].
  split; [exact xyzp_built|].
  split; [exact (boxes_finite_prims _ xyzp_boxes_finite)|].
  split; [exact xyzp_prims_sound|].
  split; [apply (unfold_repr 5); vm_compute; reflexivity|].
  split; [vm_compute; reflexivity|].
  split.
  { intros [x y z].
    assert (Hx : forall lo hi,
              Examples.box_solid (mkPolySet 0 (Examples.unitBox lo hi))
                Identity (mkVec x y z) = true ->
              (-10 <= lo <= hi)%Z -> (hi <= 10)%Z ->
              (lo <= x <= hi)%Z).
    { intros lo hi H Hlo Hhi. unfold Examples.box_solid in H.
      assert (HM : (10 <= DBL_MAX)%Z) by (vm_compute; discriminate).
      revert H HM. rewrite contains_spec.
      unfold initBoundingBox_prim, nullBox. rewrite !apply_Identity.
      generalize DBL_MAX. simpl. intros M (? & _) HM. lia. }
    destruct (member Examples.box_solid Examples.xyzp_tree (mkVec x y z))
      eqn:E; [exfalso|reflexivity].
    unfold Examples.xyzp_tree in E. cbn [member combine type] in E.
    apply andb_true_iff in E as [E _].
    apply andb_true_iff in E as [E1 E2].
    unfold prim_member in E1, E2. cbn [polyset m] in E1, E2.
    pose proof (Hx 2 3 E1 ltac:(lia) ltac:(lia))%Z as H1.
    apply orb_true_iff in E2 as [E2|E2].
    - pose proof (Hx 0 1 E2 ltac:(lia) ltac:(lia))%Z. lia.
    - pose proof (Hx 4 5 E2 ltac:(lia) ltac:(lia))%Z. lia. }
  split; [eexists; split; reflexivity|].
  split; [eexists; vm_compute; reflexivity|].
  split; [exact E20|].
  intros fuel h' q H.
  destruct (Nat.le_ge_cases fuel 20) as [Hle|Hle].
  - rewrite (proj1 (normalize_mono fuel) 20 _ _ _ H ltac:(done) Hle) in E20.
    discriminate E20.
  - rewrite (proj1 (normalize_mono 20) fuel _ _ _ E20 ltac:(done) Hle) in H.
    discriminate H.
Qed.

(** C2. For every tree built by the constructors over primitives with
    finite boxes: [normalize] terminates; when it returns a term, the
    returned tree has the normal shape (every node reachable from the root
    without passing through a union is a union, or has a primitive or
    nothing on the right and no union on the left), it stands for the
    same solid as the given tree whenever the boxes of the primitives
    enclose their solids, and every box of the final store is finite; and
    [normalize] does return a term, not null and without an absent child,
    whenever the boxes of the primitives share a point. *)
Theorem normalize_shape (h : list CSGTerm) (a : nat) (T0 : tree) :
  built h -> prims_finite h -> repr h (Some a) T0 ->
  (exists fuel, normalize fuel h (Some a) <> OutOfFuel) /\
  (forall fuel h' q,
     normalize fuel h (Some a) = Ok (h', q) ->
     boxes_finite h' /\
     exists T,
       repr h' q T /\ shape T /\
       forall inside, prims_sound inside h ->
         forall p, member inside T p = member inside T0 p) /\
  (forall c,
     (forall b n, h !! b = Some n -> type n = TYPE_PRIMITIVE ->
        contains (bbox n) c = true) ->
     exists fuel h' a' T,
       normalize fuel h (Some a) = Ok (h', Some a') /\
       repr h' (Some a') T /\ full T /\ shape T).
Proof.
  intros Hb Hfin Hr0. pose proof (repr_lookup _ _ _ Hr0) as Ha.
  pose proof (built_Inv (fun _ _ _ => false) (mkVec 0 0 0) h Hb
                (prims_sound_trivial h)) as HI.
  assert (Hshape : forall fuel h' q,
            normalize fuel h (Some a) = Ok (h', q) ->
            exists T, repr h' q T /\ shape T).
  { intros fuel h' q Hrun.
    destruct (proj1 (normalize_spec _ _ fuel) _ _ _ _ _ _ HI Ha Hrun)
      as (R' & D' & HI' & _ & Hq & _ & _).
    destruct (Inv_repr _ _ h' R' D' HI' q Hq) as (T & HT & _).
    assert (HF0 : FInv h (fun _ => false)) by (by intros c).
    destruct (proj1 (normalize_F _ _ fuel) _ _ _ _ _ _ _ HI HF0 Ha Hrun)
      as (F' & HF' & _ & _ & Hfin' & _).
    exists T. split; [done|]. eapply FInv_shape; eauto. }
  split; [by eapply normalize_terminates|]. split.
  - intros fuel h' q Hrun. split.
    { eapply (proj1 (normalize_finite fuel)); [|exact Hrun].
      by apply built_boxes_finite. }
    destruct (Hshape _ _ _ Hrun) as (T & HT & Hs).
    exists T. split; [done|]. split; [done|]. intros inside Hsound p.
    pose proof (built_Inv inside p h Hb Hsound) as HIp.
    destruct (proj1 (normalize_spec inside p fuel) _ _ _ _ _ _ HIp Ha Hrun)
      as (R' & D' & HI' & _ & Hq & Hd & _).
    destruct (Inv_repr inside p h' R' D' HI' q Hq) as (T' & HT' & Hm).
    rewrite (repr_functional _ _ _ HT _ HT').
    by rewrite Hm, Hd, (den_of_repr inside p h a T0).
  - intros c Hp.
    pose proof (built_meets c h Hb Hp) as Hm.
    destruct (normalize_terminates _ _ h _ _ a HI Ha) as [fuel Hf].
    destruct (proj1 (meets_normalize c fuel) h a _ Hm Ha eq_refl Hf)
      as (h' & a' & E & M' & Ha').
    destruct (Hshape _ _ _ E) as (T & HT & Hs).
    exists fuel, h', a', T. split; [done|]. split; [done|].
    split; [|done]. eapply meets_full; eauto.
Qed.

Lemma notch_built : built Examples.notch_store.
Proof.
  intros a n H.
  do 7 (destruct a as [|a]; [injection H as <-; vm_compute; reflexivity|]).
  discriminate H.
Defined.

Lemma notch_boxes_finite : boxes_finite Examples.notch_store.
Proof.
  intros a n Hn.
  do 7 (destruct a as [|a];
        [injection Hn as <-; apply small_finite_box; reflexivity|]).
  discriminate Hn.
Defined.

Lemma notch_prims_sound :
  prims_sound Examples.box_solid Examples.notch_store.
Proof.
  intros a n p Hn Hp.
  do 7 (destruct a as [|a];
        [injection Hn as <-; try discriminate Hp; intros Hm; exact Hm|]).
  discriminate Hn.
Defined.

Lemma normalize_shape_witness :
  Examples.build_notch = Ok (Examples.notch_store, Some 6) /\
  dump_tree Examples.notch_tree = "((a * (b - c)) * p)"%string /\
  normalize 20 Examples.notch_store (Some 6)
    = Ok (Examples.store_of Examples.notch_once, Some 6) /\
  repr (Examples.store_of Examples.notch_once) (Some 6)
       Examples.notch_result /\
  dump_tree Examples.notch_result = "(((a * b) - c) * p)"%string /\
  shape Examples.notch_result /\
  full Examples.notch_result /\
  (forall p, member Examples.box_solid Examples.notch_result p
             = member Examples.box_solid Examples.notch_tree p) /\
  member Examples.box_solid Examples.notch_result (mkVec 0 0 1) = true /\
  member Examples.box_solid Examples.notch_result (mkVec 2 3 2) = false.
Proof.
  destruct (normalize_shape Examples.notch_store 6 Examples.notch_tree)
    as (_ & Hret & Hmeet).
  - exact notch_built.
  - exact (boxes_finite_prims _ notch_boxes_finite).
  - apply (unfold_repr 5). vm_compute. reflexivity.
  - assert (E20 : normalize 20 Examples.notch_store (Some 6)
                  = Ok (Examples.store_of Examples.notch_once, Some 6))
      by (vm_compute; reflexivity).
    assert (HR : repr (Examples.store_of Examples.notch_once) (Some 6)
                      Examples.notch_result)
      by (apply (unfold_repr 5); vm_compute; reflexivity).
    destruct (Hret 20 _ _ E20) as (_ & T & HT & Hs & Hm).
    pose proof (repr_functional _ _ _ HT _ HR) as ->.
    destruct (Hmeet (mkVec 2 2 2)) as (fuel & h' & a' & T' & E & HT' & Hf & _).
    { intros b n Hn Hp.
      do 7 (destruct b as [|b];
            [injection Hn as <-; try discriminate Hp; vm_compute;
             reflexivity|]).
      discriminate Hn. }
    pose proof (normalize_det _ _ _ _ _ _ E E20) as Er.
    injection Er as -> ->.
    pose proof (repr_functional _ _ _ HT' _ HR) as ->.
    split; [vm_compute; reflexivity|].
    split; [vm_compute; reflexivity|].
    split; [exact E20|]. split; [exact HR|].
    split; [vm_compute; reflexivity|].
    split; [exact Hs|]. split; [exact Hf|].
    split; [exact (Hm _ notch_prims_sound)|].
    split; rewrite (Hm _ notch_prims_sound); vm_compute; reflexivity.
Defined.
